(** * The statistics core of Gnuastro: a shallow embedding of [lib/statistics.c]

    The development follows the source file function by function: the
    blank-free sorted view, median / MAD / mean / standard deviation,
    quantile indexing and the quantile function, the regular-bin
    histogram, the mode estimator, the iterative sigma / MAD clipping
    loop and the distance-based outlier detector; then minimum and maximum,
    the regular bins, the cumulative frequency plot, the unique elements,
    the mirror distribution and the concentration.

    Numeric model.  A C [double] (and [float]) is modelled by the value it
    denotes: an exact rational, one of the two infinities, or NaN.  The
    arithmetic on these values is exact: the rounding of a result to
    binary64 and the sign of zero are outside the model, and a property
    that depends on exact arithmetic says so, or assumes that the values
    involved are numbers of the format.  A [float] literal and a value
    copied to float32 are rounded to that format.  Integer element types
    keep their C arithmetic: integer division truncates, and results are
    reduced to the width of the type that holds them.  [size_t] is a 64-bit
    unsigned integer and [int] a 32-bit signed one. *)

From Stdlib Require Import ZArith QArith Qround Qabs List Bool Lia Lqa.
From Stdlib Require Import Sorted Permutation.
Import ListNotations.

Set Implicit Arguments.

(** ** Results of fallible code *)

Inductive result (A : Type) : Type :=
| Ok (a : A)            (* normal return *)
| InvalidArgument       (* [error(EXIT_FAILURE, ...)] on a bad argument *)
| Undefined.            (* the C standard leaves the behaviour undefined *)

Arguments Ok {A} a.
Arguments InvalidArgument {A}.
Arguments Undefined {A}.

Definition bind {A B : Type} (r : result A) (k : A -> result B) : result B :=
  match r with
  | Ok a => k a
  | InvalidArgument => InvalidArgument
  | Undefined => Undefined
  end.

Notation "x <- e ;; k" := (bind e (fun x => k))
  (at level 61, e at next level, right associativity).

Definition of_option {A : Type} (o : option A) : result A :=
  match o with Some a => Ok a | None => Undefined end.

(** ** The model of [double] *)

Module Dbl.

Inductive double : Type :=
| NaN
| PInf
| NInf
| Fin (q : Q).

Definition isnan (x : double) : bool :=
  match x with NaN => true | _ => false end.

Definition neg (x : double) : double :=
  match x with
  | NaN => NaN
  | PInf => NInf
  | NInf => PInf
  | Fin q => Fin (Qred (- q))
  end.

Definition add (x y : double) : double :=
  match x, y with
  | NaN, _ | _, NaN => NaN
  | PInf, NInf | NInf, PInf => NaN
  | PInf, _ | _, PInf => PInf
  | NInf, _ | _, NInf => NInf
  | Fin a, Fin b => Fin (Qred (a + b))
  end.

Definition sub (x y : double) : double := add x (neg y).

(* The sign of a rational as -1, 0 or 1. *)
Definition Qsgn (q : Q) : Z := Z.sgn (Qnum q).

Definition inf_of_sign (s : Z) : double :=
  if (s =? 0)%Z then NaN else if (0 <? s)%Z then PInf else NInf.

Definition sign (x : double) : Z :=
  match x with
  | NaN => 0
  | PInf => 1
  | NInf => -1
  | Fin q => Qsgn q
  end.

Definition mul (x y : double) : double :=
  match x, y with
  | NaN, _ | _, NaN => NaN
  | Fin a, Fin b => Fin (Qred (a * b))
  | _, _ => inf_of_sign (sign x * sign y)
  end.

Definition div (x y : double) : double :=
  match x, y with
  | NaN, _ | _, NaN => NaN
  | Fin a, Fin b =>
      if Qeq_bool b 0 then inf_of_sign (Qsgn a) else Fin (Qred (a / b))
  | Fin _, _ => Fin 0
  | _, Fin b => if Qeq_bool b 0 then x else inf_of_sign (sign x * Qsgn b)
  | _, _ => NaN
  end.

(* Comparisons: every comparison with NaN is false. *)
Definition ltb (x y : double) : bool :=
  match x, y with
  | NaN, _ | _, NaN => false
  | _, NInf => false
  | NInf, _ => true
  | PInf, _ => false
  | _, PInf => true
  | Fin a, Fin b => negb (Qle_bool b a)
  end.

Definition leb (x y : double) : bool :=
  match x, y with
  | NaN, _ | _, NaN => false
  | NInf, _ => true
  | _, PInf => true
  | _, NInf => false
  | PInf, _ => false
  | Fin a, Fin b => Qle_bool a b
  end.

Definition gtb (x y : double) : bool := ltb y x.
Definition geb (x y : double) : bool := leb y x.

Definition eqb (x y : double) : bool :=
  match x, y with
  | PInf, PInf | NInf, NInf => true
  | Fin a, Fin b => Qeq_bool a b
  | _, _ => false
  end.

Definition of_Z (z : Z) : double := Fin (inject_Z z).

(* Truncation toward zero, as the conversion of a floating value to an
   integer type does. *)
Definition Qtrunc (q : Q) : Z := Z.quot (Qnum q) (Zpos (Qden q)).

(* [ceil] of <math.h>. *)
Definition ceil (x : double) : double :=
  match x with
  | Fin q => of_Z (Qceiling q)
  | _ => x
  end.

(* [(int)x]: defined only when the truncated value fits a 32-bit [int]. *)
Definition cast_int (x : double) : option Z :=
  match x with
  | Fin q =>
      let t := Qtrunc q in
      if ((- 2 ^ 31 <=? t) && (t <? 2 ^ 31))%Z then Some t else None
  | _ => None
  end.

(* [(size_t)x]: defined only when the truncated value fits 64 unsigned bits. *)
Definition cast_size_t (x : double) : option Z :=
  match x with
  | Fin q =>
      let t := Qtrunc q in
      if ((0 <=? t) && (t <? 2 ^ 64))%Z then Some t else None
  | _ => None
  end.

(* Two doubles denote the same value. *)
Definition same (x y : double) : Prop :=
  match x, y with
  | NaN, NaN | PInf, PInf | NInf, NInf => True
  | Fin a, Fin b => a == b
  | _, _ => False
  end.

End Dbl.

Export Dbl.

Declare Scope dbl_scope.
Delimit Scope dbl_scope with dbl.
Notation "x + y" := (Dbl.add x y) : dbl_scope.
Notation "x - y" := (Dbl.sub x y) : dbl_scope.
Notation "x * y" := (Dbl.mul x y) : dbl_scope.
Notation "x / y" := (Dbl.div x y) : dbl_scope.
Notation "x <? y" := (Dbl.ltb x y) : dbl_scope.
Notation "x <=? y" := (Dbl.leb x y) : dbl_scope.
Notation "x >? y" := (Dbl.gtb x y) : dbl_scope.
Notation "x >=? y" := (Dbl.geb x y) : dbl_scope.
Notation "x =? y" := (Dbl.eqb x y) : dbl_scope.

(** ** [size_t] arithmetic *)

Definition SIZE_MOD : Z := 2 ^ 64.

(* Reduction of an integer to [size_t]. *)
Definition sz (z : Z) : Z := z mod SIZE_MOD.

(** ** Element types *)

Inductive gal_type : Type :=
| GAL_TYPE_UINT8 | GAL_TYPE_INT8
| GAL_TYPE_UINT16 | GAL_TYPE_INT16
| GAL_TYPE_UINT32 | GAL_TYPE_INT32
| GAL_TYPE_UINT64 | GAL_TYPE_INT64
| GAL_TYPE_FLOAT32 | GAL_TYPE_FLOAT64.

Definition all_types : list gal_type :=
  [GAL_TYPE_UINT8; GAL_TYPE_INT8; GAL_TYPE_UINT16; GAL_TYPE_INT16;
   GAL_TYPE_UINT32; GAL_TYPE_INT32; GAL_TYPE_UINT64; GAL_TYPE_INT64;
   GAL_TYPE_FLOAT32; GAL_TYPE_FLOAT64].

Definition is_float (t : gal_type) : bool :=
  match t with
  | GAL_TYPE_FLOAT32 | GAL_TYPE_FLOAT64 => true
  | _ => false
  end.

Definition is_signed (t : gal_type) : bool :=
  match t with
  | GAL_TYPE_INT8 | GAL_TYPE_INT16 | GAL_TYPE_INT32 | GAL_TYPE_INT64 => true
  | _ => false
  end.

Definition width (t : gal_type) : Z :=
  match t with
  | GAL_TYPE_UINT8 | GAL_TYPE_INT8 => 8
  | GAL_TYPE_UINT16 | GAL_TYPE_INT16 => 16
  | GAL_TYPE_UINT32 | GAL_TYPE_INT32 | GAL_TYPE_FLOAT32 => 32
  | GAL_TYPE_UINT64 | GAL_TYPE_INT64 | GAL_TYPE_FLOAT64 => 64
  end.

(* The type in which C evaluates an arithmetic expression on two operands
   of type [t] (the integer promotions). *)
Definition promote (t : gal_type) : gal_type :=
  match t with
  | GAL_TYPE_UINT8 | GAL_TYPE_INT8 | GAL_TYPE_UINT16 | GAL_TYPE_INT16 =>
      GAL_TYPE_INT32
  | _ => t
  end.

(* Reduction of an integer to the range of an integer type: modulo 2^w for
   the unsigned types, two's complement for the signed ones. *)
Definition wrap (t : gal_type) (z : Z) : Z :=
  let m := (2 ^ width t)%Z in
  if is_signed t then ((z + m / 2) mod m - m / 2)%Z else (z mod m)%Z.

(* Conversion of a value to type [t]. *)
Definition cast (t : gal_type) (q : Q) : Q :=
  if is_float t then Qred q else inject_Z (wrap t (Qtrunc q)).

(* [x + y], [x - y] and [2 * x - y] on operands of type [t], evaluated in
   the promoted type. *)
Definition it_add (t : gal_type) (x y : Q) : Q := cast (promote t) (x + y).
Definition it_sub (t : gal_type) (x y : Q) : Q := cast (promote t) (x - y).
Definition it_mirror (t : gal_type) (zf x : Q) : Q :=
  cast (promote t) (2 * zf - x).

(* [x / 2] in the promoted type: truncating for the integer types. *)
Definition it_half (t : gal_type) (x : Q) : Q :=
  if is_float t then Qred (x / 2) else inject_Z (Z.quot (Qtrunc x) 2).

(** ** Datasets

    A [gal_data_t] holding a one-dimensional array is modelled by its
    element type and its cells.  A cell holding the blank value of the type
    (the reserved sentinel of an integer type, NaN of a floating type) is
    [None].  The sortedness and blank flags cached in [flag] are taken to be
    unset or truthful, so testing them equals inspecting the array. *)

Record gal_data : Type := mk_data {
  dtype : gal_type;
  darray : list (option Q)
}.

(* A blank-free dataset whose sortedness flags are set: the result of
   [gal_statistics_no_blank_sorted].  [vinc] is GAL_DATA_FLAG_SORTED_I; when
   it is false GAL_DATA_FLAG_SORTED_D is set. *)
Record view : Type := mk_view {
  vtype : gal_type;
  varr : list Q;
  vinc : bool
}.

Definition vsize (v : view) : Z := Z.of_nat (length (varr v)).

Definition Qltb (a b : Q) : bool := negb (Qle_bool b a).

(** ** Conversion to a floating type

    Where the code stores a value in a [float] and the stored value is what
    it returns or compares (a [float] literal, the copy of an element to
    float32), the model rounds: to the nearest number of the format, a tie
    going to the one with an even significand, and to an infinity beyond
    the largest finite number. *)

(* The nearest integer, a tie going to the even one. *)
Definition Zrne (q : Q) : Z :=
  let f := Qfloor q in
  match Qcompare (q - inject_Z f) (1 # 2) with
  | Lt => f
  | Gt => (f + 1)%Z
  | Eq => if Z.even f then f else (f + 1)%Z
  end.

(* The exponent of the leading bit of a rational other than 0. *)
Definition Qlog2 (q : Q) : Z :=
  let e := (Z.log2 (Z.abs (Qnum q)) - Z.log2 (Zpos (Qden q)))%Z in
  if Qle_bool (Qpower 2 e) (Qabs q) then e else (e - 1)%Z.

(* Rounding to the format with [prec] bits of significand, [emin] the
   exponent of its smallest positive number and [fmax] its largest finite
   number. *)
Definition round_float (prec emin : Z) (fmax : Q) (q : Q) : double :=
  if Qeq_bool q 0 then Fin 0
  else
    let e := Z.max (Qlog2 q - (prec - 1)) emin in
    let r := Qred (inject_Z (Zrne (q / Qpower 2 e)) * Qpower 2 e) in
    if Qltb fmax (Qabs r) then (if Qltb 0 q then PInf else NInf) else Fin r.

(* FLT_MAX and DBL_MAX of <float.h>. *)
Definition FLT_MAX : Q := inject_Z ((2 ^ 24 - 1) * 2 ^ 104).
Definition DBL_MAX : Q := inject_Z ((2 ^ 53 - 1) * 2 ^ 971).

(* The value as a [float] and as a [double]. *)
Definition to_float32 (q : Q) : double := round_float 24 (-149) FLT_MAX q.
Definition to_float64 (q : Q) : double := round_float 53 (-1074) DBL_MAX q.

(* A floating value stored in a [float]. *)
Definition f32 (x : double) : double :=
  match x with
  | Fin q => to_float32 q
  | _ => x
  end.

(* The rational is a number of the format: the conversion leaves it as it
   is. *)
Definition is_float32 (q : Q) : Prop := same (to_float32 q) (Fin q).
Definition is_float64 (q : Q) : Prop := same (to_float64 q) (Fin q).

(** ** Quantile index (lines 526-554) *)

(* GAL_BLANK_SIZE_T is declared in gnuastro/blank.h, outside the sources at
   hand; an index that may be blank is an [option Z] with [None] for the
   blank.  The product [(size-1)*quantile] and the sum [floatindex+1] are
   exact here, where the code rounds them to binary64; [index_exact] below
   names the arguments on which the code's product and sum are exact
   too. *)
Definition gal_statistics_quantile_index (size : Z) (quantile : double)
  : result (option Z) :=
  if (size =? 0)%Z then Ok None
  else if (quantile <? Fin 0)%dbl || (quantile >? Fin 1)%dbl
       then InvalidArgument
  else
    let floatindex := (of_Z (size - 1) * quantile)%dbl in
    i <- of_option (cast_int floatindex) ;;
    if (floatindex - of_Z i >? Fin (1 # 2))%dbl
    then r <- of_option (cast_size_t (floatindex + Fin 1)%dbl) ;; Ok (Some r)
    else r <- of_option (cast_size_t floatindex) ;; Ok (Some r).

(* The function multiplies and adds in binary64, and the model does so
   exactly.  The two agree on a size and a quantile for which the quantile,
   the float index [(size-1)*quantile] and its successor are binary64
   numbers: the code then computes them without rounding. *)
Definition index_exact (size : Z) (q : Q) : Prop :=
  is_float64 q /\
  is_float64 (inject_Z (size - 1) * q) /\
  is_float64 (inject_Z (size - 1) * q + 1).

(** ** Sortedness and sorting (lines 1525-1705) *)

Inductive is_sorted_return : Type :=
| STATISTICS_IS_SORTED_NOT
| STATISTICS_IS_SORTED_INCREASING
| STATISTICS_IS_SORTED_DECREASING.

(* No adjacent pair breaks the order: the [do ... while(++a<af)] scans of
   IS_SORTED that reach the end of the array. *)
Fixpoint scan_increasing (l : list Q) : bool :=
  match l with
  | x :: (y :: _) as tl => negb (Qltb y x) && scan_increasing tl
  | _ => true
  end.

Fixpoint scan_decreasing (l : list Q) : bool :=
  match l with
  | x :: (y :: _) as tl => negb (Qltb x y) && scan_decreasing tl
  | _ => true
  end.

Definition gal_statistics_is_sorted (l : list Q) : is_sorted_return :=
  match l with
  | a0 :: a1 :: _ =>
      if Qle_bool a0 a1
      then if scan_increasing l then STATISTICS_IS_SORTED_INCREASING
           else STATISTICS_IS_SORTED_NOT
      else if scan_decreasing l then STATISTICS_IS_SORTED_DECREASING
           else STATISTICS_IS_SORTED_NOT
  | _ => STATISTICS_IS_SORTED_INCREASING
  end.

(* [qsort] with the increasing comparison of the element type; the C
   library routine and the comparison functions are outside the sources at
   hand, so any increasing sort stands for them. *)
Fixpoint insert_sorted (x : Q) (l : list Q) : list Q :=
  match l with
  | [] => [x]
  | y :: tl => if Qle_bool x y then x :: l else y :: insert_sorted x tl
  end.

Definition gal_statistics_sort_increasing (l : list Q) : list Q :=
  fold_right insert_sorted [] l.

(** ** The blank-free sorted view (lines 1720-1805)

    [inplace] only selects whether the caller's buffer is overwritten or a
    copy is made; the returned view is the same in both cases, so the
    argument does not appear in the model. *)

Fixpoint gal_blank_remove (l : list (option Q)) : list Q :=
  match l with
  | [] => []
  | Some x :: tl => x :: gal_blank_remove tl
  | None :: tl => gal_blank_remove tl
  end.

Definition gal_statistics_no_blank_sorted (input : gal_data) : view :=
  let noblank := gal_blank_remove (darray input) in
  match noblank with
  | [] => mk_view (dtype input) [] true
  | _ =>
      match gal_statistics_is_sorted noblank with
      | STATISTICS_IS_SORTED_INCREASING => mk_view (dtype input) noblank true
      | STATISTICS_IS_SORTED_DECREASING => mk_view (dtype input) noblank false
      | STATISTICS_IS_SORTED_NOT =>
          mk_view (dtype input) (gal_statistics_sort_increasing noblank) true
      end
  end.

(* A dataset made of the given values, none of them blank. *)
Definition data_of (t : gal_type) (l : list Q) : gal_data :=
  mk_data t (map (@Some Q) l).

(** ** Median (lines 327-386) *)

(* MED_IN_SORTED: [n%2 ? a[n/2] : (a[n/2]+a[n/2-1])/2], stored in the
   element type; the blank value on an empty array.  For the two floating
   types the sum and its half are exact here: the code rounds them, and its
   sum can overflow to an infinity. *)
Definition statistics_median_in_sorted_no_blank (t : gal_type) (a : list Q)
  : option Q :=
  let n := length a in
  match n with
  | O => None
  | _ =>
      if Nat.odd n then Some (nth (n / 2) a 0)
      else Some (cast t (it_half (promote t)
                           (it_add t (nth (n / 2) a 0) (nth (n / 2 - 1) a 0))))
  end.

(* The one-element dataset, of the type of the input, holding the median. *)
Definition gal_statistics_median (input : gal_data) : gal_data :=
  let nbs := gal_statistics_no_blank_sorted input in
  mk_data (vtype nbs)
    [statistics_median_in_sorted_no_blank (vtype nbs) (varr nbs)].

(* The value of a one-element dataset. *)
Definition scalar (d : gal_data) : option Q :=
  match darray d with
  | [c] => c
  | _ => None
  end.

(** ** Median absolute deviation (lines 392-518)

    [gal_arithmetic] and [gal_data_copy_to_new_type] are defined outside the
    sources at hand.  They are modelled by what the calls ask of them: the
    subtraction and the absolute value are exact (the unsigned types are
    widened to a signed type first), and the result is converted back to
    the element type. *)

Definition statistics_mad_in_sorted_no_blank (sorted : view) (med : option Q)
  : option Q :=
  match med with
  | None => None
  | Some m =>
      let use := map (fun x => cast (vtype sorted) (Qabs (x - m)))
                     (varr sorted) in
      scalar (gal_statistics_median (data_of (vtype sorted) use))
  end.

(* The median and the MAD of a dataset. *)
Definition statistics_median_mad (input : gal_data)
  : option Q * option Q :=
  let nbs := gal_statistics_no_blank_sorted input in
  let med := scalar (gal_statistics_median input) in
  (med, statistics_mad_in_sorted_no_blank nbs med).

Definition gal_statistics_mad (input : gal_data) : option Q :=
  snd (statistics_median_mad input).

(** ** Mean and standard deviation (lines 168-321)

    [sqrt] comes from the C mathematical library; it is a parameter of the
    development.  The sums and the one-pass formula
    [sqrt((sump2 - sum*sum/num)/num)] are exact here; in binary64 the
    subtraction cancels. *)

Definition Qsum (l : list Q) : Q := fold_left Qplus l 0.

(* A blank floating value is NaN. *)
Definition to_double (c : option Q) : double :=
  match c with
  | Some q => Fin q
  | None => NaN
  end.

Definition gal_statistics_mean (l : list Q) : double :=
  match l with
  | [] => NaN
  | _ => (Fin (Qsum l) / of_Z (Z.of_nat (length l)))%dbl
  end.

Section Std.

Variable sqrt : double -> double.

Definition gal_statistics_std_from_sums (sum sump2 : double) (num : Z)
  : double :=
  if (num =? 0)%Z then NaN
  else if (num =? 1)%Z then Fin 0
  else
    let ss := (sum * sum / of_Z num)%dbl in
    if (ss >? sump2)%dbl then Fin 0
    else sqrt ((sump2 - ss) / of_Z num)%dbl.

Definition gal_statistics_std (l : list Q) : double :=
  match l with
  | [] => NaN
  | [_] => Fin 0
  | _ =>
      gal_statistics_std_from_sums
        (Fin (Qred (Qsum l)))
        (Fin (Qred (Qsum (map (fun v => v * v) l))))
        (Z.of_nat (length l))
  end.

(* The mean and the standard deviation in one pass. *)
Definition gal_statistics_mean_std (l : list Q) : double * double :=
  match l with
  | [] => (NaN, NaN)
  | [x] => (Fin x, Fin 0)
  | _ =>
      let s := Fin (Qred (Qsum l)) in
      let s2 := Fin (Qred (Qsum (map (fun v => v * v) l))) in
      let n := Z.of_nat (length l) in
      ((s / of_Z n)%dbl, gal_statistics_std_from_sums s s2 n)
  end.

End Std.

(* Reading [a[i]] for a [size_t] index: outside the array the behaviour is
   undefined. *)
Definition rd (a : list Q) (i : Z) : result Q :=
  if (i <? 0)%Z then Undefined else of_option (nth_error a (Z.to_nat i)).

(** ** Quantile (lines 562-604) *)

(* The one-element result: the value at the quantile, blank on an empty
   view. *)
Definition gal_statistics_quantile (input : gal_data) (quantile : double)
  : result (option Q) :=
  let nbs := gal_statistics_no_blank_sorted input in
  match varr nbs with
  | [] => Ok None
  | _ =>
      index <- gal_statistics_quantile_index (vsize nbs)
                 (if vinc nbs then quantile else (Fin 1 - quantile)%dbl) ;;
      match index with
      | None => Ok None
      | Some i => x <- rd (varr nbs) i ;; Ok (Some x)
      end
  end.

(** ** Quantile function (lines 613-765) *)

(* The [do ... while(++a<af)] scan of STATS_QFUNC_IND.  [prev] is [*(a-1)],
   [rest] starts at [*a] and [k] is [a-r].  The scan ends with [None] when
   [a] reaches [af]. *)
Fixpoint qfunc_scan (t : gal_type) (inc : bool) (v prev : Q) (rest : list Q)
  (k : Z) : option Z :=
  match rest with
  | [] => None
  | x :: tl =>
      if (if inc then Qltb v x else Qltb x v)
      then if (if inc then Qltb (it_sub t v prev) (it_sub t x v)
               else Qltb (it_sub t prev v) (it_sub t v x))
           then Some (k - 1)%Z
           else Some k
      else qfunc_scan t inc v x tl (k + 1)
  end.

(* [invalue] is a one-element, non-blank dataset given by its value; it is
   converted to the type of the view. *)
Definition gal_statistics_quantile_function_index (input : gal_data)
  (invalue : Q) : result (option Z) :=
  let nbs := gal_statistics_no_blank_sorted input in
  let v := cast (vtype nbs) invalue in
  match varr nbs with
  | [] => Ok None
  | r :: rest =>
      if (if vinc nbs then Qle_bool r v else Qle_bool v r)
      then match rest with
           | [] => Undefined      (* [*a] is read one past a one-element array *)
           | _ => Ok (qfunc_scan (vtype nbs) (vinc nbs) v r rest 1)
           end
      else Ok None
  end.

Definition gal_statistics_quantile_function (input : gal_data) (value : Q)
  : result double :=
  let nbs := gal_statistics_no_blank_sorted input in
  ind <- gal_statistics_quantile_function_index input value ;;
  match varr nbs with
  | [] => Ok NaN
  | a0 :: rest =>
      match ind with
      | None =>
          match rest with
          | [] => Undefined       (* STATS_QFUNC reads [*(a+1)] *)
          | a1 :: _ =>
              if Qltb a0 a1
              then Ok (if Qltb value a0 then NInf else PInf)
              else Ok (if Qltb a0 value then PInf else NInf)
          end
      | Some i => Ok (of_Z i / of_Z (vsize nbs - 1))%dbl
      end
  end.

(** ** Histogram (lines 1991-2120) *)

(* A bins dataset: the bin centers and whether its status is
   GAL_STATISTICS_BINS_REGULAR. *)
Record bins_data : Type := mk_bins {
  bcenters : list Q;
  bregular : bool
}.

Inductive histogram_out : Type :=
| HistCounts (h : list Z)          (* a [size_t] array *)
| HistFraction (f : list double).  (* after conversion to [float] *)

Definition incr_at (h : list Z) (i : nat) : list Z :=
  firstn i h ++ match skipn i h with
                | [] => []
                | c :: tl => (c + 1)%Z :: tl
                end.

Section Histogram.

(* The blank sentinel of each integer type is declared in gnuastro/blank.h,
   outside the sources at hand.  The histogram reads the raw input, so an
   integer blank cell enters the comparisons as this number. *)
Variable blank_value : gal_type -> Q.

Definition cell_double (t : gal_type) (c : option Q) : double :=
  match c with
  | Some q => Fin q
  | None => if is_float t then NaN else Fin (blank_value t)
  end.

(* One turn of the loop of HISTOGRAM_TYPESET on the cell [c]. *)
Definition histogram_step (t : gal_type) (min max binwidth : double)
  (h : list Z) (c : option Q) : result (list Z) :=
  let a := cell_double t c in
  if (a >=? min)%dbl && (a <=? max)%dbl then
    h_i <- of_option (cast_size_t ((a - min) / binwidth)%dbl) ;;
    let i := (h_i - (if (h_i =? Z.of_nat (length h))%Z then 1 else 0))%Z in
    if ((0 <=? i) && (i <? Z.of_nat (length h)))%Z
    then Ok (incr_at h (Z.to_nat i))
    else Undefined                 (* a write outside the histogram *)
  else Ok h.

Fixpoint histogram_loop (t : gal_type) (min max binwidth : double)
  (h : list Z) (cells : list (option Q)) : result (list Z) :=
  match cells with
  | [] => Ok h
  | c :: tl =>
      h' <- histogram_step t min max binwidth h c ;;
      histogram_loop t min max binwidth h' tl
  end.

Definition dsum (l : list double) : double := fold_left Dbl.add l (Fin 0).

Definition dmax (init : double) (l : list double) : double :=
  fold_left (fun ref f => if (f >? ref)%dbl then f else ref) l init.

Definition gal_statistics_histogram (input : gal_data)
  (bins : option bins_data) (normalize maxone : bool)
  : result histogram_out :=
  match bins with
  | None => InvalidArgument
  | Some b =>
      let d := bcenters b in
      if (length d =? 1)%nat then InvalidArgument
      else if negb (bregular b) then InvalidArgument
      else if (length (darray input) =? 0)%nat then InvalidArgument
      else if normalize && maxone then InvalidArgument
      else
        match d with
        | d0 :: d1 :: _ =>
            let binwidth := (Fin d1 - Fin d0)%dbl in
            let min := (Fin d0 - binwidth / Fin 2)%dbl in
            let max := (Fin (last d 0) + binwidth / Fin 2)%dbl in
            h <- histogram_loop (dtype input) min max binwidth
                   (repeat 0%Z (length d)) (darray input) ;;
            let f := map of_Z h in
            let ref :=
              if maxone then dmax (Fin (- FLT_MAX)) f
              else if normalize then dsum f
              else NaN in
            if isnan ref then
              Ok (if normalize || maxone then HistFraction f else HistCounts h)
            else Ok (HistFraction (map (fun x => x / ref)%dbl f))
        | _ => Undefined           (* [d[1]] is read outside the bins *)
        end
  end.

End Histogram.

(** ** Mode (lines 913-1404)

    The loops of the estimator run on fuel.  A function that runs one has a
    result of type [bounded]: [None] when the fuel was used up before the
    code returned, and otherwise what the code does.  Running out of fuel is
    thus kept apart from [Undefined], which stands for behaviour left
    undefined by the C standard only.  The fuel each loop is given is
    enough; this is proved with the theorems. *)

Definition bounded (A : Type) : Type := option (result A).

(* A step that needs no fuel, followed by the rest. *)
Definition rbind {A B : Type} (r : result A) (k : A -> bounded B)
  : bounded B :=
  match r with
  | Ok a => k a
  | InvalidArgument => Some InvalidArgument
  | Undefined => Some Undefined
  end.

Definition bbind {A B : Type} (r : bounded A) (k : A -> bounded B)
  : bounded B :=
  match r with
  | Some r' => rbind r' k
  | None => None
  end.

Notation "x <-- e ;; k" := (rbind e (fun x => k))
  (at level 61, e at next level, right associativity).
Notation "x <~ e ;; k" := (bbind e (fun x => k))
  (at level 61, e at next level, right associativity).

(* The [float] literals of the macros, as the values they denote. *)
Definition MODE_MIN_Q : double := Eval vm_compute in to_float32 (1 # 100).
Definition MODE_MAX_Q : double := Eval vm_compute in to_float32 (55 # 100).
Definition MODE_SYM_LOW_Q : double := Eval vm_compute in to_float32 (1 # 100).
Definition MODE_GOLDEN_RATIO : double :=
  Eval vm_compute in to_float32 (1618034 # 1000000).
Definition MODE_TWO_TAKE_GR : double :=
  Eval vm_compute in to_float32 (38197 # 100000).
Definition MODE_MIRROR_ABOVE : Z := (SIZE_MOD - 1)%Z.

(* [p.tolerance = 0.01], stored in a [float]. *)
Definition MODE_TOLERANCE : double := Eval vm_compute in to_float32 (1 # 100).

Record statistics_mode_params : Type := mk_mode_params {
  data : view;
  lowi : Z;
  midi : Z;
  midd : Z;
  highi : Z;
  tolerance : double;
  numcheck : Z;
  interval : Z;
  mirrordist : double
}.

Record mode_out : Type := mk_mode_out {
  mode_value : double;
  mode_quantile : double;
  mode_symmetry : double;
  mode_symvalue : double
}.

Definition mode_all_nan : mode_out := mk_mode_out NaN NaN NaN NaN.

(* An index that cannot be blank. *)
Definition nonblank_index (r : result (option Z)) : result Z :=
  i <- r ;; of_option i.

(* The loop [for(j=prevj;j<size-m;++j)] of MIRR_MAX_DIFF and MODE_SYM, with
   its two ways of breaking; the result is the final [j]. *)
Fixpoint mirror_closest (fuel : nat) (t : gal_type) (a : list Q) (m : Z)
  (mf : Q) (j : Z) : bounded Z :=
  match fuel with
  | O => None
  | S fuel' =>
      if (j <? sz (Z.of_nat (length a) - m))%Z then
        amj <-- rd a (sz (m + j)) ;;
        if Qltb mf amj then
          amj1 <-- rd a (sz (m + j - 1)) ;;
          if Qltb (it_sub t amj mf) (it_sub t mf amj1)
          then Some (Ok j)
          else Some (Ok (sz (j - 1)))
        else mirror_closest fuel' t a m mf (sz (j + 1))
      else Some (Ok j)
  end.

(* The loop started at [prevj]: it takes at most [size-m-prevj] turns. *)
Definition mirror_closest_from (t : gal_type) (a : list Q) (m : Z) (mf : Q)
  (prevj : Z) : bounded Z :=
  mirror_closest (S (Z.to_nat (sz (Z.of_nat (length a) - m) - prevj))) t a m
    mf prevj.

Section Mode.

Variable sqrt : double -> double.

(* GAL_STATISTICS_MODE_GOOD_SYM is declared in gnuastro/statistics.h, outside
   the sources at hand. *)
Variable GAL_STATISTICS_MODE_GOOD_SYM : double.

(* [(size_t)(p->mirrordist*sqrt(m))]. *)
Definition mode_errordiff (p : statistics_mode_params) (m : Z) : result Z :=
  of_option (cast_size_t (mirrordist p * sqrt (of_Z m))%dbl).

(* The loop over [i] of mode_mirror_max_index_diff. *)
Fixpoint mirror_diff_loop (fuel : nat) (p : statistics_mode_params)
  (m errordiff i prevj maxdiff : Z) : bounded Z :=
  match fuel with
  | O => None
  | S fuel' =>
      let a := varr (data p) in
      let t := vtype (data p) in
      if ((i <? numcheck p) && (i <=? m) && (sz (m + i) <? vsize (data p)))%Z
      then
        zf <-- rd a m ;;
        ami <-- rd a (sz (m - i)) ;;
        let mf := cast t (it_mirror t zf ami) in
        j <~ mirror_closest_from t a m mf prevj ;;
        if (i >? sz (j + errordiff))%Z then Some (Ok MODE_MIRROR_ABOVE)
        else
          let absdiff := if (i >? j)%Z then sz (i - j) else sz (j - i) in
          let maxdiff' := if (absdiff >? maxdiff)%Z then absdiff else maxdiff in
          mirror_diff_loop fuel' p m errordiff (sz (i + interval p)) j maxdiff'
      else Some (Ok maxdiff)
  end.

(* [i] starts at 1, grows at every turn and stays below [numcheck]. *)
Definition mode_mirror_max_index_diff (p : statistics_mode_params) (m : Z)
  : bounded Z :=
  errordiff <-- mode_errordiff p m ;;
  mirror_diff_loop (S (Z.to_nat (numcheck p))) p m errordiff 1 0 0.

Definition set_search (p : statistics_mode_params) (lo mi md hi : Z)
  : statistics_mode_params :=
  mk_mode_params (data p) lo mi md hi (tolerance p) (numcheck p) (interval p)
    (mirrordist p).

(* The probing point [di] in the larger of the two intervals. *)
Definition mode_probe (p : statistics_mode_params) : result Z :=
  of_option (cast_size_t
    (if (sz (highi p - midi p) >? sz (midi p - lowi p))%Z
     then of_Z (midi p) + MODE_TWO_TAKE_GR * of_Z (sz (highi p - midi p))
     else of_Z (midi p) - MODE_TWO_TAKE_GR * of_Z (sz (midi p - lowi p)))%dbl).

(* The recursion of mode_golden_section, bounded by [fuel] calls. *)
Fixpoint mode_golden_section (fuel : nat) (p : statistics_mode_params)
  : bounded Z :=
  match fuel with
  | O => None
  | S fuel' =>
      let up := (sz (highi p - midi p) >? sz (midi p - lowi p))%Z in
      di <-- mode_probe p ;;
      if (of_Z (sz (highi p - lowi p)) <? tolerance p * of_Z (sz (midi p + di)))%dbl
         || (sz (highi p - lowi p) <=? 3)%Z
      then Some (Ok (sz (highi p + lowi p) / 2)%Z)
      else
        dd <~ mode_mirror_max_index_diff p di ;;
        if (dd =? MODE_MIRROR_ABOVE)%Z then
          if (midi p <? di)%Z
          then mode_golden_section fuel' (set_search p (lowi p) (midi p) (midd p) di)
          else mode_golden_section fuel' (set_search p (lowi p) di dd (midi p))
        else if (dd <? midd p)%Z then
          if up
          then mode_golden_section fuel' (set_search p (midi p) di dd (highi p))
          else mode_golden_section fuel' (set_search p (lowi p) di dd (midi p))
        else
          if up
          then mode_golden_section fuel' (set_search p (lowi p) (midi p) (midd p) di)
          else mode_golden_section fuel' (set_search p di (midi p) (midd p) (highi p))
  end.

(* The calls the search is given: every call but the first narrows the
   interval, or moves the middle point strictly inside it. *)
Definition golden_fuel (p : statistics_mode_params) : nat :=
  S (S (2 * Z.to_nat (highi p - lowi p))).

(* The loop over [i] of MODE_SYM: the index [bi], or 0 when no turn set
   it. *)
Fixpoint mode_sym_loop (fuel : nat) (p : statistics_mode_params)
  (m topi errdiff i prevj : Z) (mf : Q) : bounded Z :=
  match fuel with
  | O => None
  | S fuel' =>
      let a := varr (data p) in
      let t := vtype (data p) in
      if (i <? sz (topi - m))%Z then
        ami <-- rd a (sz (m - i)) ;;
        let fi := cast t (it_mirror t mf ami) in
        j <~ mirror_closest_from t a m fi prevj ;;
        if ((i >? sz (j + errdiff)) || (j >? sz (i + errdiff)))%Z
        then Some (Ok (sz (m + i)))
        else mode_sym_loop fuel' p m topi errdiff (sz (i + 1)) j mf
      else Some (Ok 0%Z)
  end.

(* mode_symmetricity: the returned value and the content of [b_val], which
   starts cleared and is written only on the last path.  The loop over [i]
   takes fewer than [topi-m] turns. *)
Definition mode_symmetricity (p : statistics_mode_params) (m : Z)
  : bounded (double * Q) :=
  let a := varr (data p) in
  let t := vtype (data p) in
  let size := vsize (data p) in
  let topi := if (sz (2 * m) >? sz (size - 1))%Z then sz (size - 1)
              else sz (2 * m) in
  errdiff <-- mode_errordiff p m ;;
  mf <-- rd a m ;;
  ai <-- nonblank_index
           (gal_statistics_quantile_index (sz (2 * m + 1)) MODE_SYM_LOW_Q) ;;
  af <-- rd a ai ;;
  if Qle_bool mf af then Some (Ok (Fin 0, 0))
  else
    bi0 <~ mode_sym_loop (S (Z.to_nat (sz (topi - m)))) p m topi errdiff 1 0
             mf ;;
    let bi := if (bi0 =? 0)%Z then topi else bi0 in
    bf <-- rd a bi ;;
    Some (Ok (if Qeq_bool bf af then Fin 0
              else (Fin (it_sub t bf mf) / Fin (it_sub t mf af))%dbl,
              bf)).

(* The start of gal_statistics_mode, up to the golden-section search (lines
   1338-1367): the parameters and the index of the mode. *)
Definition mode_params (nbs : view) (mirrordist : double)
  : bounded statistics_mode_params :=
  let size := vsize nbs in
  let numcheck := (size / 2)%Z in
  let interval := if (numcheck >? 1000)%Z then (numcheck / 1000)%Z else 1%Z in
  lo <-- nonblank_index (gal_statistics_quantile_index size MODE_MIN_Q) ;;
  hi <-- nonblank_index (gal_statistics_quantile_index size MODE_MAX_Q) ;;
  mi <-- of_option (cast_size_t ((of_Z hi + MODE_GOLDEN_RATIO * of_Z lo)
                                 / (Fin 1 + MODE_GOLDEN_RATIO))%dbl) ;;
  let p := mk_mode_params nbs lo mi 0 hi MODE_TOLERANCE numcheck interval
             mirrordist in
  md <~ mode_mirror_max_index_diff p mi ;;
  Some (Ok (set_search p lo mi md hi)).

(* The end of gal_statistics_mode, from the index of the mode on (lines
   1368-1391). *)
Definition mode_finish (p : statistics_mode_params) (modeindex : Z)
  : bounded mode_out :=
  v <-- rd (varr (data p)) modeindex ;;
  sb <~ mode_symmetricity p modeindex ;;
  let oa0 := Fin v in
  let oa1 := (of_Z modeindex / of_Z (vsize (data p) - 1))%dbl in
  let oa2 := fst sb in
  if (oa2 >? GAL_STATISTICS_MODE_GOOD_SYM)%dbl
  then Some (Ok (mk_mode_out oa0 oa1 oa2 (Fin (snd sb))))
  else Some (Ok mode_all_nan).

Definition gal_statistics_mode (input : gal_data) (mirrordist : double)
  : bounded mode_out :=
  if (mirrordist <=? Fin 0)%dbl then Some InvalidArgument
  else
    let nbs := gal_statistics_no_blank_sorted input in
    match varr nbs with
    | [] => Some (Ok mode_all_nan)
    | _ =>
        p <~ mode_params nbs mirrordist ;;
        modeindex <~ mode_golden_section (golden_fuel p) p ;;
        mode_finish p modeindex
    end.

End Mode.

(** ** The interval of the golden-section search *)

(* What the search assumes of its parameters. *)
Definition search_ok (p : statistics_mode_params) : Prop :=
  (0 <= lowi p)%Z /\ (lowi p <= midi p)%Z /\ (midi p <= highi p)%Z /\
  (highi p < 2 ^ 63)%Z /\
  (1 <= interval p)%Z /\ (numcheck p + interval p <= 2 ^ 64)%Z.

(* The number of calls still to come is bounded by twice the width of the
   interval, plus one while the middle point is on its border. *)
Definition search_measure (p : statistics_mode_params) : Z :=
  2 * (highi p - lowi p)
  + (if (lowi p <? midi p)%Z && (midi p <? highi p)%Z then 0 else 1).

(** ** Sigma and MAD clipping (lines 2495-2862) *)

(* The optional columns asked for in [extrastats].  The bit masks
   GAL_STATISTICS_CLIP_OUTCOL_OPTIONAL_{MEAN,STD,MAD} are declared in
   gnuastro/statistics.h, outside the sources at hand; the argument is
   modelled by the three bits the masks select. *)
Record clip_extra : Type := mk_extra {
  want_mean : bool;
  want_std : bool;
  want_mad : bool
}.

Definition no_extra : clip_extra := mk_extra false false false.

(* A line printed when [quiet] is 0: round, number, center, spread. *)
Definition clip_row : Type := (Z * Z * double * double)%type.

(* The output dataset: the columns of its [float] array by the names of the
   GAL_STATISTICS_CLIP_OUTCOL_* indices used in the file, its [status]
   field ([None] while the function has not written it) and the lines
   printed meanwhile. *)
Record clip_out : Type := mk_clip_out {
  clip_number_used : double;
  clip_mean : double;
  clip_std : double;
  clip_median : double;
  clip_mad : double;
  clip_number_clips : double;
  clip_status : option Z;
  clip_printed : list clip_row
}.

Definition clip_all_nan (status : option Z) (printed : list clip_row)
  : clip_out :=
  mk_clip_out NaN NaN NaN NaN NaN NaN status printed.

(* What one turn of the clipping loop measured and decided. *)
Record clip_round : Type := mk_round {
  r_num : Z;            (* [num] when the turn starts *)
  r_size : Z;           (* [size] when the turn starts *)
  r_center : double;
  r_spread : double;
  r_oldspread : double; (* [oldspread] when the turn starts *)
  r_stop : bool         (* the turn left the loop through [break] *)
}.

(* The variables of statistics_clip that the loop changes.  [cs_nbs_start]
   and [cs_nbs_size] are [nbs->array] (as an offset in the view) and
   [nbs->size]. *)
Record clip_state : Type := mk_cstate {
  cs_num : Z;
  cs_size : Z;
  cs_start : Z;
  cs_center : double;
  cs_spread : double;
  cs_oldspread : double;
  cs_nbs_start : Z;
  cs_nbs_size : Z
}.

Fixpoint find_first (f : Q -> bool) (l : list Q) (k : Z) : option Z :=
  match l with
  | [] => None
  | x :: tl => if f x then Some k else find_first f tl (k + 1)
  end.

(* The last index whose element satisfies [f]: the downward scan. *)
Fixpoint find_last (f : Q -> bool) (l : list Q) (k : Z) : option Z :=
  match l with
  | [] => None
  | x :: tl =>
      match find_last f tl (k + 1) with
      | Some j => Some j
      | None => if f x then Some k else None
      end
  end.

(* CLIPALL on the current range [cur]: the new [start] and [size]. *)
Definition CLIPALL (inc : bool) (cur : list Q) (center multip spread : double)
  (start size : Z) : Z * Z :=
  let lo := (center - multip * spread)%dbl in
  let hi := (center + multip * spread)%dbl in
  let a := find_first (fun x => if inc then (Fin x >? lo)%dbl
                                else (Fin x <? hi)%dbl) cur 0 in
  let b := find_last (fun x => if inc then (Fin x <? hi)%dbl
                               else (Fin x >? lo)%dbl) cur 0 in
  let apos := match a with Some k => k | None => Z.of_nat (length cur) end in
  (match a with Some k => (start + k)%Z | None => start end,
   match b with Some k => sz (k - apos + 1) | None => size end).

(* The elements [start .. start+size-1] of the view. *)
Definition subrange (arr : list Q) (start size : Z) : result (list Q) :=
  if ((0 <=? start) && (0 <=? size)
      && (start + size <=? Z.of_nat (length arr)))%Z
  then Ok (firstn (Z.to_nat size) (skipn (Z.to_nat start) arr))
  else Undefined.

Section Clip.

Variable sqrt : double -> double.

(* GAL_STATISTICS_CLIP_MAX_CONVERGE is declared in gnuastro/statistics.h,
   outside the sources at hand. *)
Variable GAL_STATISTICS_CLIP_MAX_CONVERGE : Z.

(* The checks of statistics_clip_prepare. *)
Definition statistics_clip_prepare (multip param : double) : result unit :=
  if (multip <=? Fin 0)%dbl then InvalidArgument
  else if (param <=? Fin 0)%dbl then InvalidArgument
  else if (param >=? Fin 1)%dbl && negb (ceil param =? param)%dbl
       then InvalidArgument
  else Ok tt.

Definition bytolerance (param : double) : bool :=
  if (param >=? Fin 1)%dbl then false else true.

Definition clip_maxnum (param : double) : result Z :=
  if (param >=? Fin 1)%dbl then of_option (cast_size_t param)
  else Ok GAL_STATISTICS_CLIP_MAX_CONVERGE.

(* The center and the spread of the current range. *)
Definition clip_center (t : gal_type) (cur : list Q) : double :=
  to_double (statistics_median_in_sorted_no_blank t cur).

Definition clip_spread (sig1_mad0 : bool) (t : gal_type) (inc : bool)
  (cur : list Q) : double :=
  if sig1_mad0 then gal_statistics_std sqrt cur
  else to_double (statistics_mad_in_sorted_no_blank (mk_view t cur inc)
                    (statistics_median_in_sorted_no_blank t cur)).

(* The test of lines 2774-2775. *)
Definition clip_break (param : double) (num : Z) (spread oldspread : double)
  : bool :=
  ((spread =? Fin 0)%dbl || (bytolerance param && (num >? 0)%Z))
  && ((spread =? Fin 0)%dbl || ((oldspread - spread) / spread <? param)%dbl).

(* The [while(num<maxnum && size)] loop; [fuel] is [maxnum - num].  The
   result is the list of the turns taken, in order, and the variables on
   leaving the loop. *)
Fixpoint clip_loop (fuel : nat) (nbs : view) (multip param : double)
  (sig1_mad0 : bool) (st : clip_state)
  : list clip_round * result clip_state :=
  match fuel with
  | O => ([], Ok st)
  | S fuel' =>
      if (cs_size st =? 0)%Z then ([], Ok st)
      else
        match subrange (varr nbs) (cs_start st) (cs_size st) with
        | Ok cur =>
            let center := clip_center (vtype nbs) cur in
            let spread := clip_spread sig1_mad0 (vtype nbs) (vinc nbs) cur in
            if clip_break param (cs_num st) spread (cs_oldspread st) then
              ([mk_round (cs_num st) (cs_size st) center spread
                  (cs_oldspread st) true],
               Ok (mk_cstate (cs_num st) (cs_size st) (cs_start st) center
                     spread
                     (if (spread =? Fin 0)%dbl then spread
                      else cs_oldspread st)
                     (cs_start st) (cs_size st)))
            else
              let (start', size') :=
                CLIPALL (vinc nbs) cur center multip spread
                  (cs_start st) (cs_size st) in
              let (rounds, final) :=
                clip_loop fuel' nbs multip param sig1_mad0
                  (mk_cstate (cs_num st + 1) size' start' center spread spread
                     (cs_start st) (cs_size st)) in
              (mk_round (cs_num st) (cs_size st) center spread
                 (cs_oldspread st) false :: rounds,
               final)
        | _ => ([], Undefined)      (* the range left the array *)
        end
  end.

(* statistics_clip_stats_extra on the range [cur] that [nbs] holds on
   return. *)
Definition statistics_clip_stats_extra (t : gal_type) (inc : bool)
  (cur : list Q) (oa : clip_out) (extrastats : clip_extra) : clip_out :=
  let imean := isnan (clip_mean oa) && want_mean extrastats in
  let istd := isnan (clip_std oa) && want_std extrastats in
  let imad := isnan (clip_mad oa) && want_mad extrastats in
  let mean' := if imean
               then if istd then fst (gal_statistics_mean_std sqrt cur)
                    else gal_statistics_mean cur
               else clip_mean oa in
  let std' := if istd
              then if imean then snd (gal_statistics_mean_std sqrt cur)
                   else gal_statistics_std sqrt cur
              else clip_std oa in
  let mad' := if imad
              then to_double (statistics_mad_in_sorted_no_blank
                                (mk_view t cur inc)
                                (statistics_median_in_sorted_no_blank t cur))
              else clip_mad oa in
  mk_clip_out (clip_number_used oa) mean' std' (clip_median oa) mad'
    (clip_number_clips oa) (clip_status oa) (clip_printed oa).

Definition printed_rounds (quiet : bool) (rounds : list clip_round)
  : list clip_row :=
  if quiet then []
  else map (fun r => ((r_num r + 1)%Z, r_size r, r_center r, r_spread r))
         rounds.

(* [maxnum] is set where it is declared, before the checks run. *)
Definition clip_checks (multip param : double) : result Z :=
  maxnum <- clip_maxnum param ;;
  _ <- statistics_clip_prepare multip param ;;
  Ok maxnum.

(* Lines 2816-2826: the output array once the loop is left. *)
Definition clip_result (param : double) (sig1_mad0 : bool) (maxnum : Z)
  (st : clip_state) (printed : list clip_row) : clip_out :=
  let num := cs_num st in
  if (cs_size st =? 0)%Z || (bytolerance param && (num =? maxnum)%Z)
  then clip_all_nan (Some num) printed
  else mk_clip_out (of_Z (cs_size st)) NaN
         (if sig1_mad0 then cs_spread st else NaN)
         (cs_center st)
         (if sig1_mad0 then NaN else cs_spread st)
         (of_Z num) (Some num) printed.

(* statistics_clip from the blank-free sorted view on: the turns of the loop
   and the output dataset. *)
Definition statistics_clip_view (nbs : view) (multip param : double)
  (extrastats : clip_extra) (quiet sig1_mad0 : bool)
  : list clip_round * result clip_out :=
  let t := vtype nbs in
  match clip_checks multip param with
  | Ok maxnum =>
      match varr nbs with
      | [] =>
          ([], Ok (statistics_clip_stats_extra t (vinc nbs) []
                     (clip_all_nan None []) extrastats))
      | [x] =>
          let center := to_float32 x in    (* the copy to GAL_TYPE_FLOAT32 *)
          let spread := Fin 0 in
          ([], Ok (statistics_clip_stats_extra t (vinc nbs) [x]
                     (mk_clip_out (of_Z 1) NaN
                        (if sig1_mad0 then spread else NaN)
                        center
                        (if sig1_mad0 then NaN else spread)
                        NaN None
                        (if quiet then [] else [(1, 1, NaN, Fin 0)%Z]))
                     extrastats))
      | _ =>
          let (rounds, final) :=
            clip_loop (Z.to_nat maxnum) nbs multip param sig1_mad0
              (mk_cstate 0 (vsize nbs) 0 NaN NaN NaN 0 (vsize nbs)) in
          (rounds,
           st <- final ;;
           cur <- subrange (varr nbs) (cs_nbs_start st) (cs_nbs_size st) ;;
           Ok (statistics_clip_stats_extra t (vinc nbs) cur
                 (clip_result param sig1_mad0 maxnum st
                    (printed_rounds quiet rounds))
                 extrastats))
      end
  | InvalidArgument => ([], InvalidArgument)
  | Undefined => ([], Undefined)
  end.

(* statistics_clip: the turns of the loop and the output dataset. *)
Definition statistics_clip_run (input : gal_data) (multip param : double)
  (extrastats : clip_extra) (quiet sig1_mad0 : bool)
  : list clip_round * result clip_out :=
  statistics_clip_view (gal_statistics_no_blank_sorted input) multip param
    extrastats quiet sig1_mad0.

Definition statistics_clip (input : gal_data) (multip param : double)
  (extrastats : clip_extra) (quiet sig1_mad0 : bool) : result clip_out :=
  snd (statistics_clip_run input multip param extrastats quiet sig1_mad0).

Definition gal_statistics_clip_sigma (input : gal_data)
  (multip param : double) (extrastats : clip_extra) (quiet : bool)
  : result clip_out :=
  statistics_clip input multip param extrastats quiet true.

Definition gal_statistics_clip_mad (input : gal_data)
  (multip param : double) (extrastats : clip_extra) (quiet : bool)
  : result clip_out :=
  statistics_clip input multip param extrastats quiet false.

End Clip.

(** ** Outlier by distance (lines 2869-2979) *)

Fixpoint mapM {A B : Type} (f : A -> result B) (l : list A)
  : result (list B) :=
  match l with
  | [] => Ok []
  | x :: tl => y <- f x ;; ys <- mapM f tl ;; Ok (y :: ys)
  end.

Section Outlier.

Variable sqrt : double -> double.
Variable GAL_STATISTICS_CLIP_MAX_CONVERGE : Z.

(* [clipflags] is initialised with GAL_STATISTICS_CLIP_OUTCOL_STD; what the
   three masks of statistics_clip_stats_extra select in that constant is
   fixed by gnuastro/statistics.h, outside the sources at hand. *)
Variable clipflags : clip_extra.

(* The distances [darr[0 .. wtakeone-1]] of the window at [i]. *)
Definition outlier_window (pos1_neg0 : bool) (t : gal_type) (arr : list Q)
  (window_size i : Z) : result (list Q) :=
  mapM (fun n =>
          let j := Z.of_nat n in
          if pos1_neg0 then
            x <- rd arr (sz (i - window_size + j + 1)) ;;
            y <- rd arr (sz (i - window_size + j)) ;;
            Ok (it_sub t x y)
          else
            x <- rd arr (sz (i + window_size - j + 1)) ;;
            y <- rd arr (sz (i + window_size - j)) ;;
            Ok (it_sub t x y))
       (seq 0 (Z.to_nat (window_size - 1))).

(* The test of lines 2898-2900 on the clip output [sarr], a [float] array:
   the two columns are read as the float32 values stored in them. *)
Definition outlier_test (gap : Q) (sigma : double) (sarr : clip_out) : bool :=
  (Fin gap - f32 (clip_median sarr) >? sigma * f32 (clip_std sarr))%dbl.

(* gal_statistics_no_blank_sorted on [dist], the float64 dataset that holds
   the distances of every window.  gal_statistics_is_sorted writes the order
   it finds into the flags of [dist] itself and trusts them at the next
   call, so the order found in the first window is taken for every later
   one: [flag] is that order, [None] before the first call.  The result is
   the view the clip works on (the array as it is when it passes for
   sorted, a sorted copy otherwise) and the flags afterwards.  The
   distances are finite, so there is no blank to remove. *)
Definition dist_view (flag : option is_sorted_return) (darr : list Q)
  : view * option is_sorted_return :=
  let order := match flag with
               | Some o => o
               | None => gal_statistics_is_sorted darr
               end in
  (match order with
   | STATISTICS_IS_SORTED_INCREASING => mk_view GAL_TYPE_FLOAT64 darr true
   | STATISTICS_IS_SORTED_DECREASING => mk_view GAL_TYPE_FLOAT64 darr false
   | STATISTICS_IS_SORTED_NOT =>
       mk_view GAL_TYPE_FLOAT64 (gal_statistics_sort_increasing darr) true
   end,
   Some order).

(* gal_statistics_clip_mad on [dist], quiet, with the flags [flag]. *)
Definition outlier_clip (sigclip_multip sigclip_param : double)
  (flag : option is_sorted_return) (darr : list Q) : result clip_out :=
  snd (statistics_clip_view sqrt GAL_STATISTICS_CLIP_MAX_CONVERGE
         (fst (dist_view flag darr)) sigclip_multip sigclip_param clipflags
         true false).

(* The loop of OUTLIER_BYTYPE from position [i] on; [flag] is the order
   cached in [dist]. *)
Fixpoint outlier_loop (fuel : nat) (pos1_neg0 : bool) (t : gal_type)
  (arr : list Q) (window_size : Z) (sigma sigclip_multip sigclip_param : double)
  (flag : option is_sorted_return) (i : Z) : result (option Q) :=
  match fuel with
  | O => Undefined
  | S fuel' =>
      if ((i <? Z.of_nat (length arr)) && negb (i =? 0))%Z then
        darr <- outlier_window pos1_neg0 t arr window_size i ;;
        sarr <- outlier_clip sigclip_multip sigclip_param flag darr ;;
        ai <- rd arr i ;;
        ai1 <- rd arr (sz (i - 1)) ;;
        if outlier_test (it_sub t ai ai1) sigma sarr then Ok (Some ai1)
        else outlier_loop fuel' pos1_neg0 t arr window_size sigma
               sigclip_multip sigclip_param (snd (dist_view flag darr))
               (if pos1_neg0 then sz (i + 1) else sz (i - 1))
      else Ok None
  end.

(* The result is the one-element dataset holding the outlier, or [None]
   for the NULL pointer.  [dist] is allocated with its flags cleared. *)
Definition gal_statistics_outlier_bydistance (pos1_neg0 : bool)
  (input : gal_data) (window_size : Z)
  (sigma sigclip_multip sigclip_param : double) : result (option Q) :=
  let nbs := gal_statistics_no_blank_sorted input in
  match varr nbs with
  | [] => Ok None
  | arr =>
      if (window_size >? 2)%Z
      then outlier_loop (S (length arr)) pos1_neg0 (vtype nbs) arr window_size
             sigma sigclip_multip sigclip_param None window_size
      else Ok None
  end.

End Outlier.

(** ** The shape of a clipping run

    [rounds_from nbs multip param sig1_mad0 num old l] holds when [l] is a
    list of turns the loop can take from a state where [num] turns are done
    and [oldspread] is [old]: each turn measures the center and the spread
    of a range of the view, decides by the test of lines 2774-2775, and
    only the last turn may stop. *)

Section ClipRounds.

Variable sqrt : double -> double.
Variables (nbs : view) (multip param : double) (sig1_mad0 : bool).

Definition round_measures (r : clip_round) : Prop :=
  exists start cur,
    subrange (varr nbs) start (r_size r) = Ok cur /\
    r_center r = clip_center (vtype nbs) cur /\
    r_spread r = clip_spread sqrt sig1_mad0 (vtype nbs) (vinc nbs) cur.

Inductive rounds_from : Z -> double -> list clip_round -> Prop :=
| rounds_done (num : Z) (old : double) : rounds_from num old []
| rounds_stop (num : Z) (old : double) (r : clip_round) :
    r_num r = num -> r_oldspread r = old -> round_measures r ->
    r_stop r = true ->
    clip_break param num (r_spread r) old = true ->
    rounds_from num old [r]
| rounds_step (num : Z) (old : double) (r : clip_round)
    (rest : list clip_round) :
    r_num r = num -> r_oldspread r = old -> round_measures r ->
    r_stop r = false ->
    clip_break param num (r_spread r) old = false ->
    rounds_from (num + 1) (r_spread r) rest ->
    rounds_from num old (r :: rest).

End ClipRounds.

(* The stop rule of the clipping loop in the words of its description:
   the spread of the turn is zero, or the run is by tolerance, a turn has
   been completed before and the relative change is below the parameter. *)
Definition stop_rule (param : double) (r : clip_round) : Prop :=
  (r_spread r =? Fin 0)%dbl = true \/
  ((param <? Fin 1)%dbl = true /\ (0 < r_num r)%Z /\
   ((r_oldspread r - r_spread r) / r_spread r <? param)%dbl = true).

(* The spread of the turn is larger than the one of the turn before. *)
Definition spread_grew (r : clip_round) : Prop :=
  exists o s, r_oldspread r = Fin o /\ r_spread r = Fin s /\ 0 <= o /\ o < s.

(** ** Instances used by the examples

    A stand-in for the [sqrt] of the C library: the square root rounded
    down to six decimals, exact on the squares of such numbers. *)

Definition sqrt_example (x : double) : double :=
  match x with
  | Fin q =>
      if Qltb q 0 then NaN
      else Fin (Qred (Z.sqrt (Qfloor (q * inject_Z (10 ^ 12))) # 10 ^ 6))
  | NInf => NaN
  | _ => x
  end.

(** ** The invariant of the histogram

    Regular bins: centers with a uniform positive spacing.  The range of
    the histogram goes from half a bin below the first center to half a bin
    above the last one. *)

Definition uniform_centers (d : list Q) (binwidth : Q) : Prop :=
  0 < binwidth /\
  forall i, (i < length d)%nat ->
            nth i d 0 == nth 0 d 0 + inject_Z (Z.of_nat i) * binwidth.

Definition Zsum (h : list Z) : Z := fold_right Z.add 0%Z h.

Section HistogramRange.

Variable blank_value : gal_type -> Q.

(* The cell passes the test [*a>=min && *a<=max]. *)
Definition in_range (t : gal_type) (min max : Q) (c : option Q) : bool :=
  (cell_double blank_value t c >=? Fin min)%dbl
  && (cell_double blank_value t c <=? Fin max)%dbl.

Definition count_in_range (t : gal_type) (min max : Q)
  (cells : list (option Q)) : Z :=
  Z.of_nat (length (filter (in_range t min max) cells)).

End HistogramRange.

(** ** The scale point of the mode

    The value at the index of the mode and the value at the low quantile of
    the interval [0, 2m] that MODE_SYM compares it with. *)

Definition mode_scale_point (p : statistics_mode_params) (m : Z)
  : result (Q * Q) :=
  mf <- rd (varr (data p)) m ;;
  ai <- nonblank_index
          (gal_statistics_quantile_index (sz (2 * m + 1)) MODE_SYM_LOW_Q) ;;
  af <- rd (varr (data p)) ai ;;
  Ok (mf, af).

(** ** Specifications in the words of the description *)

(* A view without duplicate values, in increasing order. *)
Fixpoint strictly_increasing (l : list Q) : Prop :=
  match l with
  | x :: (y :: _) as tl => x < y /\ strictly_increasing tl
  | _ => True
  end.

Section OutlierSpec.

Variable sqrt : double -> double.
Variable GAL_STATISTICS_CLIP_MAX_CONVERGE : Z.
Variable clipflags : clip_extra.
Variables (t : gal_type) (arr : list Q) (window_size : nat).
Variables (sigma sigclip_multip sigclip_param : double).

(* The gaps between the [window_size] sorted values that end just before
   position [i]. *)
Definition window_gaps (i : nat) : list Q :=
  map (fun j => it_sub t (nth (i - window_size + j + 1) arr 0)
                         (nth (i - window_size + j) arr 0))
      (seq 0 (window_size - 1)).

(* The order in which the gaps of the first window, the one at
   [window_size], are found. *)
Definition first_order : is_sorted_return :=
  gal_statistics_is_sorted (window_gaps window_size).

(* The gap at [i] exceeds the MAD-clipped baseline of its window: the
   median plus [sigma] times the standard deviation.  The gaps of the window
   are clipped as gaps in the order of the first window. *)
Definition jump_at (i : nat) : result bool :=
  sarr <- outlier_clip sqrt GAL_STATISTICS_CLIP_MAX_CONVERGE clipflags
            sigclip_multip sigclip_param (Some first_order) (window_gaps i) ;;
  Ok (outlier_test (it_sub t (nth i arr 0) (nth (i - 1) arr 0)) sigma sarr).

(* The element just before the first of the positions at which the gap
   jumps; none when the positions are exhausted. *)
Fixpoint first_jump (positions : list nat) : result (option Q) :=
  match positions with
  | [] => Ok None
  | i :: tl =>
      b <- jump_at i ;;
      if b then Ok (Some (nth (i - 1) arr 0)) else first_jump tl
  end.

End OutlierSpec.

(** * Further functions of statistics.c *)

(** ** Minimum and maximum (lines 83-137)

    GAL_TILE_PARSE_OPERATE (gnuastro/tile.h) visits the non-blank elements
    of the input, and [gal_type_max] and [gal_type_min] (type.c) write the
    largest and the smallest value of a type.  Both are outside the sources
    at hand: the loop is a fold over the non-blank elements and the two
    limits are parameters.  The result is the blank value ([None]) when no
    element was visited. *)

Section MinMax.

Variables type_max type_min : gal_type -> Q.

Definition gal_statistics_minimum (input : gal_data) : option Q :=
  match gal_blank_remove (darray input) with
  | [] => None
  | l => Some (fold_left (fun o i => if Qltb i o then i else o) l
                 (type_max (dtype input)))
  end.

Definition gal_statistics_maximum (input : gal_data) : option Q :=
  match gal_blank_remove (darray input) with
  | [] => None
  | l => Some (fold_left (fun o i => if Qltb o i then i else o) l
                 (type_min (dtype input)))
  end.

(** ** Regular bins (lines 1847-1978)

    [inrange] is the array of the range dataset read as float64, empty when
    the pointer is NULL; [numbins] is a [size_t].  The result is the array
    of bin centers ([None] for the NULL pointer); its status is always
    GAL_STATISTICS_BINS_REGULAR.  The conversion of a blank minimum or
    maximum to float64 gives NaN. *)

(* [b[i] = min + i*binwidth + hbw] for [i] below [numbins].  The width, the
   centers, the edges that the search compares with [onebinstart] and the
   shift are exact here, where the code rounds each to binary64. *)
Definition bin_centers (min binwidth hbw : double) (numbins : nat)
  : list double :=
  map (fun i => (min + of_Z (Z.of_nat i) * binwidth + hbw)%dbl)
      (seq 0 numbins).

(* The same center when the three values are finite. *)
Definition center_value (min binwidth hbw : Q) (i : nat) : Q :=
  Qred (Qred (min + Qred (inject_Z (Z.of_nat i) * binwidth)) + hbw).

(* The search for the bin that [onebinstart] falls in: [b[i]] for the first
   [i < numbins-1] with [b[i]-hbw < onebinstart] and
   [b[i+1]-hbw > onebinstart]; [None] when the loop ends with
   [i == numbins-1]. *)
Fixpoint onebin_search (hbw onebinstart : double) (b : list double)
  : option double :=
  match b with
  | x :: (y :: _) as tl =>
      if ((x - hbw <? onebinstart) && (y - hbw >? onebinstart))%dbl
      then Some x
      else onebin_search hbw onebinstart tl
  | _ => None
  end.

Definition regular_bins_range (input : gal_data) (inrange : list double)
  : result (double * double) :=
  match inrange with
  | [] => Ok (to_double (gal_statistics_minimum input),
              to_double (gal_statistics_maximum input))
  | _ =>
      if Nat.odd (length inrange) then InvalidArgument
      else
        match inrange with
        | r0 :: r1 :: _ =>
            Ok (if isnan r0 then to_double (gal_statistics_minimum input)
                else r0,
                if isnan r1 then to_double (gal_statistics_maximum input)
                else r1)
        | _ => Undefined
        end
  end.

Definition gal_statistics_regular_bins (input : gal_data)
  (inrange : list double) (numbins : Z) (onebinstart : double)
  : result (option (list double)) :=
  if (numbins =? 0)%Z then InvalidArgument
  else if (length (darray input) =? 0)%nat then Ok None
  else
    range <- regular_bins_range input inrange ;;
    let min := fst range in
    let max := snd range in
    let binwidth := ((max - min) / of_Z numbins)%dbl in
    let hbw := (binwidth / Fin 2)%dbl in
    let b := bin_centers min binwidth hbw (Z.to_nat numbins) in
    if isnan onebinstart then Ok (Some b)
    else
      match onebin_search hbw onebinstart b with
      | Some bi =>
          let diff := (onebinstart - (bi - hbw))%dbl in
          Ok (Some (map (fun x => x + diff)%dbl b))
      | None => Ok (Some b)
      end.

End MinMax.

(** ** Cumulative frequency plot (lines 2282-2375)

    [next] is [bins->next]: the histogram handed in by the caller, if any.
    The plot has one element per bin; a histogram shorter than the bins is
    read outside its array. *)

(* The running sum [sums] added to each histogram cell and stored in a
   cleared [size_t] array. *)
Fixpoint cfp_counts (sums : Z) (h : list Z) : list Z :=
  match h with
  | [] => []
  | c :: tl => let s := sz (c + sums) in s :: cfp_counts s tl
  end.

(* The same on a cleared [float] array. *)
Fixpoint cfp_fractions (sum : double) (h : list double) : list double :=
  match h with
  | [] => []
  | c :: tl => let s := (Fin 0 + (c + sum))%dbl in s :: cfp_fractions s tl
  end.

Section Cfp.

Variable blank_value : gal_type -> Q.

Definition gal_statistics_cfp (input : gal_data) (bins : bins_data)
  (next : option histogram_out) (normalize : bool) : result histogram_out :=
  if negb (bregular bins) then InvalidArgument
  else if (length (darray input) =? 0)%nat then InvalidArgument
  else
    hist0 <- match next with
             | Some h => Ok h
             | None => gal_statistics_histogram blank_value input (Some bins)
                         false false
             end ;;
    hist <- match hist0 with
            | HistFraction f =>
                match f with
                | [] => Undefined    (* [*f] is read in an empty array *)
                | _ => if negb (dsum f =? Fin 1)%dbl
                       then gal_statistics_histogram blank_value input
                              (Some bins) false false
                       else Ok hist0
                end
            | HistCounts _ => Ok hist0
            end ;;
    let n := length (bcenters bins) in
    match hist with
    | HistCounts h =>
        if (n =? 0)%nat || (length h <? n)%nat then Undefined
        else
          let c := cfp_counts 0 (firstn n h) in
          if normalize
          then let sums := sz (Zsum h) in
               Ok (HistFraction (map (fun x => of_Z x / of_Z sums)%dbl c))
          else Ok (HistCounts c)
    | HistFraction f =>
        if (n =? 0)%nat || (length f <? n)%nat then Undefined
        else Ok (HistFraction (cfp_fractions (Fin 0) (firstn n f)))
    end.

End Cfp.

(** ** Unique elements (lines 767-823)

    [inplace] selects whether the caller's buffer is the one changed; the
    returned dataset is the same, so the argument does not appear.
    [gal_blank_remove_realloc] is outside the sources at hand: it leaves the
    non-blank cells, in order. *)

(* The inner loop of UNIQUE_BYTYPE for [a[i] = c]: every later cell equal
   to a non-blank [c] becomes blank. *)
Definition unique_blank_copies (c : option Q) (rest : list (option Q))
  : list (option Q) :=
  match c with
  | Some x =>
      map (fun c' => match c' with
                     | Some y => if Qeq_bool x y then None else c'
                     | None => None
                     end) rest
  | None => rest
  end.

(* The outer loop: [n] turns from the head of [l]. *)
Fixpoint unique_mark (n : nat) (l : list (option Q)) : list (option Q) :=
  match n, l with
  | S n', c :: tl => c :: unique_mark n' (unique_blank_copies c tl)
  | _, _ => l
  end.

Definition gal_statistics_unique (input : gal_data) : gal_data :=
  data_of (dtype input)
    (gal_blank_remove (unique_mark (length (darray input)) (darray input))).

(** ** The mirror distribution (lines 1406-1450) *)

(* STATS_MKMIRROR: the elements up to [index], then their reflections
   [2*zf - m[index-i]] for [i] from 1 to [index], stored in the element
   type (exactly for the two floating types, where the code rounds and can
   overflow).  The second component is [*mirror_val]. *)
Definition statistics_make_mirror (noblank_sorted : view) (index : Z)
  : result (list Q * double) :=
  if (index >=? vsize noblank_sorted)%Z then InvalidArgument
  else if (index <? 0)%Z then Undefined
  else
    let t := vtype noblank_sorted in
    let a := varr noblank_sorted in
    let idx := Z.to_nat index in
    let zf := nth idx a 0 in
    let m := firstn (S idx) a in
    Ok (m ++ map (fun i => cast t (it_mirror t zf (nth (idx - i) m 0)))
                 (seq 1 idx),
        Fin zf).

(** ** Concentration (lines 2381-2471)

    The test [input->type!=GAL_TYPE_FLOAT32 || input->type!=GAL_TYPE_FLOAT64]
    holds for every type, so the sorted data are always copied to a
    [float] array and the caller's array is left alone; the conversion is
    exact in this model.  The scaled array holds doubles of the model, as a
    division by zero makes them infinite or NaN. *)

(* Reading [a[i]] in an array of floating values. *)
Definition rd_double (a : list double) (i : Z) : result double :=
  if (i <? 0)%Z then Undefined else of_option (nth_error a (Z.to_nat i)).

Definition gal_statistics_concentration (input : gal_data) (q_width : double)
  : result double :=
  let nbs := gal_statistics_no_blank_sorted input in
  if (vsize nbs <=? 1)%Z then Ok NaN
  else
    ilow <- nonblank_index
              (gal_statistics_quantile_index (vsize nbs)
                 (Fin (1 # 2) - q_width / Fin 2)%dbl) ;;
    ihigh <- nonblank_index
               (gal_statistics_quantile_index (vsize nbs)
                  (Fin (1 # 2) + q_width / Fin 2)%dbl) ;;
    let a := map Fin (varr nbs) in
    min <- rd_double a 1 ;;
    max <- rd_double a (vsize nbs - 2) ;;
    let scaled := map (fun x => (x - min) / (max - min))%dbl a in
    vhigh <- rd_double scaled ihigh ;;
    vlow <- rd_double scaled ilow ;;
    Ok (q_width / (vhigh - vlow))%dbl.

(** ** The range of the clipping loop

    The current range [start .. start+size-1] lies in the view. *)

Definition clip_state_in_range (nbs : view) (st : clip_state) : Prop :=
  (0 <= cs_start st)%Z /\ (0 <= cs_size st)%Z /\
  (cs_start st + cs_size st <= vsize nbs)%Z.

(** * Properties *)

(** ** Comparisons and truncation *)

Lemma Qltb_lt (a b : Q) : Qltb a b = true <-> a < b.
Proof.
  unfold Qltb. rewrite negb_true_iff.
  split; intro H.
  - apply Qnot_le_lt. intro L. apply Qle_bool_iff in L. congruence.
  - destruct (Qle_bool b a) eqn:E; [|reflexivity].
    apply Qle_bool_iff in E. apply Qle_not_lt in E. contradiction.
Qed.

Lemma Qltb_ge (a b : Q) : Qltb a b = false <-> b <= a.
Proof.
  unfold Qltb. rewrite negb_false_iff. apply Qle_bool_iff.
Qed.

Lemma ltb_Fin (a b : Q) : (Fin a <? Fin b)%dbl = Qltb a b.
Proof. reflexivity. Qed.

Lemma gtb_Fin (a b : Q) : (Fin a >? Fin b)%dbl = Qltb b a.
Proof. reflexivity. Qed.

Lemma leb_Fin (a b : Q) : (Fin a <=? Fin b)%dbl = Qle_bool a b.
Proof. reflexivity. Qed.

Lemma geb_Fin (a b : Q) : (Fin a >=? Fin b)%dbl = Qle_bool b a.
Proof. reflexivity. Qed.

Lemma Qle_bool_false (a b : Q) : Qle_bool a b = false <-> b < a.
Proof.
  split; intro H.
  - apply Qnot_le_lt. intro L. apply Qle_bool_iff in L. congruence.
  - destruct (Qle_bool a b) eqn:E; [|reflexivity].
    apply Qle_bool_iff in E. apply Qle_not_lt in E. contradiction.
Qed.

Lemma Qtrunc_nonneg (q : Q) : 0 <= q -> Qtrunc q = Qfloor q.
Proof.
  destruct q as [n d]. unfold Qle, Qtrunc, Qfloor. simpl. intro H.
  apply Z.quot_div_nonneg; lia.
Qed.

Lemma Qtrunc_inject_Z (z : Z) : Qtrunc (inject_Z z) = z.
Proof. unfold Qtrunc. simpl. apply Z.quot_1_r. Qed.

Lemma Qtrunc_comp_nonneg (p q : Q) : p == q -> 0 <= q -> Qtrunc p = Qtrunc q.
Proof.
  intros E H. rewrite !Qtrunc_nonneg by (rewrite ?E; assumption).
  now rewrite E.
Qed.

Lemma Qfloor_bounds (q : Q) (z : Z) :
  inject_Z z <= q -> q < inject_Z (z + 1) -> Qfloor q = z.
Proof.
  intros L U.
  assert (A : (z <= Qfloor q)%Z).
  { rewrite <- (Qfloor_Z z). now apply Qfloor_resp_le. }
  assert (B : (Qfloor q < z + 1)%Z).
  { rewrite Zlt_Qlt. eapply Qle_lt_trans; [apply Qfloor_le | exact U]. }
  lia.
Qed.

(** ** Quantile index *)

(** C2 (evaluation at the failing input).  For [size = 2^31 + 1] and
    [quantile = 1] the float index is [2^31], which the cast [(int)floatindex]
    cannot hold: the behaviour is undefined, and no index [floor(floatindex)]
    is produced. *)
Theorem quantile_index_int_cast_overflow :
  gal_statistics_quantile_index 2147483649 (Fin 1) = Undefined.
Proof. vm_compute. reflexivity. Qed.

(* While the float index fits an [int] the rounding rule is the stated one:
   the ceiling when the fractional part exceeds one half, the floor
   otherwise. *)
Lemma quantile_index_within_int (size : Z) (q : Q) :
  (1 <= size)%Z -> 0 <= q -> q <= 1 ->
  inject_Z (size - 1) * q < inject_Z (2 ^ 31) ->
  let floatindex := inject_Z (size - 1) * q in
  gal_statistics_quantile_index size (Fin q) =
  Ok (Some (if Qltb (1 # 2) (floatindex - inject_Z (Qfloor floatindex))
            then Qceiling floatindex else Qfloor floatindex)).
Proof.
  intros Hs Hq0 Hq1 Hlt fi.
  unfold gal_statistics_quantile_index.
  destruct (size =? 0)%Z eqn:E0; [apply Z.eqb_eq in E0; lia|].
  rewrite ltb_Fin, gtb_Fin.
  assert (L0 : Qltb q 0 = false) by (now apply Qltb_ge).
  assert (L1 : Qltb 1 q = false) by (now apply Qltb_ge).
  rewrite L0, L1. cbn [orb].
  assert (Hfi0 : 0 <= fi).
  { unfold fi. apply Qmult_le_0_compat; [|assumption].
    change 0 with (inject_Z 0). rewrite <- Zle_Qle. lia. }
  unfold of_Z. cbn [Dbl.mul].
  fold fi. change (fi < inject_Z (2 ^ 31)) in Hlt. clearbody fi.
  assert (Hred : Qred fi == fi) by apply Qred_correct.
  assert (Ht : Qtrunc (Qred fi) = Qfloor fi).
  { rewrite Qtrunc_nonneg by (rewrite Hred; assumption). now rewrite Hred. }
  assert (Hfl0 : (0 <= Qfloor fi)%Z).
  { rewrite <- (Qfloor_Z 0). now apply Qfloor_resp_le. }
  assert (Hfl1 : (Qfloor fi < 2 ^ 31)%Z).
  { rewrite Zlt_Qlt. eapply Qle_lt_trans; [apply Qfloor_le | exact Hlt]. }
  unfold cast_int. rewrite Ht.
  replace ((- 2 ^ 31 <=? Qfloor fi) && (Qfloor fi <? 2 ^ 31))%Z with true
    by (symmetry; apply andb_true_iff; split;
        [apply Z.leb_le | apply Z.ltb_lt]; lia).
  cbn [of_option bind].
  unfold Dbl.sub. cbn [Dbl.neg Dbl.add]. rewrite gtb_Fin.
  set (frac := Qred (Qred fi + Qred (- inject_Z (Qfloor fi)))).
  assert (Hfrac : frac == fi - inject_Z (Qfloor fi)).
  { unfold frac. rewrite !Qred_correct. reflexivity. }
  assert (Hsame : Qltb (1 # 2) frac
                  = Qltb (1 # 2) (fi - inject_Z (Qfloor fi))).
  { destruct (Qltb (1 # 2) (fi - inject_Z (Qfloor fi))) eqn:E.
    - apply Qltb_lt. apply Qltb_lt in E. now rewrite Hfrac.
    - apply Qltb_ge. apply Qltb_ge in E. now rewrite Hfrac. }
  rewrite Hsame.
  destruct (Qltb (1 # 2) (fi - inject_Z (Qfloor fi))) eqn:E.
  - (* the fractional part exceeds one half: [floatindex + 1] truncates to
       the ceiling *)
    apply Qltb_lt in E.
    assert (Hc : Qceiling fi = (Qfloor fi + 1)%Z).
    { assert (A := Qle_floor_ceiling fi).
      assert (B : (Qceiling fi - 1 < Qfloor fi + 1)%Z).
      { rewrite Zlt_Qlt. eapply Qlt_trans; [apply Qceiling_lt | apply Qlt_floor]. }
      assert (C : (Qfloor fi < Qceiling fi)%Z).
      { rewrite Zlt_Qlt. eapply Qlt_le_trans; [|apply Qle_ceiling].
        lra. }
      lia. }
    unfold cast_size_t.
    assert (Ht1 : Qtrunc (Qred (Qred fi + 1)) = (Qfloor fi + 1)%Z).
    { rewrite Qtrunc_nonneg by (rewrite !Qred_correct; lra).
      apply Qfloor_bounds.
      - rewrite !Qred_correct. rewrite inject_Z_plus.
        assert (A := Qfloor_le fi). change (inject_Z 1) with 1. lra.
      - rewrite !Qred_correct. rewrite !inject_Z_plus.
        assert (A := Qlt_floor fi). rewrite inject_Z_plus in A.
        change (inject_Z 1) with 1 in *. lra. }
    rewrite Ht1.
    replace ((0 <=? Qfloor fi + 1) && (Qfloor fi + 1 <? 2 ^ 64))%Z with true
      by (symmetry; apply andb_true_iff; split;
          [apply Z.leb_le | apply Z.ltb_lt]; lia).
    cbn [of_option bind]. now rewrite Hc.
  - unfold cast_size_t. rewrite Ht.
    replace ((0 <=? Qfloor fi) && (Qfloor fi <? 2 ^ 64))%Z with true
      by (symmetry; apply andb_true_iff; split;
          [apply Z.leb_le | apply Z.ltb_lt]; lia).
    reflexivity.
Qed.

(* Rounding to the nearest position, half-way cases going down. *)
Lemma round_half_down_near (x : Q) :
  let i := if Qltb (1 # 2) (x - inject_Z (Qfloor x))
           then Qceiling x else Qfloor x in
  inject_Z i - (1 # 2) < x /\ x <= inject_Z i + (1 # 2).
Proof.
  cbn zeta.
  assert (A := Qfloor_le x). assert (B := Qlt_floor x).
  rewrite inject_Z_plus in B. change (inject_Z 1) with 1 in B.
  destruct (Qltb (1 # 2) (x - inject_Z (Qfloor x))) eqn:E.
  - apply Qltb_lt in E.
    assert (C := Qle_ceiling x). assert (D := Qceiling_lt x).
    assert (Hc : Qceiling x = (Qfloor x + 1)%Z).
    { assert (F : (Qceiling x - 1 < Qfloor x + 1)%Z).
      { rewrite Zlt_Qlt. eapply Qlt_trans; [apply Qceiling_lt | apply Qlt_floor]. }
      assert (G : (Qfloor x < Qceiling x)%Z).
      { rewrite Zlt_Qlt. eapply Qlt_le_trans; [|apply Qle_ceiling]. lra. }
      lia. }
    rewrite Hc, inject_Z_plus. change (inject_Z 1) with 1. lra.
  - apply Qltb_ge in E. lra.
Qed.

Lemma float_index_bounds (size : Z) (q : Q) :
  (1 <= size)%Z -> 0 <= q -> q <= 1 ->
  0 <= inject_Z (size - 1) * q /\
  inject_Z (size - 1) * q <= inject_Z (size - 1).
Proof.
  intros Hs H0 H1.
  assert (Hn : 0 <= inject_Z (size - 1)).
  { change 0 with (inject_Z 0). rewrite <- Zle_Qle. lia. }
  split.
  - now apply Qmult_le_0_compat.
  - rewrite <- (Qmult_1_r (inject_Z (size - 1))) at 2.
    rewrite !(Qmult_comm (inject_Z (size - 1))).
    now apply Qmult_le_compat_r.
Qed.

(* [size_t] arithmetic that does not wrap around. *)
Lemma sz_small (z : Z) : (0 <= z < 2 ^ 64)%Z -> sz z = z.
Proof. intro H. unfold sz, SIZE_MOD. now apply Z.mod_small. Qed.

Lemma sz_bounds (z : Z) : (0 <= sz z < 2 ^ 64)%Z.
Proof. unfold sz, SIZE_MOD. apply Z.mod_pos_bound. lia. Qed.

(** ** Median *)

(** C7 (counterexample).  On the unsigned 8-bit type the median of
    [1,2,3,4] is [(3+2)/2] in integer arithmetic, that is 2 and not 2.5, and
    the dataset returned has the integer type of the input. *)
Lemma median_uint8_even_is_truncated :
  let out := gal_statistics_median (data_of GAL_TYPE_UINT8 [1; 2; 3; 4]) in
  scalar out = Some 2 /\ ~ 2 == 5 # 2 /\ is_float (dtype out) = false.
Proof.
  vm_compute. repeat split; try reflexivity. intro H. discriminate H.
Qed.

(** C7 (amended).  For each of the ten element types the median of
    [1,2,3,4,5] is 3; the median of [1,2,3,4] is 2.5 for the two floating
    types and 2 for the eight integer types, where the mean of the two
    middle elements is taken by integer division; in every case the result
    is a one-element dataset of the type of the input. *)
Theorem median_of_small_samples (t : gal_type) :
  let odd := gal_statistics_median (data_of t [1; 2; 3; 4; 5]) in
  let even := gal_statistics_median (data_of t [1; 2; 3; 4]) in
  dtype odd = t /\ scalar odd = Some 3 /\
  dtype even = t /\ scalar even = Some (if is_float t then 5 # 2 else 2).
Proof.
  destruct t; vm_compute; repeat split; reflexivity.
Qed.

(* The even-size median of a floating view is the mean of the two middle
   elements. *)
Lemma median_even_float (t : gal_type) (a : list Q) :
  is_float t = true -> a <> [] -> Nat.odd (length a) = false ->
  exists m, statistics_median_in_sorted_no_blank t a = Some m /\
            m == (nth (length a / 2) a 0 + nth (length a / 2 - 1) a 0) / 2.
Proof.
  intros Hf Hne Hodd. unfold statistics_median_in_sorted_no_blank.
  destruct a as [|x tl]; [congruence|].
  cbn [length]. cbn [length] in Hodd. rewrite Hodd.
  eexists. split; [reflexivity|].
  assert (Hp : is_float (promote t) = true) by (destruct t; auto; discriminate).
  unfold cast, it_half, it_add, cast. rewrite Hf, Hp.
  rewrite !Qred_correct. reflexivity.
Qed.

(* The even-size median of an integer view is the truncated half of the
   sum as the promoted type holds it, reduced to the element type. *)
Lemma median_even_integer (t : gal_type) (a : list Q) :
  is_float t = false -> a <> [] -> Nat.odd (length a) = false ->
  statistics_median_in_sorted_no_blank t a =
  Some (inject_Z
          (wrap t (Z.quot
                     (wrap (promote t)
                        (Qtrunc (nth (length a / 2) a 0
                                 + nth (length a / 2 - 1) a 0))) 2))).
Proof.
  intros Hf Hne Hodd. unfold statistics_median_in_sorted_no_blank.
  destruct a as [|x tl]; [congruence|].
  cbn [length]. cbn [length] in Hodd. rewrite Hodd.
  assert (Hp : is_float (promote t) = false) by (destruct t; auto; discriminate).
  unfold cast, it_half, it_add, cast. rewrite Hf, Hp.
  now rewrite !Qtrunc_inject_Z.
Qed.

(** ** Quantile and quantile function *)

(** C8 (evaluation at the failing input).  On the strictly increasing view
    [1,2] the quantile 0.75 has index 1 and value 2, the largest element;
    the scan of the quantile function runs off the end of the array for that
    probe, the index comes back blank, and the quantile function returns
    plus infinity instead of [1/(2-1)]. *)
Theorem quantile_function_of_top_quantile :
  let v := data_of GAL_TYPE_FLOAT64 [1; 2] in
  gal_statistics_quantile_index 2 (Fin (3 # 4)) = Ok (Some 1%Z) /\
  gal_statistics_quantile v (Fin (3 # 4)) = Ok (Some 2) /\
  gal_statistics_quantile_function_index v 2 = Ok None /\
  gal_statistics_quantile_function v 2 = Ok PInf.
Proof. vm_compute. repeat split; reflexivity. Qed.

(** ** The clipping loop *)

Lemma ltb_nan_r (x : double) : (x <? NaN)%dbl = false.
Proof. now destruct x. Qed.

Lemma ltb_ninf_r (x : double) : (x <? NInf)%dbl = false.
Proof. now destruct x. Qed.

(* The test of the loop, read as the stop rule. *)
Lemma clip_break_iff (param : double) (num : Z) (s o : double) :
  clip_break param num s o = true <->
  ((s =? Fin 0)%dbl = true \/
   ((param <? Fin 1)%dbl = true /\ (0 < num)%Z /\
    ((o - s) / s <? param)%dbl = true)).
Proof.
  unfold clip_break, bytolerance.
  destruct (s =? Fin 0)%dbl eqn:E0; cbn [orb andb].
  - split; auto.
  - rewrite andb_true_iff.
    assert (Hb : (if (param >=? Fin 1)%dbl then false else true) = true /\
                 ((o - s) / s <? param)%dbl = true <->
                 (param <? Fin 1)%dbl = true /\
                 ((o - s) / s <? param)%dbl = true).
    { destruct param as [| | |p].
      - rewrite ltb_nan_r. cbn. intuition discriminate.
      - cbn. intuition discriminate.
      - rewrite ltb_ninf_r. cbn. intuition discriminate.
      - rewrite geb_Fin, ltb_Fin. unfold Qltb.
        destruct (Qle_bool 1 p); cbn; intuition discriminate. }
    rewrite andb_true_iff, Z.gtb_ltb, Z.ltb_lt.
    split.
    + intros [[B N] L]. right. destruct Hb as [Hb _].
      destruct (Hb (conj B L)) as [P _]. auto.
    + intros [H|[P [N L]]]; [discriminate|].
      destruct Hb as [_ Hb]. destruct (Hb (conj P L)) as [B _]. auto.
Qed.

(* A parameter below one that passed the checks is a positive rational. *)
Lemma tolerance_param (multip param : double) :
  statistics_clip_prepare multip param = Ok tt ->
  (param <? Fin 1)%dbl = true ->
  exists p, param = Fin p /\ 0 < p /\ p < 1.
Proof.
  unfold statistics_clip_prepare. intros Hp Hlt.
  destruct (multip <=? Fin 0)%dbl; [discriminate|].
  destruct (param <=? Fin 0)%dbl eqn:E; [discriminate|].
  destruct param as [| | |p]; try discriminate.
  exists p. rewrite ltb_Fin in Hlt. rewrite leb_Fin in E.
  apply Qltb_lt in Hlt. apply Qle_bool_false in E. auto.
Qed.

(* By tolerance, after the first turn, a spread that grew stops the loop:
   the relative change is negative, hence below the positive parameter. *)
Lemma clip_break_when_spread_grew (multip param : double) (num : Z) (o s : Q) :
  statistics_clip_prepare multip param = Ok tt ->
  (param <? Fin 1)%dbl = true -> (0 < num)%Z -> 0 <= o -> o < s ->
  clip_break param num (Fin s) (Fin o) = true.
Proof.
  intros Hp Hlt Hn Ho Hs.
  destruct (tolerance_param _ _ Hp Hlt) as [p [-> [Hp0 Hp1]]].
  apply clip_break_iff. right. repeat split; auto.
  unfold Dbl.sub. cbn [Dbl.neg Dbl.add Dbl.div].
  assert (Hs0 : Qeq_bool s 0 = false).
  { destruct (Qeq_bool s 0) eqn:E; [|reflexivity].
    apply Qeq_bool_iff in E. lra. }
  rewrite Hs0, ltb_Fin. apply Qltb_lt.
  rewrite !Qred_correct.
  apply Qlt_trans with 0; [|assumption].
  apply Qlt_shift_div_r; lra.
Qed.

Section ClipLoop.

Variable sqrt : double -> double.
Variables (nbs : view) (multip param : double) (sig1_mad0 : bool).

(* The turns the loop takes form a run. *)
Lemma clip_loop_rounds (fuel : nat) (st : clip_state) :
  rounds_from sqrt nbs param sig1_mad0 (cs_num st) (cs_oldspread st)
    (fst (clip_loop sqrt fuel nbs multip param sig1_mad0 st)).
Proof.
  revert st. induction fuel as [|fuel IH]; intro st; cbn [clip_loop].
  - constructor.
  - destruct (cs_size st =? 0)%Z; [constructor|].
    destruct (subrange (varr nbs) (cs_start st) (cs_size st)) as [cur| |] eqn:Hsub;
      try constructor.
    destruct (clip_break param (cs_num st)
                (clip_spread sqrt sig1_mad0 (vtype nbs) (vinc nbs) cur)
                (cs_oldspread st)) eqn:Hb.
    + cbn [fst]. apply rounds_stop; cbn; auto.
      exists (cs_start st), cur. cbn. auto.
    + destruct (CLIPALL (vinc nbs) cur (clip_center (vtype nbs) cur) multip
                  (clip_spread sqrt sig1_mad0 (vtype nbs) (vinc nbs) cur)
                  (cs_start st) (cs_size st)) as [start' size'].
      match goal with
      | |- context [clip_loop sqrt fuel nbs multip param sig1_mad0 ?s] =>
          specialize (IH s);
          destruct (clip_loop sqrt fuel nbs multip param sig1_mad0 s)
            as [rounds final]
      end.
      cbn [fst] in *. apply rounds_step; cbn; auto.
      exists (cs_start st), cur. cbn. auto.
Qed.

(* Every turn of a run decides by the test, measures a range of the view,
   and stops the run when the test holds; the turn after one that goes on
   is numbered one more and sees its spread as the old spread. *)
Lemma rounds_from_inv (pre : list clip_round) :
  forall (num : Z) (old : double) (r : clip_round) (post : list clip_round),
    rounds_from sqrt nbs param sig1_mad0 num old (pre ++ r :: post) ->
    (num <= r_num r)%Z /\
    round_measures sqrt nbs sig1_mad0 r /\
    r_stop r = clip_break param (r_num r) (r_spread r) (r_oldspread r) /\
    (r_stop r = true -> post = []) /\
    (forall r' post', post = r' :: post' ->
       r_num r' = (r_num r + 1)%Z /\ r_oldspread r' = r_spread r).
Proof.
  induction pre as [|x pre IH]; intros num old r post H; cbn [app] in H.
  - inversion H as [| n o r0 Hn Ho Hm Hs Hb | n o r0 rest Hn Ho Hm Hs Hb Hrest];
      subst.
    + repeat split; auto; try lia; try congruence.
    + split; [lia|]. split; [assumption|]. split; [congruence|].
      split; [congruence|].
      intros r' post' E. subst.
      inversion Hrest; subst; auto.
  - inversion H as [| n o r0 Hn Ho Hm Hs Hb | n o r0 rest Hn Ho Hm Hs Hb Hrest];
      subst.
    + destruct pre; discriminate.
    + destruct (IH _ _ _ _ Hrest) as [A B].
      split; [lia | exact B].
Qed.

(* The loop takes a turn from a state exactly when a turn is left, the
   range is not empty and it lies in the view. *)
Lemma clip_loop_takes_turn (fuel : nat) (st : clip_state) :
  fst (clip_loop sqrt fuel nbs multip param sig1_mad0 st) <> [] <->
  (fuel <> O /\ cs_size st <> 0%Z /\
   exists c, subrange (varr nbs) (cs_start st) (cs_size st) = Ok c).
Proof.
  destruct fuel as [|fuel]; cbn [clip_loop].
  - cbn. split; [congruence|]. intros [H _]. congruence.
  - destruct (cs_size st =? 0)%Z eqn:E0.
    + apply Z.eqb_eq in E0. cbn. split; [congruence|]. intros [_ [H _]]. congruence.
    + apply Z.eqb_neq in E0.
      destruct (subrange (varr nbs) (cs_start st) (cs_size st)) as [cur| |] eqn:Hs.
      * assert (R : (S fuel <> O /\ cs_size st <> 0%Z /\ exists c, Ok cur = Ok c)).
        { split; [discriminate|]. split; [assumption|]. eauto. }
        destruct (clip_break param (cs_num st) _ (cs_oldspread st)).
        -- cbn. split; [intros _; exact R|discriminate].
        -- destruct (CLIPALL _ _ _ _ _ _ _) as [start' size'].
           destruct (clip_loop _ _ _ _ _ _ _) as [rounds final].
           cbn. split; [intros _; exact R|discriminate].
      * cbn. split; [congruence|]. intros [_ [_ [c Hc]]]. discriminate.
      * cbn. split; [congruence|]. intros [_ [_ [c Hc]]]. discriminate.
Qed.

(* The first turn taken from a state starts with its variables. *)
Lemma clip_loop_head (fuel : nat) (st : clip_state) (r : clip_round)
  (rest : list clip_round) :
  fst (clip_loop sqrt fuel nbs multip param sig1_mad0 st) = r :: rest ->
  r_num r = cs_num st /\ r_size r = cs_size st /\
  r_oldspread r = cs_oldspread st.
Proof.
  destruct fuel as [|fuel]; cbn [clip_loop]; [discriminate|].
  destruct (cs_size st =? 0)%Z; [discriminate|].
  destruct (subrange (varr nbs) (cs_start st) (cs_size st)) as [cur| |];
    try discriminate.
  destruct (clip_break param (cs_num st) _ (cs_oldspread st)).
  - cbn. intro H. injection H as <- _. cbn. auto.
  - destruct (CLIPALL _ _ _ _ _ _ _) as [start' size'].
    destruct (clip_loop _ _ _ _ _ _ _) as [rounds final].
    cbn. intro H. injection H as <- _. cbn. auto.
Qed.

(* Every turn of the loop measures a range of the view, and another turn
   follows it exactly when it did not stop, a turn is left after it, and the
   range that CLIPALL leaves is not empty and lies in the view. *)
Lemma clip_loop_turns (fuel : nat) :
  forall (st : clip_state) (pre : list clip_round) (r : clip_round)
         (post : list clip_round),
    fst (clip_loop sqrt fuel nbs multip param sig1_mad0 st) = pre ++ r :: post ->
    r_num r = (cs_num st + Z.of_nat (length pre))%Z /\
    exists start cur,
      subrange (varr nbs) start (r_size r) = Ok cur /\
      r_center r = clip_center (vtype nbs) cur /\
      r_spread r = clip_spread sqrt sig1_mad0 (vtype nbs) (vinc nbs) cur /\
      (post <> [] <->
       r_stop r = false /\
       (S (length pre) < fuel)%nat /\
       snd (CLIPALL (vinc nbs) cur (r_center r) multip (r_spread r) start
              (r_size r)) <> 0%Z /\
       exists c,
         subrange (varr nbs)
           (fst (CLIPALL (vinc nbs) cur (r_center r) multip (r_spread r) start
                   (r_size r)))
           (snd (CLIPALL (vinc nbs) cur (r_center r) multip (r_spread r) start
                   (r_size r))) = Ok c) /\
      (forall r' post', post = r' :: post' ->
         r_size r' = snd (CLIPALL (vinc nbs) cur (r_center r) multip
                            (r_spread r) start (r_size r))).
Proof.
  induction fuel as [|fuel IH]; intros st pre r post H.
  - cbn in H. destruct pre; discriminate.
  - cbn [clip_loop] in H.
    destruct (cs_size st =? 0)%Z; [destruct pre; discriminate|].
    destruct (subrange (varr nbs) (cs_start st) (cs_size st)) as [cur| |] eqn:Hs;
      try (destruct pre; discriminate).
    destruct (clip_break param (cs_num st)
                (clip_spread sqrt sig1_mad0 (vtype nbs) (vinc nbs) cur)
                (cs_oldspread st)) eqn:Hb.
    + cbn [fst] in H. destruct pre as [|x pre]; cbn [app] in H.
      * injection H as <- <-. cbn [r_num r_size r_center r_spread r_stop length].
        split; [lia|]. exists (cs_start st), cur.
        split; [assumption|]. split; [reflexivity|]. split; [reflexivity|].
        split.
        -- split; [congruence|]. intros [N _]. discriminate.
        -- intros r' post' E. discriminate.
      * injection H as _ H. destruct pre; discriminate.
    + destruct (CLIPALL (vinc nbs) cur (clip_center (vtype nbs) cur) multip
                  (clip_spread sqrt sig1_mad0 (vtype nbs) (vinc nbs) cur)
                  (cs_start st) (cs_size st)) as [start' size'] eqn:Hc.
      match type of H with
      | context [clip_loop sqrt fuel nbs multip param sig1_mad0 ?s] =>
          pose proof (clip_loop_takes_turn fuel s) as T;
          pose proof (clip_loop_head fuel s) as Hd;
          specialize (IH s);
          destruct (clip_loop sqrt fuel nbs multip param sig1_mad0 s)
            as [rounds final]
      end.
      cbn [fst cs_size cs_start cs_num cs_oldspread] in *.
      destruct pre as [|x pre]; cbn [app] in H.
      * injection H as <- <-. cbn [r_num r_size r_center r_spread r_stop length].
        split; [lia|]. exists (cs_start st), cur.
        split; [assumption|]. split; [reflexivity|]. split; [reflexivity|].
        rewrite Hc. cbn [fst snd]. split.
        -- rewrite T. split.
           ++ intros [F [Z0 S0]]. repeat split; auto. lia.
           ++ intros [_ [F [Z0 S0]]]. repeat split; auto. lia.
        -- intros r' post' E. destruct (Hd _ _ E) as [_ [A _]]. exact A.
      * injection H as _ H.
        destruct (IH _ _ _ H) as [N [start [c [A [B [C [D E]]]]]]].
        cbn [length]. split; [rewrite N; lia|].
        exists start, c. split; [assumption|]. split; [assumption|].
        split; [assumption|]. split; [|assumption].
        rewrite D. split.
        -- intros [P [Q R]]. split; [assumption|]. split; [lia|assumption].
        -- intros [P [Q R]]. split; [assumption|]. split; [lia|assumption].
Qed.

End ClipLoop.

Section ClipRun.

Variable sqrt : double -> double.
Variable GAL_STATISTICS_CLIP_MAX_CONVERGE : Z.
Variables (input : gal_data) (multip param : double).
Variables (extrastats : clip_extra) (quiet sig1_mad0 : bool).

Let run := statistics_clip_run sqrt GAL_STATISTICS_CLIP_MAX_CONVERGE input
             multip param extrastats quiet sig1_mad0.
Let nbs := gal_statistics_no_blank_sorted input.

Lemma clip_checks_prepare (maxnum : Z) :
  clip_checks GAL_STATISTICS_CLIP_MAX_CONVERGE multip param = Ok maxnum ->
  statistics_clip_prepare multip param = Ok tt.
Proof.
  unfold clip_checks.
  destruct (clip_maxnum GAL_STATISTICS_CLIP_MAX_CONVERGE param); cbn;
    try discriminate.
  destruct (statistics_clip_prepare multip param) as [[]| |]; cbn;
    try discriminate.
  reflexivity.
Qed.

(* The turns of a call form a run that starts with no turn done and no old
   spread; there are turns only when the checks passed and the view has
   more than one element. *)
Lemma clip_run_rounds :
  rounds_from sqrt nbs param sig1_mad0 0 NaN (fst run).
Proof.
  unfold run, statistics_clip_run, statistics_clip_view. fold nbs.
  destruct (clip_checks GAL_STATISTICS_CLIP_MAX_CONVERGE multip param)
    as [maxnum| |]; try constructor.
  destruct (varr nbs) as [|x [|y l]] eqn:E; try constructor.
  rewrite <- E.
  pose proof (clip_loop_rounds sqrt nbs multip param sig1_mad0
                (Z.to_nat maxnum)
                (mk_cstate 0 (vsize nbs) 0 NaN NaN NaN 0 (vsize nbs))) as H.
  destruct (clip_loop sqrt (Z.to_nat maxnum) nbs multip param sig1_mad0
              (mk_cstate 0 (vsize nbs) 0 NaN NaN NaN 0 (vsize nbs)))
    as [rounds final].
  exact H.
Qed.

Lemma clip_run_checked :
  fst run <> [] ->
  statistics_clip_prepare multip param = Ok tt /\ (1 < vsize nbs)%Z.
Proof.
  unfold run, statistics_clip_run, statistics_clip_view. fold nbs.
  destruct (clip_checks GAL_STATISTICS_CLIP_MAX_CONVERGE multip param)
    as [maxnum| |] eqn:Hc; cbn [fst]; try congruence.
  destruct (varr nbs) as [|x [|y l]] eqn:E; cbn [fst]; try congruence.
  intros _. split; [eapply clip_checks_prepare; eassumption|].
  unfold vsize. rewrite E. cbn [length]. lia.
Qed.

(* The turns of a call are those of the loop, run for at most [maxnum]
   turns from the whole view. *)
Lemma clip_run_loop :
  fst run <> [] ->
  exists maxnum,
    clip_maxnum GAL_STATISTICS_CLIP_MAX_CONVERGE param = Ok maxnum /\
    fst run = fst (clip_loop sqrt (Z.to_nat maxnum) nbs multip param sig1_mad0
                     (mk_cstate 0 (vsize nbs) 0 NaN NaN NaN 0 (vsize nbs))).
Proof.
  unfold run, statistics_clip_run, statistics_clip_view, clip_checks. fold nbs.
  destruct (clip_maxnum GAL_STATISTICS_CLIP_MAX_CONVERGE param)
    as [maxnum| |]; cbn [bind fst]; try congruence.
  destruct (statistics_clip_prepare multip param) as [[]| |]; cbn [bind fst];
    try congruence.
  destruct (varr nbs) as [|x [|y l]] eqn:E; cbn [fst]; try congruence.
  intros _. exists maxnum. split; [reflexivity|].
  rewrite <- E.
  destruct (clip_loop sqrt (Z.to_nat maxnum) nbs multip param sig1_mad0
              (mk_cstate 0 (vsize nbs) 0 NaN NaN NaN 0 (vsize nbs)))
    as [rounds final].
  reflexivity.
Qed.

(** C1 (amended).  In every run of the clipping loop (sigma or MAD variant)
    each turn works on a view of more than one element and measures the
    center and the spread of a range of it.  The turn leaves the loop through
    its break exactly when the spread it measured is 0, or when the run is by
    tolerance ([param] below 1), a turn has been completed before, and
    [(oldspread - spread)/spread] is below [param]; no turn follows one that
    stopped.  Another turn follows exactly when this rule fails, fewer than
    [maxnum] turns are done with this one ([maxnum] is [param] when it is at
    least 1 and the bound of the tolerance policy otherwise), and the range
    that CLIPALL leaves is not empty and lies in the view; that turn works on
    the clipped range and sees the spread as its old spread.  The comparison
    takes no absolute value: by tolerance, after the first turn, a spread
    larger than the old one stops the loop. *)
Theorem clip_stop_rule (pre : list clip_round) (r : clip_round)
  (post : list clip_round) :
  fst run = pre ++ r :: post ->
  (1 < vsize nbs)%Z /\
  round_measures sqrt nbs sig1_mad0 r /\
  (r_stop r = true <-> stop_rule param r) /\
  (r_stop r = true -> post = []) /\
  ((param <? Fin 1)%dbl = true -> (0 < r_num r)%Z -> spread_grew r ->
   r_stop r = true) /\
  exists (maxnum start : Z) (cur : list Q),
    clip_maxnum GAL_STATISTICS_CLIP_MAX_CONVERGE param = Ok maxnum /\
    r_num r = Z.of_nat (length pre) /\
    subrange (varr nbs) start (r_size r) = Ok cur /\
    r_center r = clip_center (vtype nbs) cur /\
    r_spread r = clip_spread sqrt sig1_mad0 (vtype nbs) (vinc nbs) cur /\
    let next := CLIPALL (vinc nbs) cur (r_center r) multip (r_spread r) start
                  (r_size r) in
    (post <> [] <->
     ~ stop_rule param r /\
     (r_num r + 1 < maxnum)%Z /\
     snd next <> 0%Z /\
     exists c, subrange (varr nbs) (fst next) (snd next) = Ok c) /\
    (forall r' post', post = r' :: post' ->
       r_num r' = (r_num r + 1)%Z /\ r_size r' = snd next /\
       r_oldspread r' = r_spread r).
Proof.
  intro E.
  assert (Hne : fst run <> []) by (rewrite E; destruct pre; discriminate).
  destruct (clip_run_checked Hne) as [Hprep Hsize].
  pose proof clip_run_rounds as R. rewrite E in R.
  destruct (@rounds_from_inv _ _ _ _ _ _ _ _ _ R)
    as [_ [Hm [Hstop [Hlast Hnext]]]].
  assert (Hrule : r_stop r = true <-> stop_rule param r).
  { rewrite Hstop. apply clip_break_iff. }
  split; [assumption|]. split; [assumption|]. split; [assumption|].
  split; [assumption|]. split.
  - intros Hlt Hnum [o [s [Ho [Hs [Ho0 Hos]]]]].
    rewrite Hstop, Ho, Hs.
    eapply clip_break_when_spread_grew; eassumption.
  - destruct (clip_run_loop Hne) as [maxnum [Hmax Hloop]].
    rewrite E in Hloop. symmetry in Hloop.
    destruct (clip_loop_turns _ _ _ _ _ _ _ _ _ _ Hloop)
      as [Hnum [start [cur [Hsub [Hc [Hs [Hpost Hsz]]]]]]].
    cbn [cs_num] in Hnum.
    exists maxnum, start, cur.
    split; [assumption|]. split; [lia|]. split; [assumption|].
    split; [assumption|]. split; [assumption|].
    cbv zeta. split; [|].
    + rewrite Hpost. split.
      * intros [A [B C]]. split; [|split; [lia|exact C]].
        intro S0. apply Hrule in S0. congruence.
      * intros [A [B C]]. split; [|split; [lia|exact C]].
        destruct (r_stop r) eqn:Es; [|reflexivity].
        exfalso. apply A, Hrule. reflexivity.
    + intros r' post' Ep. destruct (Hnext _ _ Ep) as [A B].
      split; [assumption|]. split; [eapply Hsz; eassumption|assumption].
Qed.

(** C5 (amended).  In a run by tolerance ([param] below 1), when the loop
    goes on past turn k+1, that is when turn k+1 does not stop, a
    non-negative spread measured in turn k+1 is strictly smaller than the
    spread measured in turn k. *)
Theorem clip_tolerance_spread_decreases (pre : list clip_round)
  (r1 r2 : clip_round) (post : list clip_round) (s1 s2 : Q) :
  fst run = pre ++ r1 :: r2 :: post ->
  (param <? Fin 1)%dbl = true ->
  r_stop r2 = false ->
  r_spread r1 = Fin s1 -> r_spread r2 = Fin s2 -> 0 <= s2 ->
  s2 < s1.
Proof.
  intros E Hlt Hgo H1 H2 Hs2.
  assert (Hne : fst run <> []) by (rewrite E; destruct pre; discriminate).
  destruct (clip_run_checked Hne) as [Hprep _].
  destruct (tolerance_param _ _ Hprep Hlt) as [p [Hp [Hp0 Hp1]]].
  pose proof clip_run_rounds as R. rewrite E in R.
  destruct (@rounds_from_inv _ _ _ _ _ _ _ _ _ R) as [Hn1 [_ [_ [_ Hnext]]]].
  destruct (Hnext _ _ eq_refl) as [Hnum Hold].
  change (pre ++ r1 :: r2 :: post) with (pre ++ [r1] ++ r2 :: post) in R.
  rewrite app_assoc in R.
  destruct (@rounds_from_inv _ _ _ _ _ _ _ _ _ R) as [_ [_ [Hstop _]]].
  rewrite Hgo in Hstop. symmetry in Hstop.
  assert (Hnot : ~ stop_rule param r2).
  { intro S. apply clip_break_iff in S. congruence. }
  unfold stop_rule in Hnot. rewrite Hold, H1, H2, Hp in Hnot.
  assert (Hz : Qeq_bool s2 0 = false).
  { destruct (Qeq_bool s2 0) eqn:Z0; [|reflexivity].
    exfalso. apply Hnot. left. exact Z0. }
  assert (Hpos : 0 < s2).
  { destruct (Qlt_le_dec 0 s2) as [L|L]; [assumption|].
    assert (s2 == 0) by lra. apply Qeq_bool_iff in H. congruence. }
  destruct (Qlt_le_dec s2 s1) as [L|L]; [assumption|].
  exfalso. apply Hnot. right.
  split; [rewrite <- Hp; exact Hlt|]. split; [lia|].
  unfold Dbl.sub. cbn [Dbl.neg Dbl.add Dbl.div]. rewrite Hz, ltb_Fin.
  apply Qltb_lt. rewrite !Qred_correct.
  apply Qle_lt_trans with 0; [|assumption].
  apply Qle_shift_div_r; lra.
Qed.

End ClipRun.

(* The stop rule on a run by tolerance: the first turn goes on and the
   second one stops because the spread grew. *)
Lemma clip_stop_rule_witness :
  let input := data_of GAL_TYPE_FLOAT64 [0; 1; 2; 4; 4; 8] in
  let nbs := gal_statistics_no_blank_sorted input in
  let r0 := mk_round 0 6 (Fin 3) (Fin (3 # 2)) NaN false in
  let r1 := mk_round 1 5 (Fin 2) (Fin 2) (Fin (3 # 2)) true in
  let param := Fin (1 # 10) in
  fst (statistics_clip_run sqrt_example 50 input (Fin 3) param no_extra true
         false) = [] ++ r0 :: [r1] /\
  ((1 < vsize nbs)%Z /\
   round_measures sqrt_example nbs false r0 /\
   (r_stop r0 = true <-> stop_rule param r0) /\
   (r_stop r0 = true -> [r1] = []) /\
   ((param <? Fin 1)%dbl = true -> (0 < r_num r0)%Z -> spread_grew r0 ->
    r_stop r0 = true) /\
   exists (maxnum start : Z) (cur : list Q),
     clip_maxnum 50 param = Ok maxnum /\
     r_num r0 = Z.of_nat (@length clip_round []) /\
     subrange (varr nbs) start (r_size r0) = Ok cur /\
     r_center r0 = clip_center (vtype nbs) cur /\
     r_spread r0 = clip_spread sqrt_example false (vtype nbs) (vinc nbs) cur /\
     let next := CLIPALL (vinc nbs) cur (r_center r0) (Fin 3) (r_spread r0)
                   start (r_size r0) in
     ([r1] <> [] <->
      ~ stop_rule param r0 /\
      (r_num r0 + 1 < maxnum)%Z /\
      snd next <> 0%Z /\
      exists c, subrange (varr nbs) (fst next) (snd next) = Ok c) /\
     (forall r' post', [r1] = r' :: post' ->
        r_num r' = (r_num r0 + 1)%Z /\ r_size r' = snd next /\
        r_oldspread r' = r_spread r0)).
Proof.
  split.
  - vm_compute. reflexivity.
  - apply (@clip_stop_rule sqrt_example 50
             (data_of GAL_TYPE_FLOAT64 [0; 1; 2; 4; 4; 8]) (Fin 3)
             (Fin (1 # 10)) no_extra true false
             []
             (mk_round 0 6 (Fin 3) (Fin (3 # 2)) NaN false)
             [mk_round 1 5 (Fin 2) (Fin 2) (Fin (3 # 2)) true]).
    vm_compute. reflexivity.
Defined.

(** C1 (counterexample).  MAD clipping of the sorted floating view
    [0,1,2,4,4,8] with multiplier 3 and a fixed count of two turns
    ([param = 2]): the second turn measures the spread 2, so the stop rule
    does not hold in it (the spread is not 0 and the run is not by
    tolerance) and the turn does not leave through the break, yet the
    iteration ends with it, the two turns being done.  The clipped range
    still holds five elements. *)
Lemma clip_stops_at_turn_limit :
  let input := data_of GAL_TYPE_FLOAT64 [0; 1; 2; 4; 4; 8] in
  let r0 := mk_round 0 6 (Fin 3) (Fin (3 # 2)) NaN false in
  let r1 := mk_round 1 5 (Fin 2) (Fin 2) (Fin (3 # 2)) false in
  fst (statistics_clip_run sqrt_example 50 input (Fin 3) (Fin 2) no_extra true
         false) = [r0; r1] /\
  ~ stop_rule (Fin 2) r1 /\
  r_stop r1 = false /\
  statistics_clip sqrt_example 50 input (Fin 3) (Fin 2) no_extra true false
  = Ok (mk_clip_out (Fin 5) NaN NaN (Fin 2) (Fin 2) (Fin 2) (Some 2%Z) []).
Proof.
  cbv zeta. split; [vm_compute; reflexivity|]. split; [|split].
  - unfold stop_rule. cbn. intros [H|[H _]]; discriminate.
  - reflexivity.
  - vm_compute. reflexivity.
Qed.

(** C5 (counterexample).  MAD clipping of the sorted floating view
    [0,1,2,4,4,8] with multiplier 3 measures the spread 1.5 in its first
    turn, goes on, and measures the larger spread 2 in its second turn:
    under the fixed count of two turns ([param = 2]) and also by tolerance
    ([param = 0.1], where the second turn stops the loop only after having
    measured the larger spread).  The run does not depend on the square
    root nor, from two on, on the bound of the tolerance policy. *)
Lemma clip_mad_spread_grows :
  let input := data_of GAL_TYPE_FLOAT64 [0; 1; 2; 4; 4; 8] in
  let r0 := mk_round 0 6 (Fin 3) (Fin (3 # 2)) NaN false in
  (forall sqrt maxc,
     fst (statistics_clip_run sqrt maxc input (Fin 3) (Fin 2) no_extra true
            false)
     = [r0; mk_round 1 5 (Fin 2) (Fin 2) (Fin (3 # 2)) false]) /\
  (forall sqrt maxc, (2 <= maxc)%Z ->
     fst (statistics_clip_run sqrt maxc input (Fin 3) (Fin (1 # 10)) no_extra
            true false)
     = [r0; mk_round 1 5 (Fin 2) (Fin 2) (Fin (3 # 2)) true]) /\
  r_stop r0 = false /\
  (Fin 2 <=? Fin (3 # 2))%dbl = false.
Proof.
  cbv zeta. split; [|split; [|split]].
  - intros sqrt maxc. vm_compute. reflexivity.
  - intros sqrt maxc H. unfold statistics_clip_run, statistics_clip_view.
    change (clip_checks maxc (Fin 3) (Fin (1 # 10))) with (Ok maxc).
    change (gal_statistics_no_blank_sorted
              (data_of GAL_TYPE_FLOAT64 [0; 1; 2; 4; 4; 8]))
      with (mk_view GAL_TYPE_FLOAT64 [0; 1; 2; 4; 4; 8] true).
    cbn [varr].
    destruct (Z.to_nat maxc) as [|[|n]] eqn:En; [lia|lia|].
    vm_compute. reflexivity.
  - reflexivity.
  - reflexivity.
Qed.

(* A run by tolerance whose second turn goes on with half the spread of
   the first. *)
Lemma clip_tolerance_spread_decreases_witness :
  let input := data_of GAL_TYPE_FLOAT64 [0; 0; 1; 1; 3; 3] in
  let r0 := mk_round 0 6 (Fin 1) (Fin 1) NaN false in
  let r1 := mk_round 1 4 (Fin (1 # 2)) (Fin (1 # 2)) (Fin 1) false in
  let r2 := mk_round 2 4 (Fin (1 # 2)) (Fin (1 # 2)) (Fin (1 # 2)) true in
  let param := Fin (1 # 10) in
  fst (statistics_clip_run sqrt_example 50 input (Fin 2) param no_extra true
         false) = [] ++ r0 :: r1 :: [r2] /\
  (param <? Fin 1)%dbl = true /\
  r_stop r1 = false /\
  r_spread r0 = Fin 1 /\ r_spread r1 = Fin (1 # 2) /\ 0 <= 1 # 2 /\
  1 # 2 < 1.
Proof.
  assert (E : fst (statistics_clip_run sqrt_example 50
                     (data_of GAL_TYPE_FLOAT64 [0; 0; 1; 1; 3; 3]) (Fin 2)
                     (Fin (1 # 10)) no_extra true false)
              = [] ++ mk_round 0 6 (Fin 1) (Fin 1) NaN false
                   :: mk_round 1 4 (Fin (1 # 2)) (Fin (1 # 2)) (Fin 1) false
                   :: [mk_round 2 4 (Fin (1 # 2)) (Fin (1 # 2)) (Fin (1 # 2))
                         true])
    by (vm_compute; reflexivity).
  assert (L : 0 <= 1 # 2) by (unfold Qle; simpl; lia).
  split; [exact E|]. split; [reflexivity|]. split; [reflexivity|].
  split; [reflexivity|]. split; [reflexivity|]. split; [exact L|].
  exact (@clip_tolerance_spread_decreases sqrt_example 50
           (data_of GAL_TYPE_FLOAT64 [0; 0; 1; 1; 3; 3]) (Fin 2)
           (Fin (1 # 10)) no_extra true false [] _ _ _ 1 (1 # 2)
           E eq_refl eq_refl eq_refl eq_refl L).
Defined.

(** ** Clipping: the degenerate inputs and the unconverged run *)

Section ClipEdges.

Variable sqrt : double -> double.
Variable GAL_STATISTICS_CLIP_MAX_CONVERGE : Z.
Variables (input : gal_data) (multip param : double).
Variables (extrastats : clip_extra) (quiet sig1_mad0 : bool).

Let nbs := gal_statistics_no_blank_sorted input.

(* A call that passes the checks on an input without a non-blank element
   returns all columns NaN, whatever extra columns are asked for. *)
Lemma clip_of_nothing (maxnum : Z) :
  clip_checks GAL_STATISTICS_CLIP_MAX_CONVERGE multip param = Ok maxnum ->
  varr nbs = [] ->
  statistics_clip sqrt GAL_STATISTICS_CLIP_MAX_CONVERGE input multip param
    extrastats quiet sig1_mad0 = Ok (clip_all_nan None []).
Proof.
  intros Hc Hv. unfold statistics_clip, statistics_clip_run, statistics_clip_view. fold nbs.
  rewrite Hc, Hv. cbn [snd]. f_equal.
  unfold statistics_clip_stats_extra, clip_all_nan.
  destruct extrastats as [[] [] []]; reflexivity.
Qed.

(* A call that passes the checks on an input with one non-blank element
   [x] returns [x], converted to float32, as the center, 0 as the spread of
   the variant and 1 as the number used; the number-of-clips column stays
   NaN and the status field is not written. *)
Lemma clip_of_one (maxnum : Z) (x : Q) :
  clip_checks GAL_STATISTICS_CLIP_MAX_CONVERGE multip param = Ok maxnum ->
  varr nbs = [x] ->
  exists out,
    statistics_clip sqrt GAL_STATISTICS_CLIP_MAX_CONVERGE input multip param
      extrastats quiet sig1_mad0 = Ok out /\
    clip_median out = to_float32 x /\
    (if sig1_mad0 then clip_std out else clip_mad out) = Fin 0 /\
    clip_number_used out = Fin 1 /\
    clip_number_clips out = NaN /\
    clip_status out = None /\
    clip_printed out = (if quiet then [] else [(1, 1, NaN, Fin 0)%Z]).
Proof.
  intros Hc Hv. unfold statistics_clip, statistics_clip_run, statistics_clip_view. fold nbs.
  rewrite Hc, Hv. cbn [snd]. eexists. split; [reflexivity|].
  unfold statistics_clip_stats_extra.
  cbn [clip_median clip_std clip_mad clip_number_used clip_number_clips
       clip_status clip_printed clip_mean].
  destruct sig1_mad0; cbn [isnan andb]; repeat split; reflexivity.
Qed.

(** C6.  A call of the clipping function (sigma or MAD variant) whose
    arguments pass the checks returns normally on an input with fewer than
    two non-blank elements.  Without a non-blank element every column of the
    output is NaN.  With exactly one non-blank element [x] the center
    (median) is [x] converted to float32, the spread of the variant is 0 and
    the number used is 1; the one round, in which nothing is clipped, is
    reported where rounds are reported, in the table printed when [quiet] is
    0: it holds the single row of round 1 with 1 element.  The
    number-of-clips column, which counts clips and not rounds, stays NaN and
    the status field is not written. *)
Theorem clip_degenerate_inputs (maxnum : Z) :
  clip_checks GAL_STATISTICS_CLIP_MAX_CONVERGE multip param = Ok maxnum ->
  (varr nbs = [] ->
   statistics_clip sqrt GAL_STATISTICS_CLIP_MAX_CONVERGE input multip param
     extrastats quiet sig1_mad0 = Ok (clip_all_nan None [])) /\
  (forall x : Q, varr nbs = [x] ->
   exists out,
     statistics_clip sqrt GAL_STATISTICS_CLIP_MAX_CONVERGE input multip param
       extrastats quiet sig1_mad0 = Ok out /\
     clip_median out = to_float32 x /\
     (if sig1_mad0 then clip_std out else clip_mad out) = Fin 0 /\
     clip_number_used out = Fin 1 /\
     clip_number_clips out = NaN /\
     clip_status out = None /\
     clip_printed out = (if quiet then [] else [(1, 1, NaN, Fin 0)%Z])).
Proof.
  intro Hc. split.
  - intro Hv. eapply clip_of_nothing; eassumption.
  - intros x Hv. eapply clip_of_one; eassumption.
Qed.

End ClipEdges.

(* The one-element input [7], clipped by tolerance and not quiet: the center
   is 7 and the table holds one row. *)
Lemma clip_degenerate_inputs_witness :
  let input := data_of GAL_TYPE_FLOAT32 [7] in
  let nbs := gal_statistics_no_blank_sorted input in
  clip_checks 50 (Fin 3) (Fin (1 # 5)) = Ok 50%Z /\
  varr nbs = [7] /\
  to_float32 7 = Fin 7 /\
  exists out,
    statistics_clip sqrt_example 50 input (Fin 3) (Fin (1 # 5)) no_extra false
      false = Ok out /\
    clip_median out = to_float32 7 /\
    clip_mad out = Fin 0 /\
    clip_number_used out = Fin 1 /\
    clip_number_clips out = NaN /\
    clip_status out = None /\
    clip_printed out = [(1, 1, NaN, Fin 0)%Z].
Proof.
  split; [reflexivity|]. split; [reflexivity|].
  split; [vm_compute; reflexivity|].
  exact (proj2 (@clip_degenerate_inputs sqrt_example 50
                  (data_of GAL_TYPE_FLOAT32 [7]) (Fin 3) (Fin (1 # 5))
                  no_extra false false 50%Z eq_refl) 7 eq_refl).
Defined.

(** C10 (evaluation at the failing input).  MAD clipping of [0,10] with
    multiplier 1 by tolerance 0.5, asking for the MAD as an extra column:
    the first turn measures center 5 and spread 5 and clips the range to
    nothing, every column is set to NaN, and the extra statistics then write
    the MAD of the last range, 5, back into the MAD column. *)
Theorem clip_unconverged_extra_column :
  forall (sqrt : double -> double) (maxc : positive),
    gal_statistics_clip_mad sqrt (Zpos maxc) (data_of GAL_TYPE_FLOAT64 [0; 10])
      (Fin 1) (Fin (1 # 2)) (mk_extra false false true) true
    = Ok (mk_clip_out NaN NaN NaN NaN (Fin 5) NaN (Some 1%Z) []).
Proof.
  intros sqrt maxc.
  unfold gal_statistics_clip_mad, statistics_clip, statistics_clip_run, statistics_clip_view.
  change (clip_checks (Zpos maxc) (Fin 1) (Fin (1 # 2))) with (Ok (Zpos maxc)).
  change (gal_statistics_no_blank_sorted (data_of GAL_TYPE_FLOAT64 [0; 10]))
    with (mk_view GAL_TYPE_FLOAT64 [0; 10] true).
  cbn [varr].
  destruct (Z.to_nat (Zpos maxc)) as [|[|n]] eqn:En; [lia| |];
    vm_compute; reflexivity.
Qed.

Section ClipUnconverged.

Variable sqrt : double -> double.
Variable GAL_STATISTICS_CLIP_MAX_CONVERGE : Z.
Variables (input : gal_data) (multip param : double).
Variables (quiet sig1_mad0 : bool).

Let nbs := gal_statistics_no_blank_sorted input.

(* The range that [nbs] holds when the loop is left lies in the view. *)
Lemma clip_loop_keeps_range (fuel : nat) :
  forall (st st' : clip_state) (rounds : list clip_round),
    clip_loop sqrt fuel nbs multip param sig1_mad0 st = (rounds, Ok st') ->
    (exists c, subrange (varr nbs) (cs_nbs_start st) (cs_nbs_size st) = Ok c) ->
    exists c, subrange (varr nbs) (cs_nbs_start st') (cs_nbs_size st') = Ok c.
Proof.
  induction fuel as [|fuel IH]; intros st st' rounds H Hr; cbn [clip_loop] in H.
  - injection H as _ <-. exact Hr.
  - destruct (cs_size st =? 0)%Z; [injection H as _ <-; exact Hr|].
    destruct (subrange (varr nbs) (cs_start st) (cs_size st)) as [cur| |] eqn:Hs;
      try discriminate.
    destruct (clip_break param (cs_num st)
                (clip_spread sqrt sig1_mad0 (vtype nbs) (vinc nbs) cur)
                (cs_oldspread st)).
    + injection H as _ <-. cbn. eauto.
    + destruct (CLIPALL (vinc nbs) cur (clip_center (vtype nbs) cur) multip
                  (clip_spread sqrt sig1_mad0 (vtype nbs) (vinc nbs) cur)
                  (cs_start st) (cs_size st)) as [start' size'].
      match type of H with
      | context [clip_loop sqrt fuel nbs multip param sig1_mad0 ?s] =>
          destruct (clip_loop sqrt fuel nbs multip param sig1_mad0 s)
            as [rs fin] eqn:Hl
      end.
      injection H as _ ->.
      eapply IH; [exact Hl|]. cbn. eauto.
Qed.

Lemma subrange_whole (l : list Q) :
  subrange l 0 (Z.of_nat (length l)) = Ok l.
Proof.
  unfold subrange.
  replace ((0 <=? 0) && (0 <=? Z.of_nat (length l))
           && (0 + Z.of_nat (length l) <=? Z.of_nat (length l)))%Z with true.
  - rewrite Nat2Z.id. cbn [Z.to_nat skipn]. now rewrite firstn_all.
  - symmetry. rewrite !andb_true_iff, !Z.leb_le. lia.
Qed.

(** X19.  When no extra column is asked for, a run that ends with an empty
    range, or by tolerance with the bound on the turns reached, returns
    every column NaN; the number of turns is kept in the status field
    only. *)
Lemma clip_unconverged_all_nan (maxnum : Z) (rounds : list clip_round)
  (st : clip_state) :
  clip_checks GAL_STATISTICS_CLIP_MAX_CONVERGE multip param = Ok maxnum ->
  (1 < vsize nbs)%Z ->
  clip_loop sqrt (Z.to_nat maxnum) nbs multip param sig1_mad0
    (mk_cstate 0 (vsize nbs) 0 NaN NaN NaN 0 (vsize nbs)) = (rounds, Ok st) ->
  cs_size st = 0%Z \/ (bytolerance param = true /\ cs_num st = maxnum) ->
  statistics_clip sqrt GAL_STATISTICS_CLIP_MAX_CONVERGE input multip param
    no_extra quiet sig1_mad0
  = Ok (clip_all_nan (Some (cs_num st)) (printed_rounds quiet rounds)).
Proof.
  intros Hc Hsize Hl Hend.
  unfold statistics_clip, statistics_clip_run, statistics_clip_view. fold nbs. rewrite Hc.
  destruct (varr nbs) as [|x [|y l]] eqn:Hv;
    try (unfold vsize in Hsize; rewrite Hv in Hsize; cbn in Hsize; lia).
  rewrite <- Hv. rewrite Hl. cbn [snd bind].
  destruct (clip_loop_keeps_range _ _ Hl) as [c Hcur].
  { cbn. exists (varr nbs). apply subrange_whole. }
  rewrite Hcur. cbn [bind]. f_equal.
  unfold clip_result.
  replace ((cs_size st =? 0)%Z || bytolerance param && (cs_num st =? maxnum)%Z)
    with true.
  - reflexivity.
  - symmetry. destruct Hend as [H0|[Hb Hn]].
    + rewrite H0. reflexivity.
    + rewrite Hb, Hn, Z.eqb_refl. apply orb_true_r.
Qed.

End ClipUnconverged.

(** ** Histogram *)

Lemma incr_at_length (h : list Z) (i : nat) :
  (i < length h)%nat -> length (incr_at h i) = length h.
Proof.
  intro H. unfold incr_at.
  rewrite <- (firstn_skipn i h) at 3.
  rewrite !length_app. f_equal.
  destruct (skipn i h) eqn:E; reflexivity.
Qed.

Lemma Zsum_app (a b : list Z) : Zsum (a ++ b) = (Zsum a + Zsum b)%Z.
Proof.
  unfold Zsum. induction a as [|x a IH]; cbn; [reflexivity|]. rewrite IH. lia.
Qed.

Lemma Zsum_incr_at (h : list Z) (i : nat) :
  (i < length h)%nat -> Zsum (incr_at h i) = (Zsum h + 1)%Z.
Proof.
  intro H. unfold incr_at.
  rewrite <- (firstn_skipn i h) at 3.
  rewrite !Zsum_app.
  destruct (skipn i h) as [|c tl] eqn:E.
  - exfalso. assert (L := length_skipn i h). rewrite E in L. cbn in L. lia.
  - unfold Zsum. cbn. lia.
Qed.

Lemma last_nth_pred (l : list Q) (d : Q) :
  last l d = nth (length l - 1) l d.
Proof.
  induction l as [|x l IH]; [reflexivity|].
  destruct l as [|y l]; [reflexivity|].
  change (last (x :: y :: l) d) with (last (y :: l) d). rewrite IH.
  cbn [length]. rewrite !Nat.sub_1_r. reflexivity.
Qed.

Section HistogramProof.

Variable blank_value : gal_type -> Q.
Variable t : gal_type.
Variables (mn mx w : Q) (n : nat).
Hypothesis w_pos : 0 < w.
Hypothesis span : mx - mn == inject_Z (Z.of_nat n) * w.
Hypothesis n_pos : (0 < n)%nat.
Hypothesis n_size_t : (Z.of_nat n < 2 ^ 64)%Z.

(* A cell in the range adds one to one bin, a cell outside leaves the
   histogram as it is. *)
Lemma histogram_step_counts (h : list Z) (c : option Q) :
  length h = n ->
  exists h',
    histogram_step blank_value t (Fin mn) (Fin mx) (Fin w) h c = Ok h' /\
    length h' = n /\
    Zsum h' = (Zsum h + (if in_range blank_value t mn mx c then 1 else 0))%Z.
Proof.
  intro Hlen. unfold histogram_step, in_range.
  destruct ((cell_double blank_value t c >=? Fin mn)%dbl
            && (cell_double blank_value t c <=? Fin mx)%dbl) eqn:Hin.
  2:{ exists h. repeat split; auto. lia. }
  apply andb_true_iff in Hin. destruct Hin as [Hge Hle].
  destruct (cell_double blank_value t c) as [| | |x] eqn:Hc;
    try discriminate.
  rewrite geb_Fin in Hge. rewrite leb_Fin in Hle.
  apply Qle_bool_iff in Hge. apply Qle_bool_iff in Hle.
  unfold Dbl.sub. cbn [Dbl.neg Dbl.add Dbl.div].
  assert (Hw0 : Qeq_bool w 0 = false).
  { destruct (Qeq_bool w 0) eqn:E; [|reflexivity].
    apply Qeq_bool_iff in E. lra. }
  rewrite Hw0.
  set (q := Qred (Qred (x + Qred (- mn)) / w)).
  assert (Hq : q == (x - mn) / w).
  { unfold q. rewrite !Qred_correct. reflexivity. }
  assert (Hq0 : 0 <= q).
  { rewrite Hq. apply Qle_shift_div_l; [assumption|]. lra. }
  assert (Hqn : q <= inject_Z (Z.of_nat n)).
  { rewrite Hq. apply Qle_shift_div_r; [assumption|]. lra. }
  assert (Hf0 : (0 <= Qfloor q)%Z).
  { rewrite <- (Qfloor_Z 0). now apply Qfloor_resp_le. }
  assert (Hfn : (Qfloor q <= Z.of_nat n)%Z).
  { rewrite <- (Qfloor_Z (Z.of_nat n)). now apply Qfloor_resp_le. }
  unfold cast_size_t. rewrite (Qtrunc_nonneg Hq0).
  replace ((0 <=? Qfloor q) && (Qfloor q <? 2 ^ 64))%Z with true
    by (symmetry; rewrite andb_true_iff, Z.leb_le, Z.ltb_lt; lia).
  cbn [of_option bind]. rewrite Hlen.
  set (i := (Qfloor q - (if (Qfloor q =? Z.of_nat n)%Z then 1 else 0))%Z).
  assert (Hi : (0 <= i < Z.of_nat n)%Z).
  { unfold i. destruct (Qfloor q =? Z.of_nat n)%Z eqn:E.
    - apply Z.eqb_eq in E. lia.
    - apply Z.eqb_neq in E. lia. }
  replace ((0 <=? i) && (i <? Z.of_nat n))%Z with true
    by (symmetry; rewrite andb_true_iff, Z.leb_le, Z.ltb_lt; lia).
  exists (incr_at h (Z.to_nat i)).
  assert (Hlt : (Z.to_nat i < length h)%nat) by lia.
  split; [reflexivity|]. split.
  - rewrite incr_at_length; assumption.
  - apply Zsum_incr_at. assumption.
Qed.

(* The loop adds to the histogram the number of cells in the range. *)
Lemma histogram_loop_counts (cells : list (option Q)) :
  forall h : list Z,
    length h = n ->
    exists h',
      histogram_loop blank_value t (Fin mn) (Fin mx) (Fin w) h cells = Ok h' /\
      length h' = n /\
      Zsum h' = (Zsum h + count_in_range blank_value t mn mx cells)%Z.
Proof.
  induction cells as [|c cells IH]; intros h Hlen; cbn [histogram_loop].
  - exists h. unfold count_in_range. cbn. repeat split; auto. lia.
  - destruct (histogram_step_counts h c Hlen) as [h1 [E1 [L1 S1]]].
    rewrite E1. cbn [bind].
    destruct (IH h1 L1) as [h2 [E2 [L2 S2]]].
    exists h2. split; [assumption|]. split; [assumption|].
    rewrite S2, S1. unfold count_in_range. cbn [filter].
    destruct (in_range blank_value t mn mx c); cbn [length]; lia.
Qed.

(* An element on the right edge of the range is counted in the last bin. *)
Lemma histogram_step_right_edge (h : list Z) (x : Q) :
  length h = n -> x == mx ->
  histogram_step blank_value t (Fin mn) (Fin mx) (Fin w) h (Some x)
  = Ok (incr_at h (n - 1)).
Proof.
  intros Hlen Hx. unfold histogram_step. cbn [cell_double].
  rewrite geb_Fin, leb_Fin.
  assert (Hn0 : 0 <= inject_Z (Z.of_nat n) * w).
  { apply Qmult_le_0_compat; [|lra].
    change 0 with (inject_Z 0). rewrite <- Zle_Qle. lia. }
  assert (Hge : Qle_bool mn x = true) by (apply Qle_bool_iff; lra).
  assert (Hle : Qle_bool x mx = true) by (apply Qle_bool_iff; lra).
  rewrite Hge, Hle. cbn [andb].
  unfold Dbl.sub. cbn [Dbl.neg Dbl.add Dbl.div].
  assert (Hw0 : Qeq_bool w 0 = false).
  { destruct (Qeq_bool w 0) eqn:E; [|reflexivity].
    apply Qeq_bool_iff in E. lra. }
  rewrite Hw0.
  set (q := Qred (Qred (x + Qred (- mn)) / w)).
  assert (Hq : q == inject_Z (Z.of_nat n)).
  { unfold q. rewrite !Qred_correct.
    setoid_replace (x + - mn) with (inject_Z (Z.of_nat n) * w) by lra.
    field. lra. }
  assert (Hfl : Qfloor q = Z.of_nat n) by (rewrite Hq; apply Qfloor_Z).
  assert (Hq0 : 0 <= q).
  { rewrite Hq. change 0 with (inject_Z 0). rewrite <- Zle_Qle. lia. }
  unfold cast_size_t. rewrite (Qtrunc_nonneg Hq0), Hfl.
  replace ((0 <=? Z.of_nat n) && (Z.of_nat n <? 2 ^ 64))%Z with true
    by (symmetry; rewrite andb_true_iff, Z.leb_le, Z.ltb_lt; lia).
  cbn [of_option bind]. rewrite Hlen, Z.eqb_refl.
  replace ((0 <=? Z.of_nat n - 1) && (Z.of_nat n - 1 <? Z.of_nat n))%Z
    with true
    by (symmetry; rewrite andb_true_iff, Z.leb_le, Z.ltb_lt; lia).
  do 2 f_equal. lia.
Qed.

End HistogramProof.

Lemma in_range_ext (blank_value : gal_type -> Q) (t : gal_type)
  (mn mx mn' mx' : Q) (c : option Q) :
  mn == mn' -> mx == mx' ->
  in_range blank_value t mn mx c = in_range blank_value t mn' mx' c.
Proof.
  intros E1 E2. unfold in_range.
  destruct (cell_double blank_value t c) as [| | |x]; try reflexivity.
  rewrite !geb_Fin, !leb_Fin. f_equal.
  - destruct (Qle_bool mn' x) eqn:E.
    + apply Qle_bool_iff. apply Qle_bool_iff in E. lra.
    + apply Qle_bool_false. apply Qle_bool_false in E. lra.
  - destruct (Qle_bool x mx') eqn:E.
    + apply Qle_bool_iff. apply Qle_bool_iff in E. lra.
    + apply Qle_bool_false. apply Qle_bool_false in E. lra.
Qed.

Lemma count_in_range_ext (blank_value : gal_type -> Q) (t : gal_type)
  (mn mx mn' mx' : Q) (cells : list (option Q)) :
  mn == mn' -> mx == mx' ->
  count_in_range blank_value t mn mx cells
  = count_in_range blank_value t mn' mx' cells.
Proof.
  intros E1 E2. unfold count_in_range. do 2 f_equal.
  apply filter_ext. intro c. now apply in_range_ext.
Qed.

Lemma Zsum_repeat_0 (n : nat) : Zsum (repeat 0%Z n) = 0%Z.
Proof. induction n as [|n IH]; cbn; [reflexivity|]. exact IH. Qed.

Section HistogramRegular.

Variable blank_value : gal_type -> Q.
Variables (d : list Q) (bw : Q).
Hypothesis two_bins : (2 <= length d)%nat.
Hypothesis bins_size_t : (Z.of_nat (length d) < 2 ^ 64)%Z.
Hypothesis regular : uniform_centers d bw.

(* The bin width and the two ends of the range as the function computes
   them from the first two centers and the last one. *)
Let w' : Q := Qred (nth 1 d 0 + Qred (- nth 0 d 0)).
Let mn' : Q := Qred (nth 0 d 0 + Qred (- Qred (w' / 2))).
Let mx' : Q := Qred (last d 0 + Qred (w' / 2)).

Lemma hist_width : w' == bw.
Proof.
  destruct regular as [_ U]. unfold w'. rewrite !Qred_correct.
  rewrite (U 1%nat) by lia. change (inject_Z (Z.of_nat 1)) with 1. ring.
Qed.

Lemma hist_min : mn' == nth 0 d 0 - bw / 2.
Proof.
  unfold mn'. rewrite !Qred_correct, hist_width. reflexivity.
Qed.

Lemma hist_max : mx' == last d 0 + bw / 2.
Proof.
  unfold mx'. rewrite !Qred_correct, hist_width. reflexivity.
Qed.

Lemma hist_span : mx' - mn' == inject_Z (Z.of_nat (length d)) * w'.
Proof.
  rewrite hist_min, hist_max, hist_width.
  destruct regular as [_ U]. rewrite last_nth_pred.
  rewrite (U (length d - 1)%nat) by lia.
  replace (Z.of_nat (length d - 1)) with (Z.of_nat (length d) - 1)%Z by lia.
  unfold Zminus. rewrite inject_Z_plus. change (inject_Z (- (1))) with (- (1)).
  field.
Qed.

Lemma hist_width_pos : 0 < w'.
Proof. rewrite hist_width. exact (proj1 regular). Qed.

(* The call on regular bins, without normalisation, is the loop over the
   cells started on a cleared histogram. *)
Lemma histogram_regular_unfold (input : gal_data) :
  darray input <> [] ->
  gal_statistics_histogram blank_value input (Some (mk_bins d true)) false
    false
  = (h <- histogram_loop blank_value (dtype input) (Fin mn') (Fin mx')
            (Fin w') (repeat 0%Z (length d)) (darray input) ;;
     Ok (HistCounts h)).
Proof.
  intro Hne. unfold gal_statistics_histogram. cbn [bcenters bregular negb].
  destruct (length d =? 1)%nat eqn:E1; [apply Nat.eqb_eq in E1; lia|].
  destruct (length (darray input) =? 0)%nat eqn:E0.
  { apply Nat.eqb_eq in E0. destruct (darray input); [congruence|discriminate]. }
  cbn [andb].
  destruct d as [|d0 [|d1 tl]] eqn:Ed; cbn [length] in two_bins; try lia.
  change (Fin d0 - (Fin d1 - Fin d0) / Fin 2)%dbl with (Fin mn').
  change (Fin (last (d0 :: d1 :: tl) 0) + (Fin d1 - Fin d0) / Fin 2)%dbl
    with (Fin mx').
  change (Fin d1 - Fin d0)%dbl with (Fin w').
  destruct (histogram_loop blank_value (dtype input) (Fin mn') (Fin mx')
              (Fin w') (repeat 0%Z (length (d0 :: d1 :: tl))) (darray input));
    reflexivity.
Qed.


End HistogramRegular.


(** ** Mode *)

(* The loops of the estimator and the golden-section search come to an end
   within the fuel they are given. *)

(* The scan for the closest point ends within the fuel it is given. *)
Lemma mirror_closest_terminates (t : gal_type) (a : list Q) (m : Z) (mf : Q) :
  forall (fuel : nat) (j : Z),
    (0 <= j)%Z ->
    (Z.max 0 (sz (Z.of_nat (length a) - m) - j) < Z.of_nat fuel)%Z ->
    mirror_closest fuel t a m mf j <> None.
Proof.
  induction fuel as [|fuel IH]; intros j Hj Hf; [lia|].
  cbn [mirror_closest].
  destruct (j <? sz (Z.of_nat (length a) - m))%Z eqn:E; [|discriminate].
  apply Z.ltb_lt in E.
  destruct (rd a (sz (m + j))) as [amj| |]; cbn [rbind]; try discriminate.
  destruct (Qltb mf amj).
  - destruct (rd a (sz (m + j - 1))) as [amj1| |]; cbn [rbind];
      try discriminate.
    destruct (Qltb _ _); discriminate.
  - pose proof (sz_bounds (Z.of_nat (length a) - m)) as B.
    rewrite (@sz_small (j + 1)) by lia.
    apply IH; lia.
Qed.

Lemma mirror_closest_nonneg (t : gal_type) (a : list Q) (m : Z) (mf : Q) :
  forall (fuel : nat) (j r : Z),
    (0 <= j)%Z -> mirror_closest fuel t a m mf j = Some (Ok r) -> (0 <= r)%Z.
Proof.
  induction fuel as [|fuel IH]; intros j r Hj H; [discriminate|].
  cbn [mirror_closest] in H.
  destruct (j <? sz (Z.of_nat (length a) - m))%Z eqn:E.
  - destruct (rd a (sz (m + j))) as [amj| |]; cbn [rbind] in H;
      try discriminate.
    destruct (Qltb mf amj).
    + destruct (rd a (sz (m + j - 1))) as [amj1| |]; cbn [rbind] in H;
        try discriminate.
      destruct (Qltb _ _); injection H as <-; [assumption|apply sz_bounds].
    + eapply IH; [|exact H]. apply sz_bounds.
  - injection H as <-. assumption.
Qed.

Lemma mirror_closest_from_terminates (t : gal_type) (a : list Q) (m : Z)
  (mf : Q) (prevj : Z) :
  (0 <= prevj)%Z -> mirror_closest_from t a m mf prevj <> None.
Proof.
  intro H. unfold mirror_closest_from. apply mirror_closest_terminates; lia.
Qed.

Section ModeTermination.

Variable sqrt : double -> double.

(* The loop over the mirrored points ends within its fuel when the
   interval is positive and the index cannot wrap around. *)
Lemma mirror_diff_loop_terminates (p : statistics_mode_params)
  (m errordiff : Z) :
  (1 <= interval p)%Z -> (numcheck p + interval p <= 2 ^ 64)%Z ->
  forall (fuel : nat) (i prevj maxdiff : Z),
    (0 <= i)%Z -> (0 <= prevj)%Z ->
    (Z.max 0 (numcheck p - i) < Z.of_nat fuel)%Z ->
    mirror_diff_loop fuel p m errordiff i prevj maxdiff <> None.
Proof.
  intros Hint Hnum.
  induction fuel as [|fuel IH]; intros i prevj maxdiff Hi Hj Hf; [lia|].
  cbn [mirror_diff_loop].
  destruct ((i <? numcheck p) && (i <=? m)
            && (sz (m + i) <? vsize (data p)))%Z eqn:E; [|discriminate].
  apply andb_true_iff in E. destruct E as [E _].
  apply andb_true_iff in E. destruct E as [E _]. apply Z.ltb_lt in E.
  destruct (rd (varr (data p)) m) as [zf| |]; cbn [rbind]; try discriminate.
  destruct (rd (varr (data p)) (sz (m - i))) as [ami| |]; cbn [rbind];
    try discriminate.
  destruct (mirror_closest_from _ _ _ _ prevj) as [[j| |]|] eqn:Hc;
    cbn [bbind rbind]; try discriminate.
  - destruct (i >? sz (j + errordiff))%Z; [discriminate|].
    rewrite (@sz_small (i + interval p)) by lia.
    apply IH; try lia.
    unfold mirror_closest_from in Hc.
    eapply mirror_closest_nonneg; [|exact Hc]. assumption.
  - exfalso. revert Hc. now apply mirror_closest_from_terminates.
Qed.

Lemma mode_mirror_max_index_diff_terminates (p : statistics_mode_params)
  (m : Z) :
  (1 <= interval p)%Z -> (numcheck p + interval p <= 2 ^ 64)%Z ->
  mode_mirror_max_index_diff sqrt p m <> None.
Proof.
  intros Hint Hnum. unfold mode_mirror_max_index_diff.
  destruct (mode_errordiff sqrt p m) as [errordiff| |]; cbn [rbind];
    try discriminate.
  apply mirror_diff_loop_terminates; try lia.
Qed.

(* The loop of MODE_SYM ends within its fuel. *)
Lemma mode_sym_loop_terminates (p : statistics_mode_params)
  (m topi errdiff : Z) (mf : Q) :
  forall (fuel : nat) (i prevj : Z),
    (0 <= i)%Z -> (0 <= prevj)%Z ->
    (Z.max 0 (sz (topi - m) - i) < Z.of_nat fuel)%Z ->
    mode_sym_loop fuel p m topi errdiff i prevj mf <> None.
Proof.
  induction fuel as [|fuel IH]; intros i prevj Hi Hj Hf; [lia|].
  cbn [mode_sym_loop].
  destruct (i <? sz (topi - m))%Z eqn:E; [|discriminate].
  apply Z.ltb_lt in E.
  destruct (rd (varr (data p)) (sz (m - i))) as [ami| |]; cbn [rbind];
    try discriminate.
  destruct (mirror_closest_from _ _ _ _ prevj) as [[j| |]|] eqn:Hc;
    cbn [bbind rbind]; try discriminate.
  - destruct ((i >? sz (j + errdiff)) || (j >? sz (i + errdiff)))%Z;
      [discriminate|].
    pose proof (sz_bounds (topi - m)) as B.
    rewrite (@sz_small (i + 1)) by lia.
    apply IH; try lia.
    unfold mirror_closest_from in Hc.
    eapply mirror_closest_nonneg; [|exact Hc]. assumption.
  - exfalso. revert Hc. now apply mirror_closest_from_terminates.
Qed.

Lemma mode_symmetricity_terminates (p : statistics_mode_params) (m : Z) :
  mode_symmetricity sqrt p m <> None.
Proof.
  unfold mode_symmetricity.
  destruct (mode_errordiff sqrt p m) as [errdiff| |]; cbn [rbind];
    try discriminate.
  destruct (rd (varr (data p)) m) as [mf| |]; cbn [rbind]; try discriminate.
  destruct (nonblank_index _) as [ai| |]; cbn [rbind]; try discriminate.
  destruct (rd (varr (data p)) ai) as [af| |]; cbn [rbind]; try discriminate.
  destruct (Qle_bool mf af); [discriminate|].
  match goal with
  | |- context [mode_sym_loop ?f ?p ?m ?topi ?e 1 0 ?mf] =>
      pose proof (@mode_sym_loop_terminates p m topi e mf f 1 0) as T;
      destruct (mode_sym_loop f p m topi e 1 0 mf) as [[bi0| |]|];
      cbn [bbind rbind]; try discriminate
  end.
  - destruct (rd _ _) as [bf| |]; cbn [rbind]; discriminate.
  - exfalso. apply T; try lia; reflexivity.
Qed.

End ModeTermination.

(* The floor of a rational between two integers. *)
Lemma Qfloor_between (x : Q) (lo hi : Z) :
  inject_Z lo <= x -> x < inject_Z hi -> (lo <= Qfloor x < hi)%Z.
Proof.
  intros L U. split.
  - rewrite <- (Qfloor_Z lo). now apply Qfloor_resp_le.
  - rewrite Zlt_Qlt. eapply Qle_lt_trans; [apply Qfloor_le | exact U].
Qed.

(* The conversion of a finite value to [size_t] between two bounds. *)
Lemma cast_size_t_between (x : Q) (lo hi : Z) :
  (0 <= lo)%Z -> (hi <= 2 ^ 64)%Z ->
  inject_Z lo <= x -> x < inject_Z hi ->
  exists i, cast_size_t (Fin x) = Some i /\ (lo <= i < hi)%Z.
Proof.
  intros H0 H1 L U.
  assert (Hx : 0 <= x).
  { eapply Qle_trans; [|exact L]. change 0 with (inject_Z 0).
    rewrite <- Zle_Qle. assumption. }
  destruct (Qfloor_between L U) as [A B].
  exists (Qfloor x). split; [|lia].
  unfold cast_size_t. rewrite Qtrunc_nonneg by assumption.
  replace ((0 <=? Qfloor x) && (Qfloor x <? 2 ^ 64))%Z with true; [reflexivity|].
  symmetry. apply andb_true_iff. split; [apply Z.leb_le|apply Z.ltb_lt]; lia.
Qed.

Lemma inject_Z_sub (a b : Z) : inject_Z (a - b) == inject_Z a - inject_Z b.
Proof.
  unfold Z.sub. rewrite inject_Z_plus, inject_Z_opp. reflexivity.
Qed.

(* The probing point lies strictly inside the larger interval. *)
Lemma mode_probe_inside (p : statistics_mode_params) :
  search_ok p -> (4 <= highi p - lowi p)%Z ->
  exists di,
    mode_probe p = Ok di /\
    if (sz (highi p - midi p) >? sz (midi p - lowi p))%Z
    then (midi p < di < highi p)%Z
    else (lowi p < di < midi p)%Z.
Proof.
  intros [H0 [H1 [H2 [H3 _]]]] H4. unfold mode_probe.
  rewrite (@sz_small (highi p - midi p)) by lia.
  rewrite (@sz_small (midi p - lowi p)) by lia.
  unfold MODE_TWO_TAKE_GR.
  destruct (highi p - midi p >? midi p - lowi p)%Z eqn:E.
  - apply Z.gtb_lt in E.
    cbn [Dbl.mul Dbl.add of_Z].
    assert (K : inject_Z 3 <= inject_Z (highi p - midi p))
      by (rewrite <- Zle_Qle; lia).
    rewrite inject_Z_sub in K.
    assert (L : inject_Z (midi p) <= inject_Z (highi p))
      by (rewrite <- Zle_Qle; lia).
    match goal with
    | |- context [cast_size_t (Fin ?x)] =>
        destruct (@cast_size_t_between x (midi p + 1) (highi p))
          as [di [Hd Hb]]; try lia
    end.
    + rewrite !Qred_correct, inject_Z_plus, inject_Z_sub.
      change (inject_Z 3) with 3 in K. change (inject_Z 1) with 1. lra.
    + rewrite !Qred_correct, inject_Z_sub.
      change (inject_Z 3) with 3 in K. lra.
    + exists di. rewrite Hd. split; [reflexivity|lia].
  - assert (E' : (highi p - midi p <= midi p - lowi p)%Z).
    { destruct (Z.gtb_spec (highi p - midi p) (midi p - lowi p));
        [discriminate|lia]. }
    unfold Dbl.sub. cbn [Dbl.mul Dbl.add Dbl.neg of_Z].
    assert (K : inject_Z 2 <= inject_Z (midi p - lowi p))
      by (rewrite <- Zle_Qle; lia).
    rewrite inject_Z_sub in K.
    match goal with
    | |- context [cast_size_t (Fin ?x)] =>
        destruct (@cast_size_t_between x (lowi p + 1) (midi p))
          as [di [Hd Hb]]; try lia
    end.
    + rewrite !Qred_correct, inject_Z_plus, inject_Z_sub.
      change (inject_Z 2) with 2 in K. change (inject_Z 1) with 1. lra.
    + rewrite !Qred_correct, inject_Z_sub.
      change (inject_Z 2) with 2 in K. lra.
    + exists di. rewrite Hd. split; [reflexivity|lia].
Qed.

Section GoldenTermination.

Variable sqrt : double -> double.

Lemma mode_golden_section_terminates :
  forall (fuel : nat) (p : statistics_mode_params),
    search_ok p -> (search_measure p < Z.of_nat fuel)%Z ->
    mode_golden_section sqrt fuel p <> None.
Proof.
  induction fuel as [|fuel IH]; intros p Hok Hf.
  - unfold search_measure in Hf. destruct Hok as [H0 [H1 [H2 _]]].
    destruct ((lowi p <? midi p)%Z && (midi p <? highi p)%Z); lia.
  - cbn [mode_golden_section].
    destruct (Z_lt_le_dec (highi p - lowi p) 4) as [Hsmall|Hbig].
    + (* the interval is too narrow to go on *)
      pose proof Hok as [H0 [H1 [H2 [H3 _]]]].
      destruct (mode_probe p) as [di| |]; cbn [rbind]; try discriminate.
      rewrite (@sz_small (highi p - lowi p)) by lia.
      replace (highi p - lowi p <=? 3)%Z with true
        by (symmetry; apply Z.leb_le; lia).
      rewrite orb_true_r. discriminate.
    + destruct (mode_probe_inside Hok Hbig) as [di [Hd Hin]].
      rewrite Hd. cbn [rbind].
      destruct (_ || _); [discriminate|].
      pose proof Hok as [H0 [H1 [H2 [H3 [H4 H5]]]]].
      pose proof (@mode_mirror_max_index_diff_terminates sqrt p di H4 H5) as T.
      destruct (mode_mirror_max_index_diff sqrt p di) as [[dd| |]|];
        cbn [bbind rbind]; try discriminate; [|contradiction].
      assert (Step : forall lo mi md hi,
                 (0 <= lo)%Z -> (lo <= mi)%Z -> (mi <= hi)%Z ->
                 (hi <= highi p)%Z ->
                 (search_measure (set_search p lo mi md hi)
                  < search_measure p)%Z ->
                 mode_golden_section sqrt fuel (set_search p lo mi md hi)
                 <> None).
      { intros lo mi md hi A B C D M. apply IH; [|lia].
        unfold search_ok. cbn. repeat split; try assumption; lia. }
      unfold search_measure in *. cbn [set_search lowi midi highi] in Step.
      destruct (sz (highi p - midi p) >? sz (midi p - lowi p))%Z eqn:Eup.
      * (* the probe is above the middle point *)
        replace (midi p <? di)%Z with true
          by (symmetry; apply Z.ltb_lt; lia).
        assert (S1 : mode_golden_section sqrt fuel
                       (set_search p (lowi p) (midi p) (midd p) di) <> None).
        { apply Step; try lia.
          destruct ((lowi p <? midi p)%Z && (midi p <? highi p)%Z);
            destruct ((lowi p <? midi p)%Z && (midi p <? di)%Z); lia. }
        assert (S2 : forall md, mode_golden_section sqrt fuel
                       (set_search p (midi p) di md (highi p)) <> None).
        { intro md. apply Step; try lia.
          replace ((midi p <? di)%Z && (di <? highi p)%Z) with true
            by (symmetry; apply andb_true_iff; split; apply Z.ltb_lt; lia).
          destruct (lowi p <? midi p)%Z eqn:El.
          - apply Z.ltb_lt in El. cbn [andb].
            destruct (midi p <? highi p)%Z; lia.
          - cbn [andb]. lia. }
        destruct (dd =? MODE_MIRROR_ABOVE)%Z; [exact S1|].
        destruct (dd <? midd p)%Z; [apply S2|exact S1].
      * (* the probe is below the middle point *)
        replace (midi p <? di)%Z with false
          by (symmetry; apply Z.ltb_ge; lia).
        assert (S1 : forall md, mode_golden_section sqrt fuel
                       (set_search p (lowi p) di md (midi p)) <> None).
        { intro md. apply Step; try lia.
          replace ((lowi p <? di)%Z && (di <? midi p)%Z) with true
            by (symmetry; apply andb_true_iff; split; apply Z.ltb_lt; lia).
          destruct (midi p <? highi p)%Z eqn:El.
          - apply Z.ltb_lt in El. rewrite andb_true_r.
            destruct (lowi p <? midi p)%Z; lia.
          - rewrite andb_false_r. lia. }
        assert (S2 : mode_golden_section sqrt fuel
                       (set_search p di (midi p) (midd p) (highi p)) <> None).
        { apply Step; try lia.
          destruct ((lowi p <? midi p)%Z && (midi p <? highi p)%Z);
            destruct ((di <? midi p)%Z && (midi p <? highi p)%Z); lia. }
        destruct (dd =? MODE_MIRROR_ABOVE)%Z; [apply S1|].
        destruct (dd <? midd p)%Z; [apply S1|exact S2].
Qed.

End GoldenTermination.

(* An index that the function returns lies at the rounded float index,
   which fits the [int] of the cast. *)
Lemma quantile_index_some (size i : Z) (q : Q) :
  (1 <= size)%Z -> 0 <= q -> q <= 1 ->
  gal_statistics_quantile_index size (Fin q) = Ok (Some i) ->
  inject_Z (size - 1) * q < inject_Z (2 ^ 31) /\
  (0 <= i)%Z /\
  inject_Z i - (1 # 2) < inject_Z (size - 1) * q /\
  inject_Z (size - 1) * q <= inject_Z i + (1 # 2).
Proof.
  intros Hs H0 H1 H.
  destruct (float_index_bounds Hs H0 H1) as [F0 F1].
  assert (Hlt : inject_Z (size - 1) * q < inject_Z (2 ^ 31)).
  { unfold gal_statistics_quantile_index in H.
    destruct (size =? 0)%Z eqn:E0; [apply Z.eqb_eq in E0; lia|].
    destruct ((Fin q <? Fin 0)%dbl || (Fin q >? Fin 1)%dbl);
      [discriminate|].
    cbn [Dbl.mul of_Z] in H.
    destruct (cast_int (Fin (Qred (inject_Z (size - 1) * q)))) as [t|] eqn:Ec;
      [|discriminate].
    unfold cast_int in Ec.
    destruct ((- 2 ^ 31 <=? Qtrunc (Qred (inject_Z (size - 1) * q)))
              && (Qtrunc (Qred (inject_Z (size - 1) * q)) <? 2 ^ 31))%Z
      eqn:Eb; [|discriminate].
    apply andb_true_iff in Eb. destruct Eb as [_ Eb]. apply Z.ltb_lt in Eb.
    rewrite Qtrunc_nonneg in Eb by (rewrite Qred_correct; assumption).
    rewrite Qred_correct in Eb.
    eapply Qlt_le_trans; [apply Qlt_floor|].
    rewrite <- Zle_Qle. lia. }
  split; [assumption|].
  rewrite (quantile_index_within_int Hs H0 H1 Hlt) in H.
  cbv zeta in H. injection H as <-.
  split; [|apply round_half_down_near].
  pose proof (Qceiling_resp_le _ _ F0) as C.
  pose proof (Qfloor_resp_le _ _ F0) as F.
  change (Qceiling 0) with 0%Z in C. change (Qfloor 0) with 0%Z in F.
  destruct (Qltb _ _); assumption.
Qed.

Lemma nonblank_index_ok (r : result (option Z)) (i : Z) :
  nonblank_index r = Ok i -> r = Ok (Some i).
Proof.
  unfold nonblank_index. destruct r as [[j|]| |]; cbn; congruence.
Qed.

Section ModeParams.

Variable sqrt : double -> double.

(* The parameters that the estimator starts the search with. *)
Lemma mode_params_ok (nbs : view) (mirrordist : double) :
  varr nbs <> [] ->
  mode_params sqrt nbs mirrordist <> None /\
  forall p, mode_params sqrt nbs mirrordist = Some (Ok p) ->
            search_ok p /\ data p = nbs.
Proof.
  intro Hne.
  assert (Hs : (1 <= vsize nbs)%Z).
  { unfold vsize. destruct (varr nbs); [contradiction|]. cbn [length]. lia. }
  unfold mode_params.
  destruct (nonblank_index (gal_statistics_quantile_index (vsize nbs) MODE_MIN_Q))
    as [lo| |] eqn:Hlo; cbn [rbind]; try (split; [discriminate|discriminate]).
  destruct (nonblank_index (gal_statistics_quantile_index (vsize nbs) MODE_MAX_Q))
    as [hi| |] eqn:Hhi; cbn [rbind]; try (split; [discriminate|discriminate]).
  apply nonblank_index_ok in Hlo, Hhi.
  unfold MODE_MIN_Q in Hlo. unfold MODE_MAX_Q in Hhi.
  apply quantile_index_some in Hlo; [|assumption|lra|lra].
  apply quantile_index_some in Hhi; [|assumption|lra|lra].
  destruct Hlo as [_ [L0 [L1 L2]]]. destruct Hhi as [B [_ [U1 U2]]].
  set (s := inject_Z (vsize nbs - 1)) in *.
  assert (S0 : 0 <= s).
  { unfold s. change 0 with (inject_Z 0). rewrite <- Zle_Qle. lia. }
  change (inject_Z (2 ^ 31)) with 2147483648 in B.
  assert (Hlh : (lo <= hi)%Z).
  { assert (inject_Z lo < inject_Z (hi + 1)).
    { rewrite inject_Z_plus. change (inject_Z 1) with 1. lra. }
    rewrite <- Zlt_Qlt in H. lia. }
  assert (Hhb : (hi < 2 ^ 32)%Z).
  { rewrite Zlt_Qlt. change (inject_Z (2 ^ 32)) with 4294967296. lra. }
  assert (Hsb : (vsize nbs < 2 ^ 33)%Z).
  { assert (s < inject_Z (2 ^ 32)).
    { change (inject_Z (2 ^ 32)) with 4294967296. lra. }
    unfold s in H. rewrite <- Zlt_Qlt in H. lia. }
  unfold MODE_GOLDEN_RATIO.
  cbn [Dbl.mul Dbl.add Dbl.div of_Z].
  match goal with
  | |- context [Qeq_bool ?c 0] =>
      change (Qeq_bool c 0) with false
  end.
  cbv iota.
  assert (Ql : inject_Z lo <= inject_Z hi) by (rewrite <- Zle_Qle; lia).
  assert (Q0 : 0 <= inject_Z lo).
  { change 0 with (inject_Z 0). rewrite <- Zle_Qle. lia. }
  match goal with
  | |- context [cast_size_t (Fin ?x)] =>
      destruct (@cast_size_t_between x lo (hi + 1)) as [mi [Hm Hb]]; try lia
  end.
  { rewrite !Qred_correct.
    apply Qle_shift_div_l; [reflexivity|]. lra. }
  { rewrite !Qred_correct.
    apply Qlt_shift_div_r; [reflexivity|].
    rewrite inject_Z_plus. change (inject_Z 1) with 1. lra. }
  rewrite Hm. cbn [of_option rbind].
  assert (Hi : (1 <= (if (vsize nbs / 2 >? 1000)%Z
                      then (vsize nbs / 2 / 1000)%Z else 1%Z))%Z).
  { destruct (vsize nbs / 2 >? 1000)%Z eqn:E; [|lia].
    apply Z.gtb_lt in E. apply Z.div_le_lower_bound; lia. }
  assert (Hn : (vsize nbs / 2 +
                (if (vsize nbs / 2 >? 1000)%Z
                 then (vsize nbs / 2 / 1000)%Z else 1%Z) <= 2 ^ 64)%Z).
  { assert (vsize nbs / 2 <= vsize nbs)%Z
      by (apply Z.div_le_upper_bound; lia).
    assert (0 <= vsize nbs / 2)%Z by (apply Z.div_pos; lia).
    destruct (vsize nbs / 2 >? 1000)%Z; [|lia].
    assert (vsize nbs / 2 / 1000 <= vsize nbs / 2)%Z
      by (apply Z.div_le_upper_bound; lia).
    lia. }
  match goal with
  | |- context [mode_mirror_max_index_diff sqrt ?p0 mi] =>
      pose proof (@mode_mirror_max_index_diff_terminates sqrt p0 mi Hi Hn) as T;
      destruct (mode_mirror_max_index_diff sqrt p0 mi) as [[md| |]|];
      cbn [bbind rbind]
  end; try (split; [discriminate|discriminate]); [|contradiction].
  split; [discriminate|].
  intros p Hp. injection Hp as <-.
  unfold search_ok, set_search. cbn.
  repeat split; try assumption; lia.
Qed.

End ModeParams.

Section ModeAcceptance.

Variable sqrt : double -> double.
Variable GAL_STATISTICS_MODE_GOOD_SYM : double.

(* The symmetricity 0 that mode_symmetricity returns "for a bad result"
   must not pass the test: the threshold is not negative. *)
Hypothesis good_sym_nonneg : (Fin 0 <=? GAL_STATISTICS_MODE_GOOD_SYM)%dbl = true.

Lemma zero_not_good : (Fin 0 >? GAL_STATISTICS_MODE_GOOD_SYM)%dbl = false.
Proof.
  destruct GAL_STATISTICS_MODE_GOOD_SYM as [| | |g]; try reflexivity;
    try discriminate.
  rewrite gtb_Fin. rewrite leb_Fin in good_sym_nonneg.
  apply Qltb_ge. now apply Qle_bool_iff.
Qed.

Lemma mode_finish_terminates (p : statistics_mode_params) (m : Z) :
  mode_finish sqrt GAL_STATISTICS_MODE_GOOD_SYM p m <> None.
Proof.
  unfold mode_finish.
  destruct (rd (varr (data p)) m) as [v| |]; cbn [rbind]; try discriminate.
  pose proof (@mode_symmetricity_terminates sqrt p m) as T.
  destruct (mode_symmetricity sqrt p m) as [[sb| |]|]; cbn [bbind rbind];
    try discriminate; [|contradiction].
  destruct (_ >? _)%dbl; discriminate.
Qed.

(* From the index of the mode on: the output is either all NaN or the four
   values of a mode whose symmetricity passes the test and whose value is
   above the scale point. *)
Lemma mode_finish_cases (p : statistics_mode_params) (m : Z) (out : mode_out) :
  mode_finish sqrt GAL_STATISTICS_MODE_GOOD_SYM p m = Some (Ok out) ->
  exists sym bval mf af,
    mode_symmetricity sqrt p m = Some (Ok (sym, bval)) /\
    mode_scale_point p m = Ok (mf, af) /\
    (((sym >? GAL_STATISTICS_MODE_GOOD_SYM)%dbl = true /\ af < mf /\
      out = mk_mode_out (Fin mf) (of_Z m / of_Z (vsize (data p) - 1))%dbl sym
              (Fin bval))
     \/
     (((sym >? GAL_STATISTICS_MODE_GOOD_SYM)%dbl = false \/ mf <= af) /\
      out = mode_all_nan)).
Proof.
  unfold mode_finish.
  destruct (rd (varr (data p)) m) as [v| |] eqn:Hv; cbn [rbind];
    try discriminate.
  destruct (mode_symmetricity sqrt p m) as [[[sym bval]| |]|] eqn:Hs;
    cbn [bbind rbind fst snd]; try discriminate.
  intro H. exists sym, bval, v.
  unfold mode_symmetricity in Hs. rewrite Hv in Hs.
  destruct (mode_errordiff sqrt p m) as [errdiff| |]; cbn [rbind] in Hs;
    try discriminate.
  destruct (nonblank_index
              (gal_statistics_quantile_index (sz (2 * m + 1)) MODE_SYM_LOW_Q))
    as [ai| |] eqn:Hai; cbn [rbind] in Hs; try discriminate.
  destruct (rd (varr (data p)) ai) as [af| |] eqn:Haf; cbn [rbind] in Hs;
    try discriminate.
  exists af. split; [reflexivity|]. split.
  { unfold mode_scale_point. rewrite Hv. cbn [bind]. rewrite Hai. cbn [bind].
    rewrite Haf. reflexivity. }
  destruct (Qle_bool v af) eqn:Hle.
  - (* the value at the mode is not above the scale point *)
    injection Hs as <- <-. rewrite zero_not_good in H. injection H as <-.
    right. split; [|reflexivity]. right. now apply Qle_bool_iff.
  - apply Qle_bool_false in Hle.
    destruct (sym >? GAL_STATISTICS_MODE_GOOD_SYM)%dbl eqn:Hg.
    + injection H as <-. left. auto.
    + injection H as <-. right. auto.
Qed.


End ModeAcceptance.


(** ** Outlier by distance *)

(** C9 (evaluation at the failing input).  Searching in the negative
    direction ([pos1_neg0 = 0]) with a window of 3 on the five sorted values
    [1,2,3,4,5], the first turn of the loop fills the distances from
    [arr[i+window_size-j+1]] with [i = 3] and [j = 0], that is from
    [arr[7]] and [arr[6]], outside the array: the call neither returns an
    outlier nor the NULL result. *)
Theorem outlier_negative_direction_reads_outside :
  forall (sqrt : double -> double) (maxc : Z) (clipflags : clip_extra)
         (sigma sigclip_multip sigclip_param : double),
    gal_statistics_outlier_bydistance sqrt maxc clipflags false
      (data_of GAL_TYPE_FLOAT64 [1; 2; 3; 4; 5]) 3 sigma sigclip_multip
      sigclip_param = Undefined.
Proof. intros. vm_compute. reflexivity. Qed.

Lemma rd_nat (a : list Q) (k : nat) :
  (k < length a)%nat -> rd a (Z.of_nat k) = Ok (nth k a 0).
Proof.
  intro H. unfold rd.
  destruct (Z.of_nat k <? 0)%Z eqn:E; [apply Z.ltb_lt in E; lia|].
  rewrite Nat2Z.id.
  destruct (nth_error a k) as [x|] eqn:En.
  - cbn. f_equal. symmetry. now apply nth_error_nth.
  - apply nth_error_None in En. lia.
Qed.

Lemma mapM_map {A B : Type} (f : A -> result B) (g : A -> B) (l : list A) :
  (forall x, In x l -> f x = Ok (g x)) -> mapM f l = Ok (map g l).
Proof.
  induction l as [|x l IH]; intro H; cbn [mapM map]; [reflexivity|].
  rewrite (H x (or_introl eq_refl)). cbn [bind].
  rewrite IH by (intros y Hy; apply H; now right).
  reflexivity.
Qed.

Section OutlierPositive.

Variable sqrt : double -> double.
Variable GAL_STATISTICS_CLIP_MAX_CONVERGE : Z.
Variable clipflags : clip_extra.
Variables (t : gal_type) (arr : list Q) (window_size : nat).
Variables (sigma sigclip_multip sigclip_param : double).
Hypothesis window_large : (2 < window_size)%nat.
Hypothesis arr_size_t : (Z.of_nat (length arr) < 2 ^ 64)%Z.

(* In the positive direction the distances of the window at [i] are read
   inside the array. *)
Lemma outlier_window_positive (i : nat) :
  (window_size <= i < length arr)%nat ->
  outlier_window true t arr (Z.of_nat window_size) (Z.of_nat i)
  = Ok (window_gaps t arr window_size i).
Proof.
  intro Hi. unfold outlier_window, window_gaps.
  replace (Z.to_nat (Z.of_nat window_size - 1)) with (window_size - 1)%nat
    by lia.
  apply mapM_map. intros j Hj. apply in_seq in Hj.
  replace (sz (Z.of_nat i - Z.of_nat window_size + Z.of_nat j + 1))
    with (Z.of_nat (i - window_size + j + 1))
    by (rewrite sz_small; lia).
  replace (sz (Z.of_nat i - Z.of_nat window_size + Z.of_nat j))
    with (Z.of_nat (i - window_size + j))
    by (rewrite sz_small; lia).
  rewrite !rd_nat by lia. reflexivity.
Qed.

(* The view of a window under the order cached from the first one: the
   first window is checked, the later ones are not. *)
Lemma dist_view_first :
  dist_view None (window_gaps t arr window_size window_size)
  = dist_view (Some (first_order t arr window_size))
      (window_gaps t arr window_size window_size).
Proof. reflexivity. Qed.

(* The loop from position [i] on finds the first jump among the positions
   [i .. size-1]. *)
Lemma outlier_loop_positive (fuel : nat) :
  forall (i : nat) (flag : option is_sorted_return),
    (window_size <= i)%nat -> (length arr - i < fuel)%nat ->
    flag = Some (first_order t arr window_size)
    \/ (flag = None /\ i = window_size) ->
    outlier_loop sqrt GAL_STATISTICS_CLIP_MAX_CONVERGE clipflags fuel true t
      arr (Z.of_nat window_size) sigma sigclip_multip sigclip_param flag
      (Z.of_nat i)
    = first_jump sqrt GAL_STATISTICS_CLIP_MAX_CONVERGE clipflags t arr
        window_size sigma sigclip_multip sigclip_param
        (seq i (length arr - i)).
Proof.
  induction fuel as [|fuel IH]; intros i flag Hw Hf Hflag; [lia|].
  cbn [outlier_loop].
  destruct (Z.of_nat i <? Z.of_nat (length arr))%Z eqn:Hlt.
  - apply Z.ltb_lt in Hlt.
    replace (negb (Z.of_nat i =? 0)%Z) with true
      by (symmetry; apply negb_true_iff, Z.eqb_neq; lia).
    cbn [andb].
    rewrite outlier_window_positive by lia. cbn [bind].
    replace (length arr - i)%nat with (S (length arr - S i)) by lia.
    cbn [seq first_jump]. unfold jump_at.
    assert (Hview : dist_view flag (window_gaps t arr window_size i)
                    = dist_view (Some (first_order t arr window_size))
                        (window_gaps t arr window_size i)).
    { destruct Hflag as [->|[-> ->]]; [reflexivity|apply dist_view_first]. }
    unfold outlier_clip. rewrite Hview.
    destruct (snd (statistics_clip_view sqrt GAL_STATISTICS_CLIP_MAX_CONVERGE
                     (fst (dist_view (Some (first_order t arr window_size))
                             (window_gaps t arr window_size i)))
                     sigclip_multip sigclip_param clipflags true false))
      as [sarr| |]; cbn [bind]; try reflexivity.
    rewrite rd_nat by lia. cbn [bind].
    replace (sz (Z.of_nat i - 1)) with (Z.of_nat (i - 1))
      by (rewrite sz_small; lia).
    rewrite rd_nat by lia. cbn [bind].
    destruct (outlier_test (it_sub t (nth i arr 0) (nth (i - 1) arr 0)) sigma
                sarr); [reflexivity|].
    replace (sz (Z.of_nat i + 1)) with (Z.of_nat (S i))
      by (rewrite sz_small; lia).
    apply IH; try lia. left. reflexivity.
  - apply Z.ltb_ge in Hlt. cbn [andb].
    replace (length arr - i)%nat with 0%nat by lia. reflexivity.
Qed.

End OutlierPositive.


(** ** The quantile function on views without duplicates *)

Lemma blank_remove_data_of (l : list Q) :
  gal_blank_remove (map (@Some Q) l) = l.
Proof. induction l as [|x l IH]; cbn; [reflexivity|]. now rewrite IH. Qed.

Lemma strictly_increasing_scan (l : list Q) :
  strictly_increasing l -> scan_increasing l = true.
Proof.
  induction l as [|x [|y l] IH]; intro H; try reflexivity.
  destruct H as [Hxy Hl]. cbn [scan_increasing].
  assert (E : Qltb y x = false) by (apply Qltb_ge; lra).
  rewrite E. cbn [negb andb]. now apply IH.
Qed.

Lemma strictly_increasing_head (l : list Q) :
  forall (x : Q) (j : nat),
    strictly_increasing (x :: l) -> (j < length (x :: l))%nat ->
    x <= nth j (x :: l) 0.
Proof.
  induction l as [|y l IH]; intros x j H Hj.
  - destruct j; cbn in *; [lra|lia].
  - destruct H as [Hxy Hl]. destruct j as [|j]; [cbn; lra|].
    cbn [nth]. cbn [length] in Hj.
    apply Qle_trans with y; [lra|]. apply IH; [assumption|cbn [length]; lia].
Qed.

(* The view of a strictly increasing dataset of two elements or more is
   the dataset itself, flagged increasing. *)
Lemma no_blank_sorted_strictly_increasing (t : gal_type) (a : list Q) :
  strictly_increasing a -> (2 <= length a)%nat ->
  gal_statistics_no_blank_sorted (data_of t a) = mk_view t a true.
Proof.
  intros H Hn. unfold gal_statistics_no_blank_sorted, data_of.
  cbn [darray dtype]. rewrite blank_remove_data_of.
  destruct a as [|a0 [|a1 l]]; cbn [length] in Hn; try lia.
  unfold gal_statistics_is_sorted.
  assert (E : Qle_bool a0 a1 = true) by (apply Qle_bool_iff; cbn in H; lra).
  rewrite E, (strictly_increasing_scan _ H). reflexivity.
Qed.

Section QuantileFunctionScan.

Variable t : gal_type.
Hypothesis floating : is_float t = true.

Lemma it_sub_float (x y : Q) : it_sub t x y == x - y.
Proof.
  unfold it_sub, cast.
  replace (is_float (promote t)) with true
    by (destruct t; try discriminate; reflexivity).
  apply Qred_correct.
Qed.

(* The scan started behind [prev] stops on the position of the probe when
   an element follows it, and runs off the end when the probe is the last
   element. *)
Lemma qfunc_scan_strictly_increasing (v : Q) (rest : list Q) :
  forall (prev : Q) (i : Z) (j : nat),
    strictly_increasing (prev :: rest) ->
    (j < length (prev :: rest))%nat ->
    v == nth j (prev :: rest) 0 ->
    qfunc_scan t true v prev rest i
    = if (S j <? length (prev :: rest))%nat
      then Some (i - 1 + Z.of_nat j)%Z
      else None.
Proof.
  induction rest as [|x rest IH]; intros prev i j H Hj Hv.
  - cbn [length] in *. assert (j = 0%nat) by lia. subst. reflexivity.
  - cbn [qfunc_scan]. destruct j as [|j].
    + (* the probe is [prev]: the next element is above it *)
      cbn [nth] in Hv. destruct H as [Hpx _].
      assert (E : Qltb v x = true) by (apply Qltb_lt; lra).
      rewrite E.
      assert (E2 : Qltb (it_sub t v prev) (it_sub t x v) = true).
      { apply Qltb_lt. rewrite !it_sub_float. lra. }
      rewrite E2. cbn [length Nat.ltb Nat.leb]. f_equal. lia.
    + cbn [nth] in Hv. destruct H as [Hpx Hrest].
      cbn [length] in Hj.
      assert (Hx : x <= v).
      { rewrite Hv. apply strictly_increasing_head; [assumption|].
        cbn [length]. lia. }
      assert (E : Qltb v x = false) by (now apply Qltb_ge).
      rewrite E.
      rewrite (IH x (i + 1)%Z j Hrest) by (cbn [length]; lia || assumption).
      cbn [length].
      change (S (S j) <? S (S (length rest)))%nat
        with (S j <? S (length rest))%nat.
      destruct (S j <? S (length rest))%nat; [f_equal; lia | reflexivity].
Qed.

(** X20.  On a strictly increasing floating view of two elements or more,
    the quantile function of the element at index [k] is [k/(n-1)], except
    for the last element, for which it is plus infinity. *)
Lemma quantile_function_strictly_increasing (a : list Q) (k : nat) :
  strictly_increasing a -> (2 <= length a)%nat -> (k < length a)%nat ->
  gal_statistics_quantile_function (data_of t a) (nth k a 0)
  = Ok (if (S k <? length a)%nat
        then (of_Z (Z.of_nat k) / of_Z (Z.of_nat (length a) - 1))%dbl
        else PInf).
Proof.
  intros H Hn Hk.
  unfold gal_statistics_quantile_function,
    gal_statistics_quantile_function_index.
  rewrite (no_blank_sorted_strictly_increasing t a H Hn).
  cbn [varr vtype vinc vsize].
  destruct a as [|a0 [|a1 l]] eqn:Ha; cbn [length] in Hn; try lia.
  rewrite <- Ha in *.
  set (v := cast t (nth k a 0)).
  assert (Hv : v == nth k a 0).
  { unfold v, cast. rewrite floating. apply Qred_correct. }
  assert (H0 : a0 <= nth k a 0).
  { rewrite Ha. apply strictly_increasing_head; rewrite <- Ha; assumption. }
  assert (E : Qle_bool a0 v = true) by (apply Qle_bool_iff; lra).
  rewrite E.
  pose proof (@qfunc_scan_strictly_increasing v (a1 :: l) a0 1%Z k) as Hscan.
  rewrite <- Ha in Hscan. specialize (Hscan H Hk Hv).
  rewrite Hscan. cbn [bind].
  destruct (S k <? length a)%nat.
  - replace (1 - 1 + Z.of_nat k)%Z with (Z.of_nat k) by lia. reflexivity.
  - assert (E1 : Qltb a0 a1 = true).
    { apply Qltb_lt. rewrite Ha in H. cbn in H. lra. }
    rewrite E1.
    assert (E2 : Qltb (nth k a 0) a0 = false) by (now apply Qltb_ge).
    rewrite E2. reflexivity.
Qed.

End QuantileFunctionScan.

(** ** The blank-free sorted view keeps its invariant *)

Lemma scan_increasing_sorted (l : list Q) :
  scan_increasing l = true -> StronglySorted Qle l.
Proof.
  induction l as [|x l IH]; intro H; [constructor|].
  destruct l as [|y l]; [repeat constructor|].
  cbn [scan_increasing] in H. apply andb_true_iff in H. destruct H as [Hxy Hl].
  apply negb_true_iff, Qltb_ge in Hxy.
  specialize (IH Hl). constructor; [assumption|].
  constructor; [assumption|].
  inversion IH as [|? ? _ Hall]; subst.
  eapply Forall_impl; [|exact Hall]. intros z Hz. lra.
Qed.

Lemma scan_decreasing_sorted (l : list Q) :
  scan_decreasing l = true -> StronglySorted (fun a b => b <= a) l.
Proof.
  induction l as [|x l IH]; intro H; [constructor|].
  destruct l as [|y l]; [repeat constructor|].
  cbn [scan_decreasing] in H. apply andb_true_iff in H. destruct H as [Hxy Hl].
  apply negb_true_iff, Qltb_ge in Hxy.
  specialize (IH Hl). constructor; [assumption|].
  constructor; [assumption|].
  inversion IH as [|? ? _ Hall]; subst.
  eapply Forall_impl; [|exact Hall]. intros z Hz. cbn in Hz. lra.
Qed.

Lemma insert_sorted_perm (x : Q) (l : list Q) :
  Permutation (x :: l) (insert_sorted x l).
Proof.
  induction l as [|y l IH]; cbn [insert_sorted]; [reflexivity|].
  destruct (Qle_bool x y); [reflexivity|].
  rewrite perm_swap. now constructor.
Qed.

Lemma insert_sorted_sorted (x : Q) (l : list Q) :
  StronglySorted Qle l -> StronglySorted Qle (insert_sorted x l).
Proof.
  induction l as [|y l IH]; intro H; cbn [insert_sorted].
  - repeat constructor.
  - inversion H as [|? ? Hl Hall]; subst.
    destruct (Qle_bool x y) eqn:E.
    + apply Qle_bool_iff in E. constructor; [assumption|].
      constructor; [assumption|].
      eapply Forall_impl; [|exact Hall]. intros z Hz. cbn in Hz. lra.
    + apply Qle_bool_false in E. constructor; [now apply IH|].
      apply Forall_forall. intros z Hz.
      apply (Permutation_in _ (Permutation_sym (insert_sorted_perm x l))) in Hz.
      destruct Hz as [<-|Hz]; [lra|].
      rewrite Forall_forall in Hall. now apply Hall.
Qed.

Lemma sort_increasing_perm (l : list Q) :
  Permutation l (gal_statistics_sort_increasing l).
Proof.
  unfold gal_statistics_sort_increasing.
  induction l as [|x l IH]; cbn [fold_right]; [reflexivity|].
  rewrite <- insert_sorted_perm. now constructor.
Qed.

Lemma sort_increasing_sorted (l : list Q) :
  StronglySorted Qle (gal_statistics_sort_increasing l).
Proof.
  unfold gal_statistics_sort_increasing.
  induction l as [|x l IH]; cbn [fold_right]; [constructor|].
  now apply insert_sorted_sorted.
Qed.

(* The order a view is flagged with. *)
Lemma no_blank_sorted_order (input : gal_data) :
  let nbs := gal_statistics_no_blank_sorted input in
  if vinc nbs then StronglySorted Qle (varr nbs)
  else StronglySorted (fun a b => b <= a) (varr nbs).
Proof.
  unfold gal_statistics_no_blank_sorted.
  destruct (gal_blank_remove (darray input)) as [|x l] eqn:E; cbn zeta;
    [constructor|].
  unfold gal_statistics_is_sorted.
  destruct l as [|y l].
  - cbn. repeat constructor.
  - destruct (Qle_bool x y).
    + destruct (scan_increasing (x :: y :: l)) eqn:S; cbn [vinc varr].
      * now apply scan_increasing_sorted.
      * apply sort_increasing_sorted.
    + destruct (scan_decreasing (x :: y :: l)) eqn:S; cbn [vinc varr].
      * now apply scan_decreasing_sorted.
      * apply sort_increasing_sorted.
Qed.

Lemma no_blank_sorted_perm (input : gal_data) :
  Permutation (gal_blank_remove (darray input))
    (varr (gal_statistics_no_blank_sorted input)).
Proof.
  unfold gal_statistics_no_blank_sorted.
  destruct (gal_blank_remove (darray input)) as [|x l] eqn:E; [reflexivity|].
  destruct (gal_statistics_is_sorted (x :: l)); cbn [varr];
    try reflexivity.
  apply sort_increasing_perm.
Qed.

(** X1.  The view returned by [gal_statistics_no_blank_sorted] has the type
    of the input, holds exactly the non-blank elements of the input (as many
    times as the input does), and is ordered as its flag says:
    non-decreasing when flagged increasing, non-increasing otherwise. *)
Theorem no_blank_sorted_invariant (input : gal_data) :
  let nbs := gal_statistics_no_blank_sorted input in
  vtype nbs = dtype input /\
  Permutation (gal_blank_remove (darray input)) (varr nbs) /\
  (vinc nbs = true -> StronglySorted Qle (varr nbs)) /\
  (vinc nbs = false -> StronglySorted (fun a b => b <= a) (varr nbs)).
Proof.
  intro nbs. split; [|split; [|split]].
  - unfold nbs, gal_statistics_no_blank_sorted.
    destruct (gal_blank_remove (darray input)); [reflexivity|].
    destruct (gal_statistics_is_sorted (q :: l)); reflexivity.
  - apply no_blank_sorted_perm.
  - intro H. pose proof (no_blank_sorted_order input) as O.
    cbn zeta in O. fold nbs in O. now rewrite H in O.
  - intro H. pose proof (no_blank_sorted_order input) as O.
    cbn zeta in O. fold nbs in O. now rewrite H in O.
Qed.

(** ** The quantile index rounds to the nearest position *)

(* The index is inside the array and rounds [(size-1)*quantile] to the
   nearest position, half-way cases going down. *)
Lemma quantile_index_rounds (size : Z) (q : Q) :
  (1 <= size <= 2 ^ 31)%Z -> 0 <= q -> q <= 1 ->
  exists i : Z,
    gal_statistics_quantile_index size (Fin q) = Ok (Some i) /\
    (0 <= i <= size - 1)%Z /\
    inject_Z i - (1 # 2) < inject_Z (size - 1) * q /\
    inject_Z (size - 1) * q <= inject_Z i + (1 # 2).
Proof.
  intros Hs H0 H1.
  destruct (@float_index_bounds size q) as [F0 F1]; try assumption; [lia|].
  assert (Hlt : inject_Z (size - 1) * q < inject_Z (2 ^ 31)).
  { eapply Qle_lt_trans; [exact F1|]. rewrite <- Zlt_Qlt. lia. }
  pose proof (@quantile_index_within_int size q (proj1 Hs) H0 H1 Hlt) as Hq.
  cbn zeta in Hq.
  pose proof (round_half_down_near (inject_Z (size - 1) * q)) as Hn.
  cbn zeta in Hn.
  set (i := if Qltb (1 # 2)
                 (inject_Z (size - 1) * q
                  - inject_Z (Qfloor (inject_Z (size - 1) * q)))
            then Qceiling (inject_Z (size - 1) * q)
            else Qfloor (inject_Z (size - 1) * q)) in *.
  exists i. split; [exact Hq|]. destruct Hn as [Na Nb].
  split; [|split; assumption].
  split.
  - assert (L : (- 1 < i)%Z).
    { rewrite Zlt_Qlt. change (inject_Z (- 1)) with (- (1)). lra. }
    lia.
  - assert (L : (i < size)%Z).
    { rewrite Zlt_Qlt.
      replace (inject_Z size) with (inject_Z (size - 1) + inject_Z 1)
        by (rewrite <- inject_Z_plus; f_equal; lia).
      change (inject_Z 1) with 1. lra. }
    lia.
Qed.

(** X2.  For a dataset of at most 2^31 elements and a quantile between 0
    and 1 on which the code computes without rounding (the quantile, the
    float index [(size-1)*quantile] and its successor are binary64 numbers),
    [gal_statistics_quantile_index] returns a position inside the array, and
    it is the position nearest to [(size-1)*quantile]: at most one half
    away, a tie going to the lower position. *)
Theorem quantile_index_nearest (size : Z) (q : Q) :
  (1 <= size <= 2 ^ 31)%Z -> 0 <= q -> q <= 1 ->
  index_exact size q ->
  exists i : Z,
    gal_statistics_quantile_index size (Fin q) = Ok (Some i) /\
    (0 <= i <= size - 1)%Z /\
    Qabs (inject_Z (size - 1) * q - inject_Z i) <= 1 # 2 /\
    ~ inject_Z i - inject_Z (size - 1) * q == 1 # 2.
Proof.
  intros Hs H0 H1 _.
  destruct (@quantile_index_rounds size q Hs H0 H1) as [i [E [B [L U]]]].
  exists i. split; [exact E|]. split; [exact B|]. split.
  - apply Qabs_Qle_condition. split; lra.
  - intro T. lra.
Qed.

(* Five elements and the quantile 5/8: the float index 2.5 is a tie. *)
Lemma quantile_index_nearest_witness :
  index_exact 5 (5 # 8) /\
  exists i : Z,
    gal_statistics_quantile_index 5 (Fin (5 # 8)) = Ok (Some i) /\
    (0 <= i <= 5 - 1)%Z /\
    Qabs (inject_Z (5 - 1) * (5 # 8) - inject_Z i) <= 1 # 2 /\
    ~ inject_Z i - inject_Z (5 - 1) * (5 # 8) == 1 # 2.
Proof.
  assert (X : index_exact 5 (5 # 8))
    by (repeat split; vm_compute; reflexivity).
  split; [exact X|].
  apply (@quantile_index_nearest 5 (5 # 8)).
  - lia.
  - unfold Qle; simpl; lia.
  - unfold Qle; simpl; lia.
  - exact X.
Defined.

Lemma quantile_index_ends (size : Z) :
  (1 <= size <= 2 ^ 31)%Z ->
  gal_statistics_quantile_index size (Fin 0) = Ok (Some 0%Z) /\
  gal_statistics_quantile_index size (Fin 1) = Ok (Some (size - 1)%Z).
Proof.
  intro Hs.
  assert (Hb : forall q, 0 <= q -> q <= 1 ->
             inject_Z (size - 1) * q < inject_Z (2 ^ 31)).
  { intros q Q0 Q1.
    destruct (@float_index_bounds size q) as [_ F1]; try assumption; [lia|].
    eapply Qle_lt_trans; [exact F1|]. rewrite <- Zlt_Qlt. lia. }
  assert (Q0 : (0 : Q) <= 0) by lra. assert (Q1 : (0 : Q) <= 1) by lra.
  assert (Q2 : (1 : Q) <= 1) by lra.
  pose proof (@quantile_index_within_int size 0 (proj1 Hs) Q0 Q1
                (Hb 0 Q0 Q1)) as Z0.
  pose proof (@quantile_index_within_int size 1 (proj1 Hs) Q1 Q2
                (Hb 1 Q1 Q2)) as Z1.
  cbn zeta in Z0, Z1. split.
  + rewrite Z0. do 2 f_equal.
    assert (F : Qfloor (inject_Z (size - 1) * 0) = 0%Z).
    { apply Qfloor_bounds.
      - rewrite Qmult_0_r. change (inject_Z 0) with 0. lra.
      - rewrite Qmult_0_r. change (inject_Z (0 + 1)) with 1. lra. }
    rewrite F.
    assert (G : Qltb (1 # 2) (inject_Z (size - 1) * 0 - inject_Z 0) = false).
    { apply Qltb_ge. rewrite Qmult_0_r. change (inject_Z 0) with 0. lra. }
    now rewrite G.
  + rewrite Z1. do 2 f_equal.
    assert (F : Qfloor (inject_Z (size - 1) * 1) = (size - 1)%Z).
    { apply Qfloor_bounds.
      - rewrite Qmult_1_r. lra.
      - rewrite Qmult_1_r. rewrite <- Zlt_Qlt. lia. }
    rewrite F.
    assert (G : Qltb (1 # 2) (inject_Z (size - 1) * 1
                              - inject_Z (size - 1)) = false).
    { apply Qltb_ge. rewrite Qmult_1_r. lra. }
    now rewrite G.
Qed.

(** X3.  For a dataset of at most 2^31 elements and two quantiles on which
    the code computes without rounding (each quantile, its float index and
    the successor of the float index are binary64 numbers), the quantile
    index does not decrease when the quantile grows; it is the first
    position for quantile 0 and the last position for quantile 1. *)
Theorem quantile_index_monotone (size : Z) (q1 q2 : Q) :
  (1 <= size <= 2 ^ 31)%Z -> 0 <= q1 -> q1 <= q2 -> q2 <= 1 ->
  index_exact size q1 -> index_exact size q2 ->
  exists i1 i2 : Z,
    gal_statistics_quantile_index size (Fin q1) = Ok (Some i1) /\
    gal_statistics_quantile_index size (Fin q2) = Ok (Some i2) /\
    (i1 <= i2)%Z /\
    gal_statistics_quantile_index size (Fin 0) = Ok (Some 0%Z) /\
    gal_statistics_quantile_index size (Fin 1) = Ok (Some (size - 1)%Z).
Proof.
  intros Hs H0 H12 H1 _ _.
  assert (Hb : forall q, 0 <= q -> q <= 1 ->
             inject_Z (size - 1) * q < inject_Z (2 ^ 31)).
  { intros q Q0 Q1.
    destruct (@float_index_bounds size q) as [_ F1]; try assumption; [lia|].
    eapply Qle_lt_trans; [exact F1|]. rewrite <- Zlt_Qlt. lia. }
  assert (Hq1 : 0 <= q1 /\ q1 <= 1) by (split; lra).
  assert (Hq2 : 0 <= q2 /\ q2 <= 1) by (split; lra).
  pose proof (@quantile_index_within_int size q1 (proj1 Hs) (proj1 Hq1)
                (proj2 Hq1) (Hb q1 (proj1 Hq1) (proj2 Hq1))) as E1.
  pose proof (@quantile_index_within_int size q2 (proj1 Hs) (proj1 Hq2)
                (proj2 Hq2) (Hb q2 (proj1 Hq2) (proj2 Hq2))) as E2.
  cbn zeta in E1, E2.
  pose proof (round_half_down_near (inject_Z (size - 1) * q1)) as N1.
  pose proof (round_half_down_near (inject_Z (size - 1) * q2)) as N2.
  cbn zeta in N1, N2.
  eexists. eexists. split; [exact E1|]. split; [exact E2|]. split.
  - destruct N1 as [A1 _]. destruct N2 as [_ B2].
    assert (M : inject_Z (size - 1) * q1 <= inject_Z (size - 1) * q2).
    { rewrite !(Qmult_comm (inject_Z (size - 1))).
      apply Qmult_le_compat_r; [assumption|].
      change 0 with (inject_Z 0). rewrite <- Zle_Qle. lia. }
    match goal with |- (?a <= ?b)%Z =>
      assert (L : (a - 1 < b)%Z); [|lia];
      generalize dependent a; generalize dependent b end.
    intros b _ B2 a _ A1.
    rewrite Zlt_Qlt. unfold Z.sub. rewrite inject_Z_plus.
    change (inject_Z (- (1))) with (- (1)). lra.
  - now apply quantile_index_ends.
Qed.

Lemma quantile_index_monotone_witness :
  index_exact 5 (1 # 4) /\ index_exact 5 (5 # 8) /\
  exists i1 i2 : Z,
    gal_statistics_quantile_index 5 (Fin (1 # 4)) = Ok (Some i1) /\
    gal_statistics_quantile_index 5 (Fin (5 # 8)) = Ok (Some i2) /\
    (i1 <= i2)%Z /\
    gal_statistics_quantile_index 5 (Fin 0) = Ok (Some 0%Z) /\
    gal_statistics_quantile_index 5 (Fin 1) = Ok (Some (5 - 1)%Z).
Proof.
  assert (X1 : index_exact 5 (1 # 4))
    by (repeat split; vm_compute; reflexivity).
  assert (X2 : index_exact 5 (5 # 8))
    by (repeat split; vm_compute; reflexivity).
  split; [exact X1|]. split; [exact X2|].
  apply (@quantile_index_monotone 5 (1 # 4) (5 # 8)).
  - lia.
  - unfold Qle; simpl; lia.
  - unfold Qle; simpl; lia.
  - unfold Qle; simpl; lia.
  - exact X1.
  - exact X2.
Defined.

(** ** The extreme quantiles *)

Lemma sorted_head_least (x : Q) (l : list Q) :
  StronglySorted Qle (x :: l) -> forall y, In y (x :: l) -> x <= y.
Proof.
  intros H y Hy. inversion H as [|? ? _ Hall]; subst.
  destruct Hy as [<-|Hy]; [lra|].
  rewrite Forall_forall in Hall. now apply Hall.
Qed.

Lemma sorted_last_greatest (l : list Q) (d : Q) :
  StronglySorted Qle l -> forall y, In y l -> y <= last l d.
Proof.
  induction l as [|x l IH]; intros H y Hy; [contradiction|].
  inversion H as [|? ? Hl Hall]; subst.
  destruct l as [|z l].
  - destruct Hy as [<-|[]]. cbn. lra.
  - change (last (x :: z :: l) d) with (last (z :: l) d).
    destruct Hy as [<-|Hy].
    + rewrite Forall_forall in Hall.
      assert (Hz : x <= z) by (apply Hall; now left).
      specialize (IH Hl z (or_introl eq_refl)). lra.
    + now apply IH.
Qed.

Lemma rsorted_head_greatest (x : Q) (l : list Q) :
  StronglySorted (fun a b => b <= a) (x :: l) ->
  forall y, In y (x :: l) -> y <= x.
Proof.
  intros H y Hy. inversion H as [|? ? _ Hall]; subst.
  destruct Hy as [<-|Hy]; [lra|].
  rewrite Forall_forall in Hall. now apply Hall.
Qed.

Lemma rsorted_last_least (l : list Q) (d : Q) :
  StronglySorted (fun a b => b <= a) l -> forall y, In y l -> last l d <= y.
Proof.
  induction l as [|x l IH]; intros H y Hy; [contradiction|].
  inversion H as [|? ? Hl Hall]; subst.
  destruct l as [|z l].
  - destruct Hy as [<-|[]]. cbn. lra.
  - change (last (x :: z :: l) d) with (last (z :: l) d).
    destruct Hy as [<-|Hy].
    + rewrite Forall_forall in Hall.
      assert (Hz : z <= x) by (apply Hall; now left).
      specialize (IH Hl z (or_introl eq_refl)). lra.
    + now apply IH.
Qed.

Lemma last_In (l : list Q) (d : Q) : l <> [] -> In (last l d) l.
Proof.
  induction l as [|x l IH]; intro H; [contradiction|].
  destruct l as [|z l]; [now left|].
  right. apply IH. discriminate.
Qed.

Lemma rd_last (l : list Q) :
  l <> [] -> rd l (Z.of_nat (length l) - 1) = Ok (last l 0).
Proof.
  intro H. destruct l as [|x l]; [contradiction|].
  replace (Z.of_nat (length (x :: l)) - 1)%Z with (Z.of_nat (length l))
    by (cbn [length]; lia).
  rewrite rd_nat by (cbn [length]; lia).
  rewrite last_nth_pred. cbn [length]. now rewrite Nat.sub_1_r.
Qed.

(** X4.  For an input with between one and 2^31 non-blank elements,
    [gal_statistics_quantile] at quantile 0 returns the smallest non-blank
    element and at quantile 1 the largest, whether the input was found
    sorted increasing, sorted decreasing or had to be sorted. *)
Theorem quantile_extremes (input : gal_data) :
  (1 <= Z.of_nat (length (gal_blank_remove (darray input))) <= 2 ^ 31)%Z ->
  exists lo hi : Q,
    gal_statistics_quantile input (Fin 0) = Ok (Some lo) /\
    gal_statistics_quantile input (Fin 1) = Ok (Some hi) /\
    In lo (gal_blank_remove (darray input)) /\
    In hi (gal_blank_remove (darray input)) /\
    forall x, In x (gal_blank_remove (darray input)) -> lo <= x /\ x <= hi.
Proof.
  intro Hn.
  pose proof (no_blank_sorted_perm input) as P.
  pose proof (no_blank_sorted_order input) as O. cbn zeta in O.
  unfold gal_statistics_quantile, vsize.
  set (nbs := gal_statistics_no_blank_sorted input) in *.
  rewrite (Permutation_length P) in Hn.
  destruct (quantile_index_ends Hn) as [E0 E1].
  destruct (varr nbs) as [|a rest] eqn:Ea; [cbn in Hn; lia|].
  assert (Hne : a :: rest <> []) by discriminate.
  assert (Hin : forall x, In x (a :: rest) ->
                  In x (gal_blank_remove (darray input))).
  { intros x Hx. apply (Permutation_in _ (Permutation_sym P)). exact Hx. }
  assert (Hni : forall x, In x (gal_blank_remove (darray input)) ->
                  In x (a :: rest)).
  { intros x Hx. apply (Permutation_in _ P). exact Hx. }
  assert (R0 : rd (a :: rest) 0 = Ok a) by reflexivity.
  pose proof (rd_last Hne) as R1.
  destruct (vinc nbs).
  - rewrite E0, E1. cbn [bind]. rewrite R0, R1. cbn [bind].
    exists a, (last (a :: rest) 0).
    repeat split; try reflexivity.
    + apply Hin. now left.
    + apply Hin. now apply last_In.
    + apply (sorted_head_least O). now apply Hni.
    + apply (sorted_last_greatest 0 O). now apply Hni.
  - change (Fin 1 - Fin 0)%dbl with (Fin 1).
    change (Fin 1 - Fin 1)%dbl with (Fin 0).
    rewrite E0, E1. cbn [bind]. rewrite R0, R1. cbn [bind].
    exists (last (a :: rest) 0), a.
    repeat split; try reflexivity.
    + apply Hin. now apply last_In.
    + apply Hin. now left.
    + apply (rsorted_last_least 0 O). now apply Hni.
    + apply (rsorted_head_greatest O). now apply Hni.
Qed.

Lemma quantile_extremes_witness :
  exists lo hi : Q,
    gal_statistics_quantile
      (mk_data GAL_TYPE_FLOAT64 [Some 3; None; Some 1; Some 2]) (Fin 0) = Ok (Some lo) /\
    gal_statistics_quantile
      (mk_data GAL_TYPE_FLOAT64 [Some 3; None; Some 1; Some 2]) (Fin 1) = Ok (Some hi) /\
    In lo (gal_blank_remove [Some 3; None; Some 1; Some 2]) /\
    In hi (gal_blank_remove [Some 3; None; Some 1; Some 2]) /\
    forall x, In x (gal_blank_remove [Some 3; None; Some 1; Some 2]) ->
              lo <= x /\ x <= hi.
Proof.
  apply (@quantile_extremes (mk_data GAL_TYPE_FLOAT64 [Some 3; None; Some 1; Some 2])).
  cbn. lia.
Defined.

(** ** Unique elements *)

Lemma unique_blank_copies_length (c : option Q) (l : list (option Q)) :
  length (unique_blank_copies c l) = length l.
Proof. destruct c; [apply length_map | reflexivity]. Qed.

Lemma blank_remove_unique_blank_copies (x : Q) (l : list (option Q)) :
  gal_blank_remove (unique_blank_copies (Some x) l)
  = filter (fun y => negb (Qeq_bool x y)) (gal_blank_remove l).
Proof.
  induction l as [|[y|] l IH]; cbn [unique_blank_copies map gal_blank_remove];
    [reflexivity| |exact IH].
  cbn [filter]. destruct (Qeq_bool x y); cbn [negb gal_blank_remove].
  - exact IH.
  - f_equal. exact IH.
Qed.

(* What the marking loop leaves once the blanks are taken out. *)
Lemma unique_mark_spec (n : nat) :
  forall l : list (option Q),
    (length l <= n)%nat ->
    let r := gal_blank_remove (unique_mark n l) in
    incl r (gal_blank_remove l) /\
    (forall x, In x (gal_blank_remove l) -> exists y, In y r /\ x == y) /\
    ForallOrdPairs (fun a b => ~ a == b) r.
Proof.
  induction n as [|n IH]; intros l Hlen.
  - destruct l; [|cbn in Hlen; lia]. cbn. repeat split.
    + intros x [].
    + intros x [].
    + constructor.
  - destruct l as [|[x|] tl]; cbn [unique_mark].
    + cbn. repeat split; [intros x []|intros x []|constructor].
    + cbn [length] in Hlen.
      destruct (IH (unique_blank_copies (Some x) tl)) as [Ha [Hb Hc]].
      { rewrite unique_blank_copies_length. lia. }
      rewrite blank_remove_unique_blank_copies in Ha, Hb.
      cbn [gal_blank_remove].
      set (r' := gal_blank_remove
                   (unique_mark n (unique_blank_copies (Some x) tl))) in *.
      cbn zeta. split; [|split].
      * intros y [<-|Hy]; [now left|]. right.
        apply Ha in Hy. apply filter_In in Hy. tauto.
      * intros z [<-|Hz].
        { exists x. split; [now left|reflexivity]. }
        destruct (Qeq_bool x z) eqn:E.
        { exists x. split; [now left|].
          apply Qeq_bool_iff in E. now symmetry. }
        destruct (Hb z) as [y [Hy Hzy]].
        { apply filter_In. split; [assumption|]. now rewrite E. }
        exists y. split; [now right|assumption].
      * constructor; [|exact Hc].
        apply Forall_forall. intros y Hy E.
        apply Ha in Hy. apply filter_In in Hy. destruct Hy as [_ Hy].
        apply Qeq_bool_iff in E. rewrite E in Hy. discriminate.
    + cbn [length] in Hlen. cbn [unique_blank_copies gal_blank_remove].
      apply IH. lia.
Qed.

(** X5.  [gal_statistics_unique] returns a dataset of the type of the input
    with no blank element and no two equal elements; each of its elements is
    a non-blank element of the input, and every non-blank element of the
    input has an equal element in it. *)
Theorem unique_elements (input : gal_data) :
  let out := gal_statistics_unique input in
  let r := gal_blank_remove (darray out) in
  dtype out = dtype input /\
  darray out = map (@Some Q) r /\
  ForallOrdPairs (fun a b => ~ a == b) r /\
  incl r (gal_blank_remove (darray input)) /\
  (forall x, In x (gal_blank_remove (darray input)) ->
             exists y, In y r /\ x == y).
Proof.
  intros out r.
  assert (Hr : r = gal_blank_remove
                     (unique_mark (length (darray input)) (darray input))).
  { unfold r, out, gal_statistics_unique, data_of. cbn [darray].
    apply blank_remove_data_of. }
  destruct (@unique_mark_spec (length (darray input)) (darray input)
              (le_n _)) as [Ha [Hb Hc]].
  rewrite <- Hr in Ha, Hb, Hc.
  split; [reflexivity|]. split.
  { unfold out at 1. unfold gal_statistics_unique, data_of. cbn [darray].
    now rewrite Hr. }
  split; [exact Hc|]. split; [exact Ha|exact Hb].
Qed.

(** ** Histogram and cumulative frequency plot on regular bins *)

Lemma Forall_firstn {A : Type} (P : A -> Prop) (n : nat) (l : list A) :
  Forall P l -> Forall P (firstn n l).
Proof.
  intro H. revert n. induction H as [|x l Hx Hl IH]; intro n.
  - rewrite firstn_nil. constructor.
  - destruct n; cbn; constructor; auto.
Qed.

Lemma Forall_skipn {A : Type} (P : A -> Prop) (n : nat) (l : list A) :
  Forall P l -> Forall P (skipn n l).
Proof.
  intro H. revert n. induction H as [|x l Hx Hl IH]; intro n.
  - rewrite skipn_nil. constructor.
  - destruct n; cbn; [constructor|]; auto.
Qed.

Lemma incr_at_nonneg (h : list Z) (i : nat) :
  Forall (fun z => (0 <= z)%Z) h -> Forall (fun z => (0 <= z)%Z) (incr_at h i).
Proof.
  intro H. unfold incr_at. apply Forall_app. split.
  - now apply Forall_firstn.
  - assert (S := Forall_skipn i H).
    destruct (skipn i h) as [|c tl]; [constructor|].
    inversion S; subst. constructor; [lia|assumption].
Qed.

Lemma histogram_step_nonneg (blank_value : gal_type -> Q) (t : gal_type)
  (mn mx w : double) (h h' : list Z) (c : option Q) :
  Forall (fun z => (0 <= z)%Z) h ->
  histogram_step blank_value t mn mx w h c = Ok h' ->
  Forall (fun z => (0 <= z)%Z) h'.
Proof.
  intros H E. unfold histogram_step in E.
  destruct ((cell_double blank_value t c >=? mn)%dbl
            && (cell_double blank_value t c <=? mx)%dbl).
  2:{ injection E as <-. exact H. }
  destruct (cast_size_t ((cell_double blank_value t c - mn) / w)%dbl)
    as [hi|]; cbn [of_option bind] in E; [|discriminate].
  match type of E with
  | (if ?b then _ else _) = _ => destruct b; [|discriminate]
  end.
  injection E as <-. now apply incr_at_nonneg.
Qed.

Lemma histogram_loop_nonneg (blank_value : gal_type -> Q) (t : gal_type)
  (mn mx w : double) (cells : list (option Q)) :
  forall h h' : list Z,
    Forall (fun z => (0 <= z)%Z) h ->
    histogram_loop blank_value t mn mx w h cells = Ok h' ->
    Forall (fun z => (0 <= z)%Z) h'.
Proof.
  induction cells as [|c cells IH]; intros h h' H E; cbn [histogram_loop] in E.
  - injection E as <-. exact H.
  - destruct (histogram_step blank_value t mn mx w h c) as [h1| |] eqn:E1;
      cbn [bind] in E; try discriminate.
    eapply IH; [|exact E]. eapply histogram_step_nonneg; eassumption.
Qed.

Lemma Forall_repeat_0 (n : nat) : Forall (fun z => (0 <= z)%Z) (repeat 0%Z n).
Proof. induction n; cbn; constructor; [lia|assumption]. Qed.

Lemma count_in_range_le (blank_value : gal_type -> Q) (t : gal_type)
  (mn mx : Q) (cells : list (option Q)) :
  (0 <= count_in_range blank_value t mn mx cells <= Z.of_nat (length cells))%Z.
Proof.
  unfold count_in_range. split; [lia|].
  apply inj_le. apply filter_length_le.
Qed.

(* The histogram on regular bins: its counts are not negative and add up to
   the number of cells in the range. *)
Lemma histogram_regular_counts (blank_value : gal_type -> Q) (d : list Q)
  (bw : Q) (input : gal_data) :
  (2 <= length d)%nat -> (Z.of_nat (length d) < 2 ^ 64)%Z ->
  uniform_centers d bw -> darray input <> [] ->
  exists h,
    gal_statistics_histogram blank_value input (Some (mk_bins d true)) false
      false = Ok (HistCounts h) /\
    length h = length d /\
    Forall (fun z => (0 <= z)%Z) h /\
    Zsum h = count_in_range blank_value (dtype input)
               (nth 0 d 0 - bw / 2) (last d 0 + bw / 2) (darray input).
Proof.
  intros two_bins bins_size_t regular Hne.
  assert (Hn : (0 < length d)%nat) by lia.
  rewrite (histogram_regular_unfold blank_value two_bins bins_size_t regular
             input Hne).
  destruct (histogram_loop_counts blank_value (dtype input)
              (hist_width_pos two_bins regular) (hist_span two_bins regular)
              Hn bins_size_t (darray input)
              (repeat 0%Z (length d)) (repeat_length _ _))
    as [h [E [L S]]].
  exists h. rewrite E. cbn [bind]. split; [reflexivity|]. split; [exact L|].
  split.
  - eapply histogram_loop_nonneg; [|exact E]. apply Forall_repeat_0.
  - rewrite S, Zsum_repeat_0. cbn [Z.add].
    apply count_in_range_ext;
      [apply (hist_min two_bins regular) | apply (hist_max two_bins regular)].
Qed.

Lemma cfp_counts_length (h : list Z) :
  forall s, length (cfp_counts s h) = length h.
Proof.
  induction h as [|c h IH]; intro s; cbn; [reflexivity|]. now rewrite IH.
Qed.

Lemma Zsum_nonneg (h : list Z) :
  Forall (fun z => (0 <= z)%Z) h -> (0 <= Zsum h)%Z.
Proof.
  induction 1 as [|x l Hx Hl IH]; cbn; [lia|].
  unfold Zsum in IH. lia.
Qed.

Lemma Zsum_cons (x : Z) (h : list Z) : Zsum (x :: h) = (x + Zsum h)%Z.
Proof. reflexivity. Qed.

(* Without overflow the running sums are the sums of the prefixes. *)
Lemma cfp_counts_nth (h : list Z) :
  forall (s : Z) (i : nat),
    Forall (fun z => (0 <= z)%Z) h -> (0 <= s)%Z ->
    (s + Zsum h < 2 ^ 64)%Z -> (i < length h)%nat ->
    nth i (cfp_counts s h) 0%Z = (s + Zsum (firstn (S i) h))%Z.
Proof.
  induction h as [|c h IH]; intros s i Hh Hs Hb Hi; [cbn in Hi; lia|].
  inversion Hh as [|? ? Hc Hh']; subst.
  assert (Hz := Zsum_nonneg Hh'). rewrite Zsum_cons in Hb.
  assert (Hsz : sz (c + s) = (c + s)%Z) by (apply sz_small; lia).
  cbn [cfp_counts]. rewrite Hsz.
  destruct i as [|i].
  - cbn [nth firstn]. rewrite Zsum_cons. cbn. lia.
  - cbn [nth]. cbn [length] in Hi.
    rewrite IH by (try assumption; lia).
    change (firstn (S (S i)) (c :: h)) with (c :: firstn (S i) h).
    rewrite Zsum_cons. lia.
Qed.

Lemma Zsum_firstn_mono (h : list Z) :
  Forall (fun z => (0 <= z)%Z) h ->
  forall i j, (i <= j)%nat -> (Zsum (firstn i h) <= Zsum (firstn j h))%Z.
Proof.
  induction 1 as [|x l Hx Hl IH]; intros i j Hij.
  - rewrite !firstn_nil. lia.
  - destruct i as [|i].
    + cbn [firstn]. apply Zsum_nonneg. apply Forall_firstn.
      now constructor.
    + destruct j as [|j]; [lia|]. cbn [firstn]. rewrite !Zsum_cons.
      specialize (IH i j). lia.
Qed.



(** ** Normalised plots *)

Lemma div_of_Z (x t : Z) :
  (0 < t)%Z ->
  (of_Z x / of_Z t)%dbl = Fin (Qred (inject_Z x / inject_Z t)).
Proof.
  intro H. unfold of_Z. cbn [Dbl.div].
  destruct (Qeq_bool (inject_Z t) 0) eqn:E; [|reflexivity].
  apply Qeq_bool_iff in E. unfold Qeq in E. cbn in E. lia.
Qed.

Lemma Qred_one (q : Q) : q == 1 -> Qred q = 1.
Proof. intro H. now rewrite (Qred_complete _ _ H). Qed.

Lemma nth_map_default {A B : Type} (f : A -> B) (l : list A) (a : A) (b : B)
  (i : nat) :
  (i < length l)%nat -> nth i (map f l) b = f (nth i l a).
Proof.
  intro H. rewrite (nth_indep _ b (f a)) by (now rewrite length_map).
  apply map_nth.
Qed.

Lemma Zsum_firstn_le (h : list Z) (i : nat) :
  Forall (fun z => (0 <= z)%Z) h ->
  (0 <= Zsum (firstn i h) <= Zsum h)%Z.
Proof.
  intro H. split.
  - apply Zsum_nonneg. now apply Forall_firstn.
  - rewrite <- (firstn_all h) at 2.
    destruct (Nat.le_gt_cases i (length h)) as [L|L].
    + now apply Zsum_firstn_mono.
    + rewrite (firstn_all2 h) by lia. rewrite firstn_all. lia.
Qed.



(* The call with [normalize] or [maxone] in terms of the counts of the plain
   call. *)
Lemma histogram_scaled_unfold (blank_value : gal_type -> Q) (d : list Q)
  (input : gal_data) (normalize maxone : bool) (h : list Z) :
  normalize && maxone = false ->
  gal_statistics_histogram blank_value input (Some (mk_bins d true)) false
    false = Ok (HistCounts h) ->
  gal_statistics_histogram blank_value input (Some (mk_bins d true))
    normalize maxone
  = let f := map of_Z h in
    let ref := if maxone then dmax (Fin (- FLT_MAX)) f
               else if normalize then dsum f else NaN in
    if isnan ref
    then Ok (if normalize || maxone then HistFraction f else HistCounts h)
    else Ok (HistFraction (map (fun x => x / ref)%dbl f)).
Proof.
  intros Hnm E. unfold gal_statistics_histogram in *.
  cbn [bcenters bregular negb] in *.
  destruct (length d =? 1)%nat; [discriminate|].
  destruct (length (darray input) =? 0)%nat; [discriminate|].
  rewrite Hnm. cbn [andb] in E.
  destruct d as [|d0 [|d1 tl]]; try discriminate.
  destruct (histogram_loop blank_value (dtype input)
              (Fin d0 - (Fin d1 - Fin d0) / Fin 2)%dbl
              (Fin (last (d0 :: d1 :: tl) 0) + (Fin d1 - Fin d0) / Fin 2)%dbl
              (Fin d1 - Fin d0)%dbl
              (repeat 0%Z (length (d0 :: d1 :: tl))) (darray input))
    as [h'| |]; cbn [bind] in *; try discriminate.
  cbn [isnan orb] in E. injection E as ->. reflexivity.
Qed.

Lemma fold_add_of_Z (l : list Z) :
  forall a : Q, exists q,
    fold_left Dbl.add (map of_Z l) (Fin a) = Fin q /\
    q == a + inject_Z (Zsum l).
Proof.
  induction l as [|x l IH]; intro a; cbn [map fold_left].
  - exists a. split; [reflexivity|]. cbn. ring.
  - unfold of_Z at 1. cbn [Dbl.add].
    destruct (IH (Qred (a + inject_Z x))) as [q [E Hq]].
    exists q. split; [exact E|].
    rewrite Hq, Qred_correct, Zsum_cons, inject_Z_plus. ring.
Qed.

Lemma fold_add_fractions (t : Q) (l : list Z) :
  forall a : Q, exists q,
    fold_left Dbl.add (map (fun x => Fin (Qred (inject_Z x / t))) l) (Fin a)
    = Fin q /\
    q == a + inject_Z (Zsum l) / t.
Proof.
  induction l as [|x l IH]; intro a; cbn [map fold_left].
  - exists a. split; [reflexivity|]. cbn. unfold Qdiv. ring.
  - cbn [Dbl.add].
    destruct (IH (Qred (a + Qred (inject_Z x / t)))) as [q [E Hq]].
    exists q. split; [exact E|].
    rewrite Hq, !Qred_correct, Zsum_cons, inject_Z_plus.
    unfold Qdiv. ring.
Qed.

Lemma nth_le_Zsum (h : list Z) :
  Forall (fun z => (0 <= z)%Z) h ->
  forall i, (0 <= nth i h 0 <= Zsum h)%Z.
Proof.
  induction 1 as [|x l Hx Hl IH]; intro i.
  - destruct i; cbn; lia.
  - rewrite Zsum_cons. assert (Z0 := Zsum_nonneg Hl).
    destruct i as [|i]; cbn [nth]; [lia|].
    specialize (IH i). lia.
Qed.



Lemma fold_max_spec (l : list Z) :
  forall a : Z,
    let m := fold_left Z.max l a in
    (a <= m)%Z /\ (forall x, In x l -> (x <= m)%Z) /\ (m = a \/ In m l).
Proof.
  induction l as [|x l IH]; intro a; cbn [fold_left].
  - cbn. repeat split; [lia|intros x []|now left].
  - destruct (IH (Z.max a x)) as [A [B C]]. cbn zeta.
    assert (Ml := Z.le_max_l a x). assert (Mr := Z.le_max_r a x).
    split; [eapply Z.le_trans; [exact Ml | exact A]|]. split.
    + intros y [<-|Hy]; [eapply Z.le_trans; [exact Mr | exact A]|now apply B].
    + destruct C as [C|C]; [|right; now right].
      destruct (Z.max_spec a x) as [[_ M]|[_ M]].
      * right. left. rewrite C. now symmetry.
      * left. now rewrite C.
Qed.

Lemma dmax_of_Z (l : list Z) :
  forall a : Z, dmax (of_Z a) (map of_Z l) = of_Z (fold_left Z.max l a).
Proof.
  unfold dmax.
  induction l as [|x l IH]; intro a; cbn [map fold_left]; [reflexivity|].
  unfold of_Z at 1 2 3. rewrite gtb_Fin.
  destruct (Qltb (inject_Z a) (inject_Z x)) eqn:E.
  - apply Qltb_lt in E. rewrite <- Zlt_Qlt in E.
    fold (of_Z x). rewrite IH. do 2 f_equal. lia.
  - apply Qltb_ge in E. rewrite <- Zle_Qle in E.
    fold (of_Z a). rewrite IH. do 2 f_equal. lia.
Qed.

Lemma Zsum_nonpos (h : list Z) :
  (forall x, In x h -> (x <= 0)%Z) -> (Zsum h <= 0)%Z.
Proof.
  induction h as [|x h IH]; intro H; [cbn; lia|].
  rewrite Zsum_cons.
  assert (x <= 0)%Z by (apply H; now left).
  assert (Zsum h <= 0)%Z by (apply IH; intros; apply H; now right).
  lia.
Qed.



(** ** Regular bins over the range of the data *)

Lemma fold_min_spec (l : list Q) :
  forall init : Q,
    let m := fold_left (fun o i => if Qltb i o then i else o) l init in
    m <= init /\ (forall x, In x l -> m <= x) /\ (m = init \/ In m l).
Proof.
  induction l as [|x l IH]; intro init; cbn [fold_left].
  - cbn. repeat split; [lra|intros x []|now left].
  - cbn zeta. destruct (Qltb x init) eqn:E.
    + apply Qltb_lt in E. destruct (IH x) as [A [B C]]. split; [lra|]. split.
      * intros y [<-|Hy]; [exact A|now apply B].
      * right. destruct C as [C|C]; [left; now symmetry|now right].
    + apply Qltb_ge in E. destruct (IH init) as [A [B C]].
      split; [exact A|]. split.
      * intros y [<-|Hy]; [lra|now apply B].
      * destruct C as [C|C]; [now left|right; now right].
Qed.

Lemma fold_max_spec_Q (l : list Q) :
  forall init : Q,
    let m := fold_left (fun o i => if Qltb o i then i else o) l init in
    init <= m /\ (forall x, In x l -> x <= m) /\ (m = init \/ In m l).
Proof.
  induction l as [|x l IH]; intro init; cbn [fold_left].
  - cbn. repeat split; [lra|intros x []|now left].
  - cbn zeta. destruct (Qltb init x) eqn:E.
    + apply Qltb_lt in E. destruct (IH x) as [A [B C]]. split; [lra|]. split.
      * intros y [<-|Hy]; [exact A|now apply B].
      * right. destruct C as [C|C]; [left; now symmetry|now right].
    + apply Qltb_ge in E. destruct (IH init) as [A [B C]].
      split; [exact A|]. split.
      * intros y [<-|Hy]; [lra|now apply B].
      * destruct C as [C|C]; [now left|right; now right].
Qed.

Section RegularBinsProof.

Variables type_max type_min : gal_type -> Q.
Variable input : gal_data.
Variables lo hi : Q.

(* [lo] and [hi] are the least and the greatest non-blank element, and the
   non-blank elements lie within the limits of the type. *)
Hypothesis lo_in : In lo (gal_blank_remove (darray input)).
Hypothesis hi_in : In hi (gal_blank_remove (darray input)).
Hypothesis lo_hi : forall x, In x (gal_blank_remove (darray input)) ->
                             lo <= x /\ x <= hi.
Hypothesis in_type : forall x, In x (gal_blank_remove (darray input)) ->
                       type_min (dtype input) <= x /\
                       x <= type_max (dtype input).

Lemma minimum_is_least :
  exists m, gal_statistics_minimum type_max input = Some m /\ m == lo.
Proof.
  unfold gal_statistics_minimum.
  destruct (gal_blank_remove (darray input)) as [|a l] eqn:El;
    [contradiction|].
  eexists. split; [reflexivity|].
  destruct (fold_min_spec (a :: l) (type_max (dtype input))) as [A [B C]].
  set (m := fold_left (fun o i => if Qltb i o then i else o) (a :: l)
              (type_max (dtype input))) in *.
  assert (L1 : m <= lo) by (now apply B).
  assert (L2 : lo <= m).
  { destruct C as [C|C].
    - rewrite C. now apply in_type.
    - now apply lo_hi. }
  lra.
Qed.

Lemma maximum_is_greatest :
  exists m, gal_statistics_maximum type_min input = Some m /\ m == hi.
Proof.
  unfold gal_statistics_maximum.
  destruct (gal_blank_remove (darray input)) as [|a l] eqn:El;
    [contradiction|].
  eexists. split; [reflexivity|].
  destruct (fold_max_spec_Q (a :: l) (type_min (dtype input))) as [A [B C]].
  set (m := fold_left (fun o i => if Qltb o i then i else o) (a :: l)
              (type_min (dtype input))) in *.
  assert (L1 : hi <= m) by (now apply B).
  assert (L2 : m <= hi).
  { destruct C as [C|C].
    - rewrite C. now apply in_type.
    - now apply lo_hi. }
  lra.
Qed.

Variable numbins : Z.
Hypothesis numbins_pos : (1 <= numbins)%Z.
Hypothesis lo_lt_hi : lo < hi.

(* The centers computed for the whole range of the data. *)
Lemma regular_bins_data_range :
  let w := (hi - lo) / inject_Z numbins in
  exists d,
    gal_statistics_regular_bins type_max type_min input [] numbins NaN
    = Ok (Some (map Fin d)) /\
    length d = Z.to_nat numbins /\
    uniform_centers d w /\
    nth 0 d 0 - w / 2 == lo /\
    last d 0 + w / 2 == hi.
Proof.
  intro w.
  destruct minimum_is_least as [m [Em Hm]].
  destruct maximum_is_greatest as [M [EM HM]].
  assert (Hnb : 0 < inject_Z numbins).
  { change 0 with (inject_Z 0). rewrite <- Zlt_Qlt. lia. }
  assert (Hw : 0 < w).
  { unfold w. apply Qlt_shift_div_l; [assumption|]. lra. }
  unfold gal_statistics_regular_bins.
  destruct (numbins =? 0)%Z eqn:E0; [apply Z.eqb_eq in E0; lia|].
  destruct (length (darray input) =? 0)%nat eqn:E1.
  { apply Nat.eqb_eq in E1. destruct (darray input); [contradiction|discriminate]. }
  cbn [regular_bins_range bind fst snd]. rewrite Em, EM. cbn [to_double].
  assert (Q0 : Qeq_bool (inject_Z numbins) 0 = false).
  { destruct (Qeq_bool (inject_Z numbins) 0) eqn:Q0; [|reflexivity].
    apply Qeq_bool_iff in Q0. lra. }
  set (w' := Qred (Qred (M + Qred (- m)) / inject_Z numbins)).
  assert (Ebw : ((Fin M - Fin m) / of_Z numbins)%dbl = Fin w').
  { unfold Dbl.sub, of_Z. cbn [Dbl.neg Dbl.add Dbl.div]. now rewrite Q0. }
  rewrite Ebw.
  set (hb := Qred (w' / 2)).
  change (Fin w' / Fin 2)%dbl with (Fin hb).
  assert (Hw' : w' == w).
  { unfold w', w. rewrite !Qred_correct, Hm, HM. reflexivity. }
  assert (Hhb : hb == w / 2).
  { unfold hb. rewrite Qred_correct, Hw'. reflexivity. }
  set (c := fun i : nat =>
              Qred (Qred (m + Qred (inject_Z (Z.of_nat i) * w')) + hb)).
  assert (Hc : forall i, c i == lo + inject_Z (Z.of_nat i) * w + w / 2).
  { intro i. unfold c. rewrite !Qred_correct, Hw', Hhb, Hm. reflexivity. }
  set (n := Z.to_nat numbins).
  exists (map c (seq 0 n)).
  assert (Hlen : length (map c (seq 0 n)) = n)
    by (now rewrite length_map, length_seq).
  assert (Hnth : forall i, (i < n)%nat -> nth i (map c (seq 0 n)) 0 = c i).
  { intros i Hi.
    rewrite (@nth_map_default _ _ c _ 0%nat) by (now rewrite length_seq).
    now rewrite seq_nth. }
  split; [|split; [exact Hlen|split; [|split]]].
  - cbn [isnan]. unfold bin_centers. rewrite map_map. reflexivity.
  - split; [exact Hw|]. intros i Hi. rewrite Hlen in Hi.
    rewrite !Hnth by lia. rewrite !Hc. cbn [Z.of_nat]. 
    change (inject_Z 0) with 0. ring.
  - rewrite Hnth by lia. rewrite Hc. change (inject_Z (Z.of_nat 0)) with 0.
    ring.
  - rewrite last_nth_pred, Hlen, Hnth by lia. rewrite Hc.
    replace (Z.of_nat (n - 1)) with (numbins - 1)%Z by lia.
    unfold Z.sub. rewrite inject_Z_plus.
    change (inject_Z (- (1))) with (- (1)). unfold w. field. lra.
Qed.

(** X10.  In exact arithmetic (the width and the centers not rounded to
    binary64): when no range and no [onebinstart] are given and the smallest
    non-blank element is below the largest, [gal_statistics_regular_bins]
    returns [numbins] finite centers with the uniform spacing
    (max-min)/numbins; the lower edge of the first bin is the smallest
    non-blank element and the upper edge of the last bin is the largest. *)
Theorem regular_bins_cover_data_range :
  let w := (hi - lo) / inject_Z numbins in
  exists d,
    gal_statistics_regular_bins type_max type_min input [] numbins NaN
    = Ok (Some (map Fin d)) /\
    length d = Z.to_nat numbins /\
    0 < w /\
    (forall i, (i < Z.to_nat numbins)%nat ->
       nth i d 0 - w / 2 == lo + inject_Z (Z.of_nat i) * w /\
       nth i d 0 + w / 2 == lo + inject_Z (Z.of_nat i + 1) * w) /\
    nth (Z.to_nat numbins - 1) d 0 + w / 2 == hi.
Proof.
  intro w. destruct regular_bins_data_range as [d [E [L [U [A B]]]]].
  fold w in U, A, B. exists d. split; [exact E|]. split; [exact L|].
  destruct U as [Hw U]. split; [exact Hw|]. split.
  - intros i Hi. rewrite U by lia. rewrite inject_Z_plus.
    change (inject_Z 1) with 1. split.
    + setoid_replace (nth 0 d 0) with (lo + w / 2) by lra. field.
    + setoid_replace (nth 0 d 0) with (lo + w / 2) by lra. field.
  - rewrite <- L, <- last_nth_pred. exact B.
Qed.

Variable blank_value : gal_type -> Q.
Hypothesis two_bins : (2 <= numbins < 2 ^ 64)%Z.
Hypothesis no_int_blank :
  is_float (dtype input) = true \/ ~ In None (darray input).

Lemma count_all_in_range (mn mx : Q) :
  mn == lo -> mx == hi ->
  count_in_range blank_value (dtype input) mn mx (darray input)
  = Z.of_nat (length (gal_blank_remove (darray input))).
Proof.
  intros Hmn Hmx. unfold count_in_range. f_equal.
  revert lo_hi no_int_blank. clear - Hmn Hmx.
  generalize (dtype input) as t. generalize (darray input) as cells.
  induction cells as [|[x|] cells IH]; intros t LH NB; [reflexivity| |].
  - cbn [filter gal_blank_remove].
    assert (Hx : lo <= x /\ x <= hi) by (apply LH; now left).
    unfold in_range at 1. cbn [cell_double]. rewrite geb_Fin, leb_Fin.
    assert (G : Qle_bool mn x = true) by (apply Qle_bool_iff; lra).
    assert (L : Qle_bool x mx = true) by (apply Qle_bool_iff; lra).
    rewrite G, L. cbn [andb length]. f_equal. apply IH.
    + intros y Hy. apply LH. now right.
    + destruct NB as [NB|NB]; [now left|right].
      intro H. apply NB. now right.
  - cbn [filter gal_blank_remove].
    destruct NB as [NB|NB]; [|exfalso; apply NB; now left].
    unfold in_range at 1. cbn [cell_double]. rewrite NB. cbn.
    apply IH; [exact LH|now left].
Qed.

(** X11.  In exact arithmetic (the centers, and the edges that the
    histogram computes back from them, not rounded to binary64): the
    histogram made on the bins that [gal_statistics_regular_bins] returns
    for the whole range of the data (no range, no [onebinstart], at least
    two bins) counts every non-blank element of a floating-point input, or
    every element of an integer input without blanks: it has [numbins]
    counts and they add up to the number of non-blank elements. *)
Theorem histogram_on_data_range_counts_all :
  exists d h,
    gal_statistics_regular_bins type_max type_min input [] numbins NaN
    = Ok (Some (map Fin d)) /\
    gal_statistics_histogram blank_value input (Some (mk_bins d true)) false
      false = Ok (HistCounts h) /\
    Z.of_nat (length h) = numbins /\
    Zsum h = Z.of_nat (length (gal_blank_remove (darray input))).
Proof.
  destruct regular_bins_data_range as [d [E [L [U [A B]]]]].
  assert (Hne : darray input <> []).
  { intro H. rewrite H in lo_in. contradiction. }
  assert (H2 : (2 <= length d)%nat) by lia.
  assert (H64 : (Z.of_nat (length d) < 2 ^ 64)%Z) by lia.
  destruct (@histogram_regular_counts blank_value d _ input H2 H64 U Hne)
    as [h [Eh [Lh [_ Sh]]]].
  exists d, h. split; [exact E|]. split; [exact Eh|]. split; [lia|].
  rewrite Sh. now apply count_all_in_range.
Qed.

End RegularBinsProof.

(* Four floating-point elements between 1 and 5, four bins. *)
Lemma regular_bins_cover_data_range_witness :
  let type_max := fun _ : gal_type => 1000 in
  let type_min := fun _ : gal_type => - (1000) in
  let input := data_of GAL_TYPE_FLOAT64 [3; 1; 5; 2] in
  let w := (5 - 1) / inject_Z 4 in
  exists d,
    gal_statistics_regular_bins type_max type_min input [] 4 NaN
    = Ok (Some (map Fin d)) /\
    length d = Z.to_nat 4 /\
    0 < w /\
    (forall i, (i < Z.to_nat 4)%nat ->
       nth i d 0 - w / 2 == 1 + inject_Z (Z.of_nat i) * w /\
       nth i d 0 + w / 2 == 1 + inject_Z (Z.of_nat i + 1) * w) /\
    nth (Z.to_nat 4 - 1) d 0 + w / 2 == 5.
Proof.
  assert (A : In 1 (gal_blank_remove
                      (darray (data_of GAL_TYPE_FLOAT64 [3; 1; 5; 2]))))
    by (cbn; tauto).
  assert (B : In 5 (gal_blank_remove
                      (darray (data_of GAL_TYPE_FLOAT64 [3; 1; 5; 2]))))
    by (cbn; tauto).
  assert (C : forall x,
             In x (gal_blank_remove
                     (darray (data_of GAL_TYPE_FLOAT64 [3; 1; 5; 2]))) ->
             1 <= x /\ x <= 5).
  { intros x [<-|[<-|[<-|[<-|[]]]]]; split; unfold Qle; cbn; lia. }
  assert (D : forall x,
             In x (gal_blank_remove
                     (darray (data_of GAL_TYPE_FLOAT64 [3; 1; 5; 2]))) ->
             - (1000) <= x /\ x <= 1000).
  { intros x [<-|[<-|[<-|[<-|[]]]]]; split; unfold Qle; cbn; lia. }
  assert (N : (1 <= 4)%Z) by lia.
  assert (L : 1 < 5) by reflexivity.
  exact (@regular_bins_cover_data_range (fun _ : gal_type => 1000)
           (fun _ : gal_type => - (1000))
           (data_of GAL_TYPE_FLOAT64 [3; 1; 5; 2]) 1 5 A B C D 4%Z N L).
Defined.

Lemma histogram_on_data_range_counts_all_witness :
  let type_max := fun _ : gal_type => 1000 in
  let type_min := fun _ : gal_type => - (1000) in
  let blank_value := fun _ : gal_type => 0 in
  let input := data_of GAL_TYPE_FLOAT64 [3; 1; 5; 2] in
  exists d h,
    gal_statistics_regular_bins type_max type_min input [] 4 NaN
    = Ok (Some (map Fin d)) /\
    gal_statistics_histogram blank_value input (Some (mk_bins d true)) false
      false = Ok (HistCounts h) /\
    Z.of_nat (length h) = 4%Z /\
    Zsum h = Z.of_nat (length (gal_blank_remove (darray input))).
Proof.
  assert (A : In 1 (gal_blank_remove
                      (darray (data_of GAL_TYPE_FLOAT64 [3; 1; 5; 2]))))
    by (cbn; tauto).
  assert (B : In 5 (gal_blank_remove
                      (darray (data_of GAL_TYPE_FLOAT64 [3; 1; 5; 2]))))
    by (cbn; tauto).
  assert (C : forall x,
             In x (gal_blank_remove
                     (darray (data_of GAL_TYPE_FLOAT64 [3; 1; 5; 2]))) ->
             1 <= x /\ x <= 5).
  { intros x [<-|[<-|[<-|[<-|[]]]]]; split; unfold Qle; cbn; lia. }
  assert (D : forall x,
             In x (gal_blank_remove
                     (darray (data_of GAL_TYPE_FLOAT64 [3; 1; 5; 2]))) ->
             - (1000) <= x /\ x <= 1000).
  { intros x [<-|[<-|[<-|[<-|[]]]]]; split; unfold Qle; cbn; lia. }
  assert (N : (1 <= 4)%Z) by lia.
  assert (L : 1 < 5) by reflexivity.
  assert (T : (2 <= 4 < 2 ^ 64)%Z) by lia.
  assert (F : is_float (dtype (data_of GAL_TYPE_FLOAT64 [3; 1; 5; 2])) = true
              \/ ~ In None (darray (data_of GAL_TYPE_FLOAT64 [3; 1; 5; 2])))
    by (left; reflexivity).
  exact (@histogram_on_data_range_counts_all (fun _ : gal_type => 1000)
           (fun _ : gal_type => - (1000))
           (data_of GAL_TYPE_FLOAT64 [3; 1; 5; 2]) 1 5 A B C D 4%Z N L
           (fun _ : gal_type => 0) T F).
Defined.

(** ** Bins of zero width *)

Lemma cast_size_t_div_zero (a b : Q) :
  b == 0 -> cast_size_t (Fin a / Fin b)%dbl = None.
Proof.
  intro H. cbn [Dbl.div].
  assert (E : Qeq_bool b 0 = true) by (now apply Qeq_bool_iff).
  rewrite E. unfold inf_of_sign.
  destruct (Qsgn a =? 0)%Z; [reflexivity|].
  destruct (0 <? Qsgn a)%Z; reflexivity.
Qed.

(* With a bin width of zero the first cell within the range makes the loop
   convert a NaN or an infinity to an index. *)
Lemma histogram_loop_zero_width (blank_value : gal_type -> Q) (t : gal_type)
  (mn mx bw : Q) (cells : list (option Q)) :
  bw == 0 ->
  (exists c, In c cells /\ in_range blank_value t mn mx c = true) ->
  forall h, histogram_loop blank_value t (Fin mn) (Fin mx) (Fin bw) h cells
            = Undefined.
Proof.
  intros Hb. induction cells as [|c cells IH]; intros [c0 [Hin Hr]] h.
  - contradiction.
  - cbn [histogram_loop]. unfold histogram_step.
    destruct ((cell_double blank_value t c >=? Fin mn)%dbl
              && (cell_double blank_value t c <=? Fin mx)%dbl) eqn:E.
    + destruct (cell_double blank_value t c) as [| | |a]; try discriminate.
      unfold Dbl.sub. cbn [Dbl.neg Dbl.add].
      rewrite cast_size_t_div_zero by assumption. reflexivity.
    + cbn [bind]. apply IH.
      destruct Hin as [<-|Hin]; [|now exists c0].
      unfold in_range in Hr. congruence.
Qed.

(** X12.  When all the non-blank elements of the input are equal, the bins
    that [gal_statistics_regular_bins] returns for the range of the data
    have zero width: every center is that value.  The histogram asked for
    on these bins divides by the zero width and converts the result, a NaN,
    to an index: its behaviour is undefined. *)
Theorem histogram_of_constant_data (type_max type_min : gal_type -> Q)
  (blank_value : gal_type -> Q) (input : gal_data) (c : Q) (numbins : Z) :
  In c (gal_blank_remove (darray input)) ->
  (forall x, In x (gal_blank_remove (darray input)) -> x == c) ->
  (forall x, In x (gal_blank_remove (darray input)) ->
     type_min (dtype input) <= x /\ x <= type_max (dtype input)) ->
  (2 <= numbins)%Z ->
  exists d,
    gal_statistics_regular_bins type_max type_min input [] numbins NaN
    = Ok (Some (map Fin d)) /\
    length d = Z.to_nat numbins /\
    (forall i, (i < Z.to_nat numbins)%nat -> nth i d 0 == c) /\
    gal_statistics_histogram blank_value input (Some (mk_bins d true)) false
      false = Undefined.
Proof.
  intros Hc Hall Htype Hn.
  assert (Hcc : forall x, In x (gal_blank_remove (darray input)) ->
                          c <= x /\ x <= c).
  { intros x Hx. rewrite (Hall x Hx). split; lra. }
  destruct (@minimum_is_least type_max type_min input c c Hc Hc Hcc Htype)
    as [m [Em Hm]].
  destruct (@maximum_is_greatest type_max type_min input c c Hc Hc Hcc Htype)
    as [M [EM HM]].
  assert (Hne : darray input <> []).
  { intro H. rewrite H in Hc. contradiction. }
  unfold gal_statistics_regular_bins.
  destruct (numbins =? 0)%Z eqn:E0; [apply Z.eqb_eq in E0; lia|].
  destruct (length (darray input) =? 0)%nat eqn:E1.
  { apply Nat.eqb_eq in E1. destruct (darray input); [contradiction|discriminate]. }
  cbn [regular_bins_range bind fst snd]. rewrite Em, EM. cbn [to_double].
  assert (Hnb : 0 < inject_Z numbins).
  { change 0 with (inject_Z 0). rewrite <- Zlt_Qlt. lia. }
  assert (Q0 : Qeq_bool (inject_Z numbins) 0 = false).
  { destruct (Qeq_bool (inject_Z numbins) 0) eqn:Q0; [|reflexivity].
    apply Qeq_bool_iff in Q0. lra. }
  set (w' := Qred (Qred (M + Qred (- m)) / inject_Z numbins)).
  assert (Ebw : ((Fin M - Fin m) / of_Z numbins)%dbl = Fin w').
  { unfold Dbl.sub, of_Z. cbn [Dbl.neg Dbl.add Dbl.div]. now rewrite Q0. }
  rewrite Ebw.
  set (hb := Qred (w' / 2)).
  change (Fin w' / Fin 2)%dbl with (Fin hb).
  assert (Hw' : w' == 0).
  { unfold w'. rewrite !Qred_correct, Hm, HM. field. lra. }
  assert (Hhb : hb == 0).
  { unfold hb. rewrite Qred_correct, Hw'. reflexivity. }
  set (ctr := fun i : nat =>
                Qred (Qred (m + Qred (inject_Z (Z.of_nat i) * w')) + hb)).
  assert (Hctr : forall i, ctr i == c).
  { intro i. unfold ctr. rewrite !Qred_correct, Hw', Hhb, Hm. ring. }
  set (n := Z.to_nat numbins).
  exists (map ctr (seq 0 n)).
  assert (Hlen : length (map ctr (seq 0 n)) = n)
    by (now rewrite length_map, length_seq).
  assert (Hnth : forall i, (i < n)%nat ->
                           nth i (map ctr (seq 0 n)) 0 = ctr i).
  { intros i Hi.
    rewrite (@nth_map_default _ _ ctr _ 0%nat) by (now rewrite length_seq).
    now rewrite seq_nth. }
  split; [|split; [exact Hlen|split]].
  - cbn [isnan]. unfold bin_centers. rewrite map_map. reflexivity.
  - intros i Hi. rewrite Hnth by assumption. apply Hctr.
  - unfold gal_statistics_histogram. cbn [bcenters bregular negb].
    rewrite Hlen.
    destruct (n =? 1)%nat eqn:N1; [apply Nat.eqb_eq in N1; lia|].
    rewrite E1. cbn [andb].
    destruct n as [|[|k]] eqn:En; try lia.
    cbn [seq map].
    set (tl := map ctr (seq 2 k)).
    set (lst := last (ctr 0%nat :: ctr 1%nat :: tl) 0).
    assert (Hlst : lst == c).
    { unfold lst. rewrite last_nth_pred.
      change (ctr 0%nat :: ctr 1%nat :: tl) with (map ctr (seq 0 (S (S k)))).
      rewrite Hlen, Hnth by lia. apply Hctr. }
    set (bw := Qred (ctr 1%nat + Qred (- ctr 0%nat))).
    change (Fin (ctr 1%nat) - Fin (ctr 0%nat))%dbl with (Fin bw).
    set (hw := Qred (bw / 2)).
    change (Fin bw / Fin 2)%dbl with (Fin hw).
    set (mn := Qred (ctr 0%nat + Qred (- hw))).
    change (Fin (ctr 0%nat) - Fin hw)%dbl with (Fin mn).
    set (mx := Qred (lst + hw)).
    change (Fin lst + Fin hw)%dbl with (Fin mx).
    assert (Hbw : bw == 0).
    { unfold bw. rewrite !Qred_correct, !Hctr. ring. }
    assert (Hhw : hw == 0).
    { unfold hw. rewrite Qred_correct, Hbw. reflexivity. }
    assert (Hmn : mn == c).
    { unfold mn. rewrite !Qred_correct, Hhw, Hctr. ring. }
    assert (Hmx : mx == c).
    { unfold mx. rewrite !Qred_correct, Hhw, Hlst. ring. }
    rewrite (@histogram_loop_zero_width blank_value (dtype input) mn mx bw
               (darray input) Hbw); [reflexivity|].
    exists (Some c). split.
    + clear - Hc. induction (darray input) as [|[x|] l IH]; [contradiction| |].
      * destruct Hc as [<-|Hc]; [now left|right; now apply IH].
      * right. now apply IH.
    + unfold in_range. cbn [cell_double]. rewrite geb_Fin, leb_Fin.
      assert (G : Qle_bool mn c = true) by (apply Qle_bool_iff; lra).
      assert (L : Qle_bool c mx = true) by (apply Qle_bool_iff; lra).
      now rewrite G, L.
Qed.

Lemma histogram_of_constant_data_witness :
  let type_max := fun _ : gal_type => 1000 in
  let type_min := fun _ : gal_type => - (1000) in
  let blank_value := fun _ : gal_type => 0 in
  let input := data_of GAL_TYPE_FLOAT64 [7; 7; 7] in
  exists d,
    gal_statistics_regular_bins type_max type_min input [] 3 NaN
    = Ok (Some (map Fin d)) /\
    length d = Z.to_nat 3 /\
    (forall i, (i < Z.to_nat 3)%nat -> nth i d 0 == 7) /\
    gal_statistics_histogram blank_value input (Some (mk_bins d true)) false
      false = Undefined.
Proof.
  assert (A : In 7 (gal_blank_remove
                      (darray (data_of GAL_TYPE_FLOAT64 [7; 7; 7]))))
    by (cbn; tauto).
  assert (B : forall x,
             In x (gal_blank_remove
                     (darray (data_of GAL_TYPE_FLOAT64 [7; 7; 7]))) ->
             x == 7).
  { intros x [<-|[<-|[<-|[]]]]; reflexivity. }
  assert (D : forall x,
             In x (gal_blank_remove
                     (darray (data_of GAL_TYPE_FLOAT64 [7; 7; 7]))) ->
             - (1000) <= x /\ x <= 1000).
  { intros x [<-|[<-|[<-|[]]]]; split; unfold Qle; cbn; lia. }
  assert (N : (2 <= 3)%Z) by lia.
  exact (@histogram_of_constant_data (fun _ : gal_type => 1000)
           (fun _ : gal_type => - (1000)) (fun _ : gal_type => 0)
           (data_of GAL_TYPE_FLOAT64 [7; 7; 7]) 7 3%Z A B D N).
Defined.

(** ** A bin starting at a chosen value *)

Section OneBinStart.

Variables type_max type_min : gal_type -> Q.
Variable input : gal_data.
Variables lo hi : Q.
Hypothesis lo_in : In lo (gal_blank_remove (darray input)).
Hypothesis hi_in : In hi (gal_blank_remove (darray input)).
Hypothesis lo_hi : forall x, In x (gal_blank_remove (darray input)) ->
                             lo <= x /\ x <= hi.
Hypothesis in_type : forall x, In x (gal_blank_remove (darray input)) ->
                       type_min (dtype input) <= x /\
                       x <= type_max (dtype input).
Variable numbins : Z.
Hypothesis numbins_pos : (1 <= numbins)%Z.
Hypothesis lo_lt_hi : lo < hi.

Let w : Q := (hi - lo) / inject_Z numbins.
Let n : nat := Z.to_nat numbins.

(* The call for the range of the data, once the range is found. *)
Lemma regular_bins_unfold :
  exists m w' hb,
    m == lo /\ w' == w /\ hb == w / 2 /\
    forall obs : double,
      gal_statistics_regular_bins type_max type_min input [] numbins obs
      = let b := map (fun i => Fin (center_value m w' hb i)) (seq 0 n) in
        if isnan obs then Ok (Some b)
        else match onebin_search (Fin hb) obs b with
             | Some bi =>
                 Ok (Some (map (fun x => x + (obs - (bi - Fin hb)))%dbl b))
             | None => Ok (Some b)
             end.
Proof.
  destruct (minimum_is_least type_max type_min input lo_in hi_in lo_hi
              in_type) as [m [Em Hm]].
  destruct (maximum_is_greatest type_max type_min input lo_in hi_in lo_hi
              in_type) as [M [EM HM]].
  assert (Hnb : 0 < inject_Z numbins).
  { change 0 with (inject_Z 0). rewrite <- Zlt_Qlt. lia. }
  assert (Q0 : Qeq_bool (inject_Z numbins) 0 = false).
  { destruct (Qeq_bool (inject_Z numbins) 0) eqn:Q0; [|reflexivity].
    apply Qeq_bool_iff in Q0. lra. }
  set (w' := Qred (Qred (M + Qred (- m)) / inject_Z numbins)).
  assert (Ebw : ((Fin M - Fin m) / of_Z numbins)%dbl = Fin w').
  { unfold Dbl.sub, of_Z. cbn [Dbl.neg Dbl.add Dbl.div]. now rewrite Q0. }
  set (hb := Qred (w' / 2)).
  assert (Hw' : w' == w).
  { unfold w', w. rewrite !Qred_correct, Hm, HM. reflexivity. }
  exists m, w', hb. split; [exact Hm|]. split; [exact Hw'|]. split.
  { unfold hb. rewrite Qred_correct, Hw'. reflexivity. }
  intro obs. unfold gal_statistics_regular_bins.
  destruct (numbins =? 0)%Z eqn:E0; [apply Z.eqb_eq in E0; lia|].
  destruct (length (darray input) =? 0)%nat eqn:E1.
  { apply Nat.eqb_eq in E1.
    destruct (darray input); [contradiction|discriminate]. }
  cbn [regular_bins_range bind fst snd]. rewrite Em, EM. cbn [to_double].
  rewrite Ebw. change (Fin w' / Fin 2)%dbl with (Fin hb).
  reflexivity.
Qed.

Variables (m w' hb obs : Q).
Hypothesis m_lo : m == lo.
Hypothesis w_w : w' == w.
Hypothesis hb_w : hb == w / 2.

(* The lower edge of bin [i] as the search computes it. *)
Lemma lower_edge (i : nat) :
  (Fin (center_value m w' hb i) - Fin hb)%dbl
  = Fin (Qred (center_value m w' hb i + Qred (- hb))) /\
  Qred (center_value m w' hb i + Qred (- hb))
  == lo + inject_Z (Z.of_nat i) * w.
Proof.
  split; [reflexivity|].
  unfold center_value. rewrite !Qred_correct, m_lo, w_w. ring.
Qed.

Lemma w_pos : 0 < w.
Proof.
  unfold w. apply Qlt_shift_div_l; [|lra].
  change 0 with (inject_Z 0). rewrite <- Zlt_Qlt. lia.
Qed.

Lemma edge_mono (i j : nat) :
  (i <= j)%nat ->
  lo + inject_Z (Z.of_nat i) * w <= lo + inject_Z (Z.of_nat j) * w.
Proof.
  intro H. assert (W := w_pos).
  assert (inject_Z (Z.of_nat i) <= inject_Z (Z.of_nat j))
    by (rewrite <- Zle_Qle; lia).
  assert (inject_Z (Z.of_nat i) * w <= inject_Z (Z.of_nat j) * w)
    by (apply Qmult_le_compat_r; lra).
  lra.
Qed.

Lemma onebin_search_found (k : nat) :
  lo + inject_Z (Z.of_nat k) * w < obs ->
  obs < lo + inject_Z (Z.of_nat (S k)) * w ->
  forall len s, (s <= k)%nat -> (S k < s + len)%nat ->
    onebin_search (Fin hb) (Fin obs)
      (map (fun i => Fin (center_value m w' hb i)) (seq s len))
    = Some (Fin (center_value m w' hb k)).
Proof.
  intros Hk1 Hk2. induction len as [|len IH]; intros s Hs Hl; [lia|].
  destruct len as [|len]; [lia|].
  cbn [seq map onebin_search].
  destruct (lower_edge s) as [-> Es]. destruct (lower_edge (S s)) as [-> Es1].
  rewrite ltb_Fin, gtb_Fin.
  destruct (Nat.eq_dec s k) as [->|Hne].
  - assert (A : Qltb (Qred (center_value m w' hb k + Qred (- hb))) obs = true)
      by (apply Qltb_lt; rewrite Es; assumption).
    assert (B : Qltb obs (Qred (center_value m w' hb (S k) + Qred (- hb)))
                = true)
      by (apply Qltb_lt; rewrite Es1; assumption).
    now rewrite A, B.
  - assert (B : Qltb obs (Qred (center_value m w' hb (S s) + Qred (- hb)))
                = false).
    { apply Qltb_ge. rewrite Es1.
      assert (M := @edge_mono (S s) k ltac:(lia)). lra. }
    rewrite B, andb_false_r.
    apply (IH (S s)); lia.
Qed.

Lemma onebin_search_outside :
  obs <= lo \/ lo + inject_Z (Z.of_nat (n - 1)) * w <= obs ->
  forall len s, (s + len <= n)%nat ->
    onebin_search (Fin hb) (Fin obs)
      (map (fun i => Fin (center_value m w' hb i)) (seq s len))
    = None.
Proof.
  intros Hout. induction len as [|len IH]; intros s Hl; [reflexivity|].
  destruct len as [|len]; [reflexivity|].
  cbn [seq map onebin_search].
  destruct (lower_edge s) as [-> Es]. destruct (lower_edge (S s)) as [-> Es1].
  rewrite ltb_Fin, gtb_Fin.
  assert (C : Qltb (Qred (center_value m w' hb s + Qred (- hb))) obs
              && Qltb obs (Qred (center_value m w' hb (S s) + Qred (- hb)))
              = false).
  { destruct Hout as [Hout|Hout].
    - apply andb_false_iff. left. apply Qltb_ge. rewrite Es.
      assert (M := @edge_mono 0%nat s ltac:(lia)).
      change (inject_Z (Z.of_nat 0)) with 0 in M. lra.
    - apply andb_false_iff. right. apply Qltb_ge. rewrite Es1.
      assert (M := @edge_mono (S s) (n - 1)%nat ltac:(lia)). lra. }
  rewrite C. apply (IH (S s)). lia.
Qed.

End OneBinStart.

(** X13.  In exact arithmetic (the centers, the edges compared with
    [onebinstart] and the shift not rounded to binary64): when no range is
    given and [onebinstart] lies strictly inside bin [k] of the bins made
    for the range of the data, [k] not being the last bin,
    [gal_statistics_regular_bins] shifts all the centers by the same amount
    so that bin [k] starts exactly at [onebinstart]; the spacing stays
    (max-min)/numbins. *)
Theorem regular_bins_onebinstart (type_max type_min : gal_type -> Q)
  (input : gal_data) (lo hi : Q) (numbins : Z) (obs : Q) (k : nat) :
  In lo (gal_blank_remove (darray input)) ->
  In hi (gal_blank_remove (darray input)) ->
  (forall x, In x (gal_blank_remove (darray input)) -> lo <= x /\ x <= hi) ->
  (forall x, In x (gal_blank_remove (darray input)) ->
     type_min (dtype input) <= x /\ x <= type_max (dtype input)) ->
  (1 <= numbins)%Z -> lo < hi ->
  let w := (hi - lo) / inject_Z numbins in
  (S k < Z.to_nat numbins)%nat ->
  lo + inject_Z (Z.of_nat k) * w < obs ->
  obs < lo + inject_Z (Z.of_nat (S k)) * w ->
  exists d,
    gal_statistics_regular_bins type_max type_min input [] numbins (Fin obs)
    = Ok (Some (map Fin d)) /\
    length d = Z.to_nat numbins /\
    forall i, (i < Z.to_nat numbins)%nat ->
      nth i d 0 - w / 2
      == obs + (inject_Z (Z.of_nat i) - inject_Z (Z.of_nat k)) * w.
Proof.
  intros lo_in hi_in lo_hi in_type Hn Hlh w Hk H1 H2.
  destruct (regular_bins_unfold type_max type_min input lo_in hi_in lo_hi
              in_type Hn) as [m [w' [hb [Hm [Hw [Hhb U]]]]]].
  fold w in Hw, Hhb.
  rewrite U. cbn zeta. cbn [isnan].
  rewrite (@onebin_search_found lo hi numbins Hn Hlh m w' hb obs Hm Hw k
             H1 H2 (Z.to_nat numbins) 0%nat) by lia.
  set (diff := Qred (obs + Qred (- Qred (center_value m w' hb k
                                         + Qred (- hb))))).
  exists (map (fun i => Qred (center_value m w' hb i + diff))
              (seq 0 (Z.to_nat numbins))).
  split; [|split].
  - rewrite !map_map. reflexivity.
  - now rewrite length_map, length_seq.
  - intros i Hi.
    rewrite (@nth_map_default _ _
               (fun i => Qred (center_value m w' hb i + diff)) _ 0%nat)
      by (now rewrite length_seq).
    rewrite seq_nth by assumption. cbn [Nat.add].
    unfold diff, center_value. rewrite !Qred_correct, Hm, Hw, Hhb.
    field.
Qed.

Lemma regular_bins_onebinstart_witness :
  let type_max := fun _ : gal_type => 1000 in
  let type_min := fun _ : gal_type => - (1000) in
  let input := data_of GAL_TYPE_FLOAT64 [3; 1; 5; 2] in
  let w := (5 - 1) / inject_Z 4 in
  exists d,
    gal_statistics_regular_bins type_max type_min input [] 4 (Fin (5 # 2))
    = Ok (Some (map Fin d)) /\
    length d = Z.to_nat 4 /\
    forall i, (i < Z.to_nat 4)%nat ->
      nth i d 0 - w / 2
      == (5 # 2) + (inject_Z (Z.of_nat i) - inject_Z (Z.of_nat 1)) * w.
Proof.
  assert (A : In 1 (gal_blank_remove
                      (darray (data_of GAL_TYPE_FLOAT64 [3; 1; 5; 2]))))
    by (cbn; tauto).
  assert (B : In 5 (gal_blank_remove
                      (darray (data_of GAL_TYPE_FLOAT64 [3; 1; 5; 2]))))
    by (cbn; tauto).
  assert (C : forall x,
             In x (gal_blank_remove
                     (darray (data_of GAL_TYPE_FLOAT64 [3; 1; 5; 2]))) ->
             1 <= x /\ x <= 5).
  { intros x [<-|[<-|[<-|[<-|[]]]]]; split; unfold Qle; cbn; lia. }
  assert (D : forall x,
             In x (gal_blank_remove
                     (darray (data_of GAL_TYPE_FLOAT64 [3; 1; 5; 2]))) ->
             - (1000) <= x /\ x <= 1000).
  { intros x [<-|[<-|[<-|[<-|[]]]]]; split; unfold Qle; cbn; lia. }
  assert (N : (1 <= 4)%Z) by lia.
  assert (L : 1 < 5) by reflexivity.
  assert (K : (2 < Z.to_nat 4)%nat) by (cbn; lia).
  assert (E1 : 1 + inject_Z (Z.of_nat 1) * ((5 - 1) / inject_Z 4) < 5 # 2)
    by reflexivity.
  assert (E2 : 5 # 2 < 1 + inject_Z (Z.of_nat 2) * ((5 - 1) / inject_Z 4))
    by reflexivity.
  exact (@regular_bins_onebinstart (fun _ : gal_type => 1000)
           (fun _ : gal_type => - (1000))
           (data_of GAL_TYPE_FLOAT64 [3; 1; 5; 2]) 1 5 4%Z (5 # 2) 1%nat
           A B C D N L K E1 E2).
Defined.

(** X14.  In exact arithmetic (the edges compared with [onebinstart] not
    rounded to binary64): an [onebinstart] at or below the smallest element,
    or at or above the lower edge of the last bin, changes nothing: the bins
    are those returned without [onebinstart].  In particular no bin is made
    to start at a value that lies inside the last bin. *)
Theorem regular_bins_onebinstart_ignored (type_max type_min : gal_type -> Q)
  (input : gal_data) (lo hi : Q) (numbins : Z) (obs : Q) :
  In lo (gal_blank_remove (darray input)) ->
  In hi (gal_blank_remove (darray input)) ->
  (forall x, In x (gal_blank_remove (darray input)) -> lo <= x /\ x <= hi) ->
  (forall x, In x (gal_blank_remove (darray input)) ->
     type_min (dtype input) <= x /\ x <= type_max (dtype input)) ->
  (1 <= numbins)%Z -> lo < hi ->
  obs <= lo \/ hi - (hi - lo) / inject_Z numbins <= obs ->
  gal_statistics_regular_bins type_max type_min input [] numbins (Fin obs)
  = gal_statistics_regular_bins type_max type_min input [] numbins NaN.
Proof.
  intros lo_in hi_in lo_hi in_type Hn Hlh Hout.
  destruct (regular_bins_unfold type_max type_min input lo_in hi_in lo_hi
              in_type Hn) as [m [w' [hb [Hm [Hw [Hhb U]]]]]].
  rewrite !U. cbn zeta. cbn [isnan].
  rewrite (@onebin_search_outside lo hi numbins Hn Hlh m w' hb obs Hm Hw);
    [reflexivity| |lia].
  destruct Hout as [Hout|Hout]; [now left|right].
  replace (Z.of_nat (Z.to_nat numbins - 1)) with (numbins - 1)%Z by lia.
  unfold Z.sub. rewrite inject_Z_plus. change (inject_Z (- (1))) with (- (1)).
  assert (Hnb : 0 < inject_Z numbins).
  { change 0 with (inject_Z 0). rewrite <- Zlt_Qlt. lia. }
  setoid_replace (lo + (inject_Z numbins + - (1))
                       * ((hi - lo) / inject_Z numbins))
    with (hi - (hi - lo) / inject_Z numbins); [exact Hout|].
  field. lra.
Qed.

Lemma regular_bins_onebinstart_ignored_witness :
  let type_max := fun _ : gal_type => 1000 in
  let type_min := fun _ : gal_type => - (1000) in
  let input := data_of GAL_TYPE_FLOAT64 [3; 1; 5; 2] in
  gal_statistics_regular_bins type_max type_min input [] 4 (Fin (9 # 2))
  = gal_statistics_regular_bins type_max type_min input [] 4 NaN.
Proof.
  assert (A : In 1 (gal_blank_remove
                      (darray (data_of GAL_TYPE_FLOAT64 [3; 1; 5; 2]))))
    by (cbn; tauto).
  assert (B : In 5 (gal_blank_remove
                      (darray (data_of GAL_TYPE_FLOAT64 [3; 1; 5; 2]))))
    by (cbn; tauto).
  assert (C : forall x,
             In x (gal_blank_remove
                     (darray (data_of GAL_TYPE_FLOAT64 [3; 1; 5; 2]))) ->
             1 <= x /\ x <= 5).
  { intros x [<-|[<-|[<-|[<-|[]]]]]; split; unfold Qle; cbn; lia. }
  assert (D : forall x,
             In x (gal_blank_remove
                     (darray (data_of GAL_TYPE_FLOAT64 [3; 1; 5; 2]))) ->
             - (1000) <= x /\ x <= 1000).
  { intros x [<-|[<-|[<-|[<-|[]]]]]; split; unfold Qle; cbn; lia. }
  assert (N : (1 <= 4)%Z) by lia.
  assert (L : 1 < 5) by reflexivity.
  assert (O : 9 # 2 <= 1 \/ 5 - (5 - 1) / inject_Z 4 <= 9 # 2)
    by (right; unfold Qle; cbn; lia).
  exact (@regular_bins_onebinstart_ignored (fun _ : gal_type => 1000)
           (fun _ : gal_type => - (1000))
           (data_of GAL_TYPE_FLOAT64 [3; 1; 5; 2]) 1 5 4%Z (9 # 2)
           A B C D N L O).
Defined.

(** ** The clipping loop stays inside the array *)

Lemma find_first_spec (f : Q -> bool) (l : list Q) :
  forall k,
    match find_first f l k with
    | Some j =>
        (k <= j < k + Z.of_nat (length l))%Z /\
        f (nth (Z.to_nat (j - k)) l 0) = true /\
        forall i, (i < Z.to_nat (j - k))%nat -> f (nth i l 0) = false
    | None => forall i, (i < length l)%nat -> f (nth i l 0) = false
    end.
Proof.
  induction l as [|x l IH]; intro k; cbn [find_first].
  - intros i Hi. cbn in Hi. lia.
  - destruct (f x) eqn:E.
    + replace (k - k)%Z with 0%Z by lia. cbn [Z.to_nat nth length].
      split; [lia|]. split; [exact E|]. intros i Hi. lia.
    + specialize (IH (k + 1)%Z).
      destruct (find_first f l (k + 1)) as [j|].
      * destruct IH as [B [T F]]. cbn [length].
        replace (Z.to_nat (j - k)) with (S (Z.to_nat (j - (k + 1)))) by lia.
        split; [lia|]. split; [exact T|].
        intros [|i] Hi; [exact E|]. cbn [nth]. apply F. lia.
      * intros [|i] Hi; [exact E|]. cbn [nth]. apply IH.
        cbn [length] in Hi. lia.
Qed.

Lemma find_last_spec (f : Q -> bool) (l : list Q) :
  forall k,
    match find_last f l k with
    | Some j =>
        (k <= j < k + Z.of_nat (length l))%Z /\
        f (nth (Z.to_nat (j - k)) l 0) = true /\
        forall i, (Z.to_nat (j - k) < i)%nat -> (i < length l)%nat ->
                  f (nth i l 0) = false
    | None => forall i, (i < length l)%nat -> f (nth i l 0) = false
    end.
Proof.
  induction l as [|x l IH]; intro k; cbn [find_last].
  - intros i Hi. cbn in Hi. lia.
  - specialize (IH (k + 1)%Z).
    destruct (find_last f l (k + 1)) as [j|].
    + destruct IH as [B [T F]]. cbn [length].
      replace (Z.to_nat (j - k)) with (S (Z.to_nat (j - (k + 1)))) by lia.
      split; [lia|]. split; [exact T|].
      intros [|i] Hi Hl; [lia|]. cbn [nth]. apply F; lia.
    + destruct (f x) eqn:E.
      * replace (k - k)%Z with 0%Z by lia. cbn [Z.to_nat nth length].
        split; [lia|]. split; [exact E|].
        intros [|i] Hi Hl; [lia|]. cbn [nth]. apply IH. lia.
      * intros [|i] Hi; [exact E|]. cbn [nth]. apply IH.
        cbn [length] in Hi. lia.
Qed.

(* The new range lies in the old one as soon as every element passes one
   of the two tests of CLIPALL, or no element passes any. *)
Lemma CLIPALL_range (inc : bool) (cur : list Q)
  (center multip spread : double) (start size : Z) :
  let lo := (center - multip * spread)%dbl in
  let hi := (center + multip * spread)%dbl in
  let pa := fun x => if inc then (Fin x >? lo)%dbl else (Fin x <? hi)%dbl in
  let pb := fun x => if inc then (Fin x <? hi)%dbl else (Fin x >? lo)%dbl in
  (forall x, pa x = true \/ pb x = true) \/
  (forall x, pa x = false /\ pb x = false) ->
  size = Z.of_nat (length cur) -> (size < 2 ^ 64)%Z ->
  (start <= fst (CLIPALL inc cur center multip spread start size))%Z /\
  (0 <= snd (CLIPALL inc cur center multip spread start size))%Z /\
  (fst (CLIPALL inc cur center multip spread start size)
   + snd (CLIPALL inc cur center multip spread start size)
   <= start + size)%Z.
Proof.
  intros lo hi pa pb Hab Hsize Hb. unfold CLIPALL. fold lo hi.
  change (fun x : Q => if inc then (Fin x >? lo)%dbl else (Fin x <? hi)%dbl)
    with pa.
  change (fun x : Q => if inc then (Fin x <? hi)%dbl else (Fin x >? lo)%dbl)
    with pb.
  pose proof (find_first_spec pa cur 0) as Sa.
  pose proof (find_last_spec pb cur 0) as Sb.
  destruct (find_first pa cur 0) as [ka|];
    destruct (find_last pb cur 0) as [kb|]; cbn [fst snd].
  - destruct Sa as [Ba [Ta Fa]]. destruct Sb as [Bb [Tb Fb]].
    rewrite Z.sub_0_r in *.
    assert (Hk : (ka <= kb + 1)%Z).
    { destruct (Z.le_gt_cases ka (kb + 1)) as [L|G]; [exact L|exfalso].
      assert (A1 : pa (nth (S (Z.to_nat kb)) cur 0) = false)
        by (apply Fa; lia).
      assert (B1 : pb (nth (S (Z.to_nat kb)) cur 0) = false)
        by (apply Fb; lia).
      destruct Hab as [A|B].
      - destruct (A (nth (S (Z.to_nat kb)) cur 0)); congruence.
      - destruct (B (nth (Z.to_nat ka) cur 0)); congruence. }
    rewrite sz_small by lia. lia.
  - destruct Sa as [Ba [Ta Fa]]. rewrite Z.sub_0_r in *.
    assert (Hk : ka = 0%Z).
    { destruct (Z.eq_dec ka 0) as [E|N]; [exact E|exfalso].
      assert (A1 : pa (nth 0 cur 0) = false) by (apply Fa; lia).
      assert (B1 : pb (nth 0 cur 0) = false) by (apply Sb; lia).
      destruct Hab as [A|B].
      - destruct (A (nth 0 cur 0)); congruence.
      - destruct (B (nth (Z.to_nat ka) cur 0)); congruence. }
    lia.
  - destruct Sb as [Bb [Tb Fb]]. rewrite Z.sub_0_r in *.
    assert (Hk : kb = (Z.of_nat (length cur) - 1)%Z).
    { destruct (Z.eq_dec kb (Z.of_nat (length cur) - 1)) as [E|N];
        [exact E|exfalso].
      assert (A1 : pa (nth (length cur - 1) cur 0) = false)
        by (apply Sa; lia).
      assert (B1 : pb (nth (length cur - 1) cur 0) = false)
        by (apply Fb; lia).
      destruct Hab as [A|B].
      - destruct (A (nth (length cur - 1) cur 0)); congruence.
      - destruct (B (nth (Z.to_nat kb) cur 0)); congruence. }
    rewrite Hk.
    replace (Z.of_nat (length cur) - 1 - Z.of_nat (length cur) + 1)%Z
      with 0%Z by lia.
    change (sz 0) with 0%Z. lia.
  - lia.
Qed.

Lemma Qsgn_pos (q : Q) : 0 < q -> Qsgn q = 1%Z.
Proof.
  destruct q as [n d]. unfold Qlt, Qsgn. cbn. intro H.
  apply Z.sgn_pos. lia.
Qed.

(* The product [multip * spread] in a turn that goes on to clip: NaN, plus
   infinity or a positive number. *)
Lemma clip_width_cases (multip spread : double) :
  (multip <=? Fin 0)%dbl = false ->
  (spread <? Fin 0)%dbl = false -> (spread =? Fin 0)%dbl = false ->
  (multip * spread)%dbl = NaN \/ (multip * spread)%dbl = PInf \/
  exists v, (multip * spread)%dbl = Fin v /\ 0 < v.
Proof.
  intros Hm Hs Hz.
  assert (Hq : forall q, (Fin q <? Fin 0)%dbl = false ->
                         (Fin q =? Fin 0)%dbl = false -> 0 < q).
  { intros q A B. rewrite ltb_Fin in A. apply Qltb_ge in A.
    cbn [Dbl.eqb] in B.
    destruct (Qeq_dec q 0) as [E|N].
    - apply Qeq_bool_iff in E. congruence.
    - apply Qle_lteq in A. destruct A as [A|A]; [exact A|].
      exfalso. apply N. now symmetry. }
  destruct multip as [| | |p]; try discriminate.
  - now left.
  - destruct spread as [| | |q]; try discriminate.
    + now left.
    + right. now left.
    + right. left. cbn [Dbl.mul sign]. rewrite (Qsgn_pos (Hq q Hs Hz)).
      reflexivity.
  - assert (Hp : 0 < p).
    { rewrite leb_Fin in Hm. now apply Qle_bool_false in Hm. }
    destruct spread as [| | |q]; try discriminate.
    + now left.
    + right. left. cbn [Dbl.mul sign]. rewrite (Qsgn_pos Hp). reflexivity.
    + right. right. cbn [Dbl.mul]. eexists. split; [reflexivity|].
      rewrite Qred_correct. apply Qmult_lt_0_compat; [exact Hp|].
      exact (Hq q Hs Hz).
Qed.

Lemma clip_tests_cover (inc : bool) (c : Q) (ms : double) :
  ms = NaN \/ ms = PInf \/ (exists v, ms = Fin v /\ 0 < v) ->
  let lo := (Fin c - ms)%dbl in
  let hi := (Fin c + ms)%dbl in
  let pa := fun x => if inc then (Fin x >? lo)%dbl else (Fin x <? hi)%dbl in
  let pb := fun x => if inc then (Fin x <? hi)%dbl else (Fin x >? lo)%dbl in
  (forall x, pa x = true \/ pb x = true) \/
  (forall x, pa x = false /\ pb x = false).
Proof.
  intros [->|[->|[v [-> Hv]]]]; cbn zeta.
  - right. intro x. destruct inc; split; reflexivity.
  - left. intro x. left. destruct inc; reflexivity.
  - left. intro x. unfold Dbl.sub. cbn [Dbl.neg Dbl.add].
    rewrite !gtb_Fin, !ltb_Fin.
    destruct (Qlt_le_dec (c - v) x) as [L|G].
    + destruct inc; [left|right]; apply Qltb_lt; rewrite !Qred_correct; lra.
    + destruct inc; [right|left]; apply Qltb_lt; rewrite !Qred_correct; lra.
Qed.

Lemma subrange_length (arr cur : list Q) (start size : Z) :
  subrange arr start size = Ok cur -> size = Z.of_nat (length cur).
Proof.
  unfold subrange.
  destruct ((0 <=? start) && (0 <=? size)
            && (start + size <=? Z.of_nat (length arr)))%Z eqn:E;
    [|discriminate].
  apply andb_true_iff in E. destruct E as [E E3].
  apply andb_true_iff in E. destruct E as [E1 E2].
  apply Z.leb_le in E1, E2, E3.
  intro H. injection H as <-.
  rewrite firstn_length_le; [lia|]. rewrite length_skipn. lia.
Qed.

Lemma subrange_ok (arr : list Q) (start size : Z) :
  (0 <= start)%Z -> (0 <= size)%Z ->
  (start + size <= Z.of_nat (length arr))%Z ->
  exists cur, subrange arr start size = Ok cur.
Proof.
  intros A B C. unfold subrange.
  replace ((0 <=? start) && (0 <=? size)
           && (start + size <=? Z.of_nat (length arr)))%Z with true.
  - eexists. reflexivity.
  - symmetry. rewrite !andb_true_iff, !Z.leb_le. lia.
Qed.

Lemma float_promote (t : gal_type) :
  is_float t = true -> promote t = t.
Proof. destruct t; try discriminate; reflexivity. Qed.

(* The median of a floating array of non-negative numbers is one. *)
Lemma median_nonneg (t : gal_type) (a : list Q) :
  is_float t = true -> a <> [] -> (forall x, In x a -> 0 <= x) ->
  exists v, statistics_median_in_sorted_no_blank t a = Some v /\ 0 <= v.
Proof.
  intros Hf Hne Hall. unfold statistics_median_in_sorted_no_blank.
  assert (Hlen : (0 < length a)%nat)
    by (destruct a; [contradiction|cbn; lia]).
  assert (H2 : (length a / 2 < length a)%nat)
    by (apply Nat.div_lt; lia).
  cbn zeta. destruct (length a) as [|n'] eqn:El; [lia|].
  destruct (Nat.odd (S n')).
  - eexists. split; [reflexivity|]. apply Hall, nth_In. lia.
  - eexists. split; [reflexivity|].
    assert (X : 0 <= nth (S n' / 2) a 0) by (apply Hall, nth_In; lia).
    assert (Y : 0 <= nth (S n' / 2 - 1) a 0) by (apply Hall, nth_In; lia).
    unfold cast, it_half, it_add, cast.
    rewrite (float_promote t Hf), Hf. rewrite !Qred_correct.
    apply Qle_shift_div_l; lra.
Qed.

Lemma median_some (t : gal_type) (a : list Q) :
  a <> [] -> exists v, statistics_median_in_sorted_no_blank t a = Some v.
Proof.
  intro Hne. unfold statistics_median_in_sorted_no_blank.
  destruct a as [|a0 a']; [contradiction|]. cbn [length].
  destruct (Nat.odd (S (length a'))); eexists; reflexivity.
Qed.

(* The median absolute deviation of a non-empty floating range. *)
Lemma mad_nonneg (t : gal_type) (inc : bool) (cur : list Q) :
  is_float t = true -> cur <> [] ->
  exists v,
    statistics_mad_in_sorted_no_blank (mk_view t cur inc)
      (statistics_median_in_sorted_no_blank t cur) = Some v /\ 0 <= v.
Proof.
  intros Hf Hne. destruct (median_some t Hne) as [m Em]. rewrite Em.
  unfold statistics_mad_in_sorted_no_blank. cbn [vtype varr].
  set (use := map (fun x => cast t (Qabs (x - m))) cur).
  unfold gal_statistics_median, scalar. cbn [darray].
  assert (Hv : vtype (gal_statistics_no_blank_sorted (data_of t use)) = t).
  { unfold gal_statistics_no_blank_sorted. cbn [data_of darray dtype].
    destruct (gal_blank_remove (map (@Some Q) use)); [reflexivity|].
    destruct (gal_statistics_is_sorted (q :: l)); reflexivity. }
  rewrite Hv.
  pose proof (no_blank_sorted_perm (data_of t use)) as P.
  unfold data_of in P at 1. cbn [darray] in P.
  rewrite blank_remove_data_of in P.
  apply median_nonneg; [exact Hf| |].
  - intro E. rewrite E in P. apply Permutation_sym, Permutation_nil in P.
    unfold use in P. destruct cur; [contradiction|discriminate].
  - intros x Hx. apply (Permutation_in _ (Permutation_sym P)) in Hx.
    unfold use in Hx. apply in_map_iff in Hx. destruct Hx as [y [<- _]].
    unfold cast. rewrite Hf, Qred_correct. apply Qabs_nonneg.
Qed.

Section ClipSafety.

Variable sqrt : double -> double.
Hypothesis sqrt_nonneg : forall x, (sqrt x <? Fin 0)%dbl = false.
Variable GAL_STATISTICS_CLIP_MAX_CONVERGE : Z.
Variables (input : gal_data) (multip param : double).
Variables (extrastats : clip_extra) (quiet sig1_mad0 : bool).
Hypothesis floating : is_float (dtype input) = true.
Hypothesis size_t_size : (Z.of_nat (length (darray input)) < 2 ^ 64)%Z.
Hypothesis multip_pos : (multip <=? Fin 0)%dbl = false.

Let nbs := gal_statistics_no_blank_sorted input.

Lemma nbs_float : is_float (vtype nbs) = true.
Proof.
  unfold nbs, gal_statistics_no_blank_sorted.
  destruct (gal_blank_remove (darray input)); [exact floating|].
  destruct (gal_statistics_is_sorted (q :: l)); exact floating.
Qed.

Lemma blank_remove_length (l : list (option Q)) :
  (length (gal_blank_remove l) <= length l)%nat.
Proof.
  induction l as [|[x|] l IH]; cbn [gal_blank_remove length]; lia.
Qed.

Lemma nbs_size : (vsize nbs < 2 ^ 64)%Z.
Proof.
  unfold vsize, nbs.
  rewrite <- (Permutation_length (no_blank_sorted_perm input)).
  assert (H := blank_remove_length (darray input)). lia.
Qed.

Lemma clip_spread_nonneg (cur : list Q) :
  cur <> [] ->
  (clip_spread sqrt sig1_mad0 (vtype nbs) (vinc nbs) cur <? Fin 0)%dbl = false.
Proof.
  intro Hne. unfold clip_spread. destruct sig1_mad0.
  - unfold gal_statistics_std.
    destruct cur as [|x [|y l]]; try reflexivity.
    unfold gal_statistics_std_from_sums.
    destruct (Z.of_nat (length (x :: y :: l)) =? 0)%Z; [reflexivity|].
    destruct (Z.of_nat (length (x :: y :: l)) =? 1)%Z; [reflexivity|].
    match goal with
    | |- context [if ?b then _ else _] => destruct b
    end; [reflexivity|apply sqrt_nonneg].
  - destruct (@mad_nonneg (vtype nbs) (vinc nbs) cur nbs_float Hne)
      as [v [-> Hv]].
    cbn [to_double]. rewrite ltb_Fin. now apply Qltb_ge.
Qed.

(* From a range inside the view the loop ends on a range inside the view,
   without a read outside it, after no more turns than the fuel. *)
Lemma clip_loop_safe (fuel : nat) :
  forall st, clip_state_in_range nbs st ->
    exists rounds st',
      clip_loop sqrt fuel nbs multip param sig1_mad0 st = (rounds, Ok st') /\
      clip_state_in_range nbs st' /\
      (length rounds <= fuel)%nat /\
      (cs_size st' <= cs_size st)%Z.
Proof.
  induction fuel as [|fuel IH]; intros st Hst; cbn [clip_loop].
  - exists [], st. repeat split; try apply Hst; cbn; lia.
  - destruct (cs_size st =? 0)%Z eqn:E0.
    { exists [], st. repeat split; try apply Hst; cbn; lia. }
    apply Z.eqb_neq in E0.
    destruct Hst as [H1 [H2 H3]].
    destruct (@subrange_ok (varr nbs) (cs_start st) (cs_size st) H1 H2 H3)
      as [cur Hcur].
    rewrite Hcur.
    pose proof (subrange_length _ _ _ Hcur) as Hlen.
    assert (Hne : cur <> []).
    { intro E. rewrite E in Hlen. cbn in Hlen. lia. }
    set (center := clip_center (vtype nbs) cur).
    set (spread := clip_spread sqrt sig1_mad0 (vtype nbs) (vinc nbs) cur).
    destruct (clip_break param (cs_num st) spread (cs_oldspread st)) eqn:Hb.
    + eexists. eexists. split; [reflexivity|].
      split; [repeat split; assumption|]. cbn. split; lia.
    + assert (Hz : (spread =? Fin 0)%dbl = false).
      { unfold clip_break in Hb.
        destruct (spread =? Fin 0)%dbl; [discriminate|reflexivity]. }
      pose proof (clip_spread_nonneg Hne) as Hs. fold spread in Hs.
      destruct (median_some (vtype nbs) Hne) as [c Ec].
      assert (Hc : center = Fin c).
      { unfold center, clip_center. now rewrite Ec. }
      pose proof (@clip_tests_cover (vinc nbs) c (multip * spread)%dbl
                    (clip_width_cases multip spread multip_pos Hs Hz)) as Hab.
      cbn zeta in Hab. rewrite <- Hc in Hab.
      assert (Hsz : (cs_size st < 2 ^ 64)%Z).
      { pose proof nbs_size. lia. }
      pose proof (@CLIPALL_range (vinc nbs) cur center multip spread
                    (cs_start st) (cs_size st) Hab Hlen Hsz) as [R1 [R2 R3]].
      destruct (CLIPALL (vinc nbs) cur center multip spread (cs_start st)
                  (cs_size st)) as [start' size'] eqn:EC.
      cbn [fst snd] in R1, R2, R3.
      destruct (IH (mk_cstate (cs_num st + 1) size' start' center spread spread
                      (cs_start st) (cs_size st))) as [rs [st' [E [V [L S]]]]].
      { unfold clip_state_in_range. cbn. lia. }
      rewrite E. eexists. eexists. split; [reflexivity|].
      split; [exact V|]. cbn [length cs_size] in *. split; lia.
Qed.

End ClipSafety.

Lemma sqrt_example_nonneg (x : double) : (sqrt_example x <? Fin 0)%dbl = false.
Proof.
  destruct x as [| | |q]; try reflexivity.
  unfold sqrt_example. destruct (Qltb q 0); [reflexivity|].
  rewrite ltb_Fin. apply Qltb_ge. rewrite Qred_correct.
  unfold Qle. cbn [Qnum Qden]. rewrite Z.mul_0_l, Z.mul_1_r.
  apply Z.sqrt_nonneg.
Qed.

(** X15.  Clipping a floating-point input never reads outside the array:
    for every multiple and parameter that pass the checks, and a [sqrt] that
    returns no negative number, sigma-clipping and MAD-clipping return a
    result after at most [maxnum] turns of the loop, and the number of
    elements reported as used is NaN or a count between 0 and the number of
    non-blank elements. *)
Theorem clip_stays_in_array (sqrt : double -> double)
  (GAL_STATISTICS_CLIP_MAX_CONVERGE : Z) (input : gal_data)
  (multip param : double) (extrastats : clip_extra) (quiet sig1_mad0 : bool)
  (maxnum : Z) :
  (forall x, (sqrt x <? Fin 0)%dbl = false) ->
  is_float (dtype input) = true ->
  (Z.of_nat (length (darray input)) < 2 ^ 64)%Z ->
  clip_checks GAL_STATISTICS_CLIP_MAX_CONVERGE multip param = Ok maxnum ->
  exists rounds out,
    statistics_clip_run sqrt GAL_STATISTICS_CLIP_MAX_CONVERGE input multip
      param extrastats quiet sig1_mad0 = (rounds, Ok out) /\
    (length rounds <= Z.to_nat maxnum)%nat /\
    (clip_number_used out = NaN \/
     exists k, clip_number_used out = of_Z k /\
               (0 <= k <= Z.of_nat (length (gal_blank_remove
                                              (darray input))))%Z).
Proof.
  intros Hsqrt Hf Hsize Hc.
  assert (Hm : (multip <=? Fin 0)%dbl = false).
  { pose proof (clip_checks_prepare _ _ _ Hc) as Hp.
    unfold statistics_clip_prepare in Hp.
    destruct (multip <=? Fin 0)%dbl; [discriminate|reflexivity]. }
  rewrite (Permutation_length (no_blank_sorted_perm input)).
  unfold statistics_clip_run, statistics_clip_view. rewrite Hc.
  set (nbs := gal_statistics_no_blank_sorted input).
  destruct (varr nbs) as [|x [|y l]] eqn:Hv.
  - eexists. eexists. split; [reflexivity|]. split; [cbn; lia|].
    left. reflexivity.
  - eexists. eexists. split; [reflexivity|]. split; [cbn; lia|].
    right. exists 1%Z. split; [reflexivity|]. cbn. lia.
  - rewrite <- Hv.
    destruct (@clip_loop_safe sqrt Hsqrt input multip param sig1_mad0 Hf Hsize
                Hm (Z.to_nat maxnum)
                (mk_cstate 0 (vsize nbs) 0 NaN NaN NaN 0 (vsize nbs)))
      as [rounds [st [E [V [L S]]]]].
    { unfold clip_state_in_range. cbn. unfold vsize. fold nbs. lia. }
    fold nbs in E. rewrite E. cbn [bind].
    destruct (@clip_loop_keeps_range sqrt input multip param sig1_mad0
                (Z.to_nat maxnum) _ st rounds E) as [cur Hcur].
    { cbn. exists (varr nbs). apply subrange_whole. }
    fold nbs in Hcur. rewrite Hcur. cbn [bind].
    eexists. eexists. split; [reflexivity|]. split; [exact L|].
    unfold statistics_clip_stats_extra. cbn [clip_number_used].
    unfold clip_result.
    destruct ((cs_size st =? 0)%Z
              || bytolerance param && (cs_num st =? maxnum)%Z);
      [left; reflexivity|right].
    exists (cs_size st). split; [reflexivity|].
    destruct V as [V1 [V2 V3]]. cbn [cs_size] in S. unfold vsize in S.
    lia.
Qed.

Lemma clip_stays_in_array_witness :
  let input := data_of GAL_TYPE_FLOAT32 [1; 2; 3; 4; 100] in
  exists rounds out,
    statistics_clip_run sqrt_example 50 input (Fin 3) (Fin (1 # 10))
      no_extra true true = (rounds, Ok out) /\
    (length rounds <= Z.to_nat 50)%nat /\
    (clip_number_used out = NaN \/
     exists k, clip_number_used out = of_Z k /\
               (0 <= k <= Z.of_nat (length (gal_blank_remove
                                              (darray input))))%Z).
Proof.
  apply (@clip_stays_in_array sqrt_example 50
           (data_of GAL_TYPE_FLOAT32 [1; 2; 3; 4; 100]) (Fin 3) (Fin (1 # 10))
           no_extra true true 50).
  - exact sqrt_example_nonneg.
  - reflexivity.
  - cbn. lia.
  - reflexivity.
Defined.

(** ** Clipping data without spread *)

(* The median of a floating array lies between any bounds of its elements. *)
Lemma median_between (t : gal_type) (a : list Q) (lo hi : Q) :
  is_float t = true -> a <> [] -> (forall x, In x a -> lo <= x /\ x <= hi) ->
  exists v, statistics_median_in_sorted_no_blank t a = Some v /\
            lo <= v /\ v <= hi.
Proof.
  intros Hf Hne Hall. unfold statistics_median_in_sorted_no_blank.
  assert (Hlen : (0 < length a)%nat)
    by (destruct a; [contradiction|cbn; lia]).
  assert (H2 : (length a / 2 < length a)%nat)
    by (apply Nat.div_lt; lia).
  cbn zeta. destruct (length a) as [|n'] eqn:El; [lia|].
  destruct (Nat.odd (S n')).
  - eexists. split; [reflexivity|]. apply Hall, nth_In. lia.
  - eexists. split; [reflexivity|].
    assert (X : lo <= nth (S n' / 2) a 0 /\ nth (S n' / 2) a 0 <= hi)
      by (apply Hall, nth_In; lia).
    assert (Y : lo <= nth (S n' / 2 - 1) a 0 /\ nth (S n' / 2 - 1) a 0 <= hi)
      by (apply Hall, nth_In; lia).
    unfold cast, it_half, it_add, cast.
    rewrite (float_promote t Hf), Hf. rewrite !Qred_correct.
    split; [apply Qle_shift_div_l; lra | apply Qle_shift_div_r; lra].
Qed.

Lemma fold_Qplus_constant (l : list Q) (c : Q) :
  (forall x, In x l -> x == c) ->
  forall a, fold_left Qplus l a == a + inject_Z (Z.of_nat (length l)) * c.
Proof.
  induction l as [|x l IH]; intros H a; cbn [fold_left length].
  - cbn. ring.
  - rewrite IH by (intros y Hy; apply H; now right).
    rewrite (H x (or_introl eq_refl)).
    rewrite Nat2Z.inj_succ. unfold Z.succ. rewrite inject_Z_plus.
    change (inject_Z 1) with 1. ring.
Qed.

Lemma Qred_zero (q : Q) : q == 0 -> Qred q = 0.
Proof. intro H. now rewrite (Qred_complete _ _ H). Qed.

(* The standard deviation of equal numbers, for a [sqrt] that maps 0 to 0. *)
Lemma std_constant (sqrt : double -> double) (l : list Q) (c : Q) :
  sqrt (Fin 0) = Fin 0 -> l <> [] -> (forall x, In x l -> x == c) ->
  gal_statistics_std sqrt l = Fin 0.
Proof.
  intros Hs Hne H. unfold gal_statistics_std.
  destruct l as [|x [|y l]]; [contradiction|reflexivity|].
  set (l0 := x :: y :: l) in *.
  assert (Hn : (2 <= Z.of_nat (length l0))%Z) by (unfold l0; cbn [length]; lia).
  unfold gal_statistics_std_from_sums.
  destruct (Z.of_nat (length l0) =? 0)%Z eqn:E0; [apply Z.eqb_eq in E0; lia|].
  destruct (Z.of_nat (length l0) =? 1)%Z eqn:E1; [apply Z.eqb_eq in E1; lia|].
  set (n := inject_Z (Z.of_nat (length l0))).
  assert (Hnp : 0 < n).
  { unfold n. change 0 with (inject_Z 0). rewrite <- Zlt_Qlt. lia. }
  assert (S1 : Qsum l0 == n * c).
  { unfold Qsum. rewrite (fold_Qplus_constant l0 H). unfold n. ring. }
  assert (S2 : Qsum (map (fun v => v * v) l0) == n * (c * c)).
  { unfold Qsum. rewrite (@fold_Qplus_constant _ (c * c)).
    - rewrite length_map. unfold n. ring.
    - intros z Hz. apply in_map_iff in Hz. destruct Hz as [v [<- Hv]].
      now rewrite (H v Hv). }
  assert (Q0 : Qeq_bool n 0 = false).
  { destruct (Qeq_bool n 0) eqn:Q0; [|reflexivity].
    apply Qeq_bool_iff in Q0. lra. }
  unfold of_Z. fold n. cbn [Dbl.mul Dbl.div]. rewrite Q0.
  rewrite gtb_Fin.
  set (ss := Qred (Qred (Qred (Qsum l0) * Qred (Qsum l0)) / n)).
  set (sp := Qred (Qsum (map (fun v => v * v) l0))).
  assert (Hss : ss == n * (c * c)).
  { unfold ss. rewrite !Qred_correct, S1. field. lra. }
  assert (Hsp : sp == n * (c * c)).
  { unfold sp. now rewrite Qred_correct. }
  assert (L : Qltb sp ss = false) by (apply Qltb_ge; lra).
  rewrite L. unfold Dbl.sub. cbn [Dbl.neg Dbl.add Dbl.div]. rewrite Q0.
  rewrite Qred_zero; [exact Hs|].
  rewrite !Qred_correct, Hss, Hsp. field. lra.
Qed.

(* The median absolute deviation of equal floating numbers is zero. *)
Lemma mad_constant (t : gal_type) (inc : bool) (cur : list Q) (c : Q) :
  is_float t = true -> cur <> [] -> (forall x, In x cur -> x == c) ->
  exists v,
    statistics_mad_in_sorted_no_blank (mk_view t cur inc)
      (statistics_median_in_sorted_no_blank t cur) = Some v /\ v == 0.
Proof.
  intros Hf Hne Hall.
  destruct (@median_between t cur c c Hf Hne) as [m [Em [M1 M2]]].
  { intros x Hx. rewrite (Hall x Hx). split; lra. }
  rewrite Em.
  unfold statistics_mad_in_sorted_no_blank. cbn [vtype varr].
  set (use := map (fun x => cast t (Qabs (x - m))) cur).
  unfold gal_statistics_median, scalar. cbn [darray].
  assert (Hv : vtype (gal_statistics_no_blank_sorted (data_of t use)) = t).
  { unfold gal_statistics_no_blank_sorted. cbn [data_of darray dtype].
    destruct (gal_blank_remove (map (@Some Q) use)); [reflexivity|].
    destruct (gal_statistics_is_sorted (q :: l)); reflexivity. }
  rewrite Hv.
  pose proof (no_blank_sorted_perm (data_of t use)) as P.
  unfold data_of in P at 1. cbn [darray] in P.
  rewrite blank_remove_data_of in P.
  destruct (@median_between t
              (varr (gal_statistics_no_blank_sorted (data_of t use))) 0 0 Hf)
    as [v [Ev [V1 V2]]].
  - intro E. rewrite E in P. apply Permutation_sym, Permutation_nil in P.
    unfold use in P. destruct cur; [contradiction|discriminate].
  - intros x Hx. apply (Permutation_in _ (Permutation_sym P)) in Hx.
    unfold use in Hx. apply in_map_iff in Hx. destruct Hx as [y [<- Hy]].
    unfold cast. rewrite Hf, Qred_correct.
    assert (E : y - m == 0) by (rewrite (Hall y Hy); lra).
    rewrite E. cbn. split; lra.
  - exists v. split; [exact Ev|lra].
Qed.

(** X16.  In exact arithmetic (where the one-pass formula gives equal
    values the standard deviation 0 exactly, and the mean of two equal
    values is that value): clipping a floating-point input whose non-blank
    elements, two or more, are all equal stops in its first turn on the zero
    spread and returns it as a valid result: the median is that value, the
    spread of the variant (standard deviation or MAD) is 0, every element is
    used, and the number of clips is 0.  [sqrt] is taken to map 0 to 0. *)
Theorem clip_constant_data (sqrt : double -> double)
  (GAL_STATISTICS_CLIP_MAX_CONVERGE : Z) (input : gal_data)
  (multip param : double) (extrastats : clip_extra) (quiet sig1_mad0 : bool)
  (maxnum : Z) (c : Q) :
  sqrt (Fin 0) = Fin 0 ->
  is_float (dtype input) = true ->
  clip_checks GAL_STATISTICS_CLIP_MAX_CONVERGE multip param = Ok maxnum ->
  (1 <= maxnum)%Z ->
  (2 <= length (gal_blank_remove (darray input)))%nat ->
  (forall x, In x (gal_blank_remove (darray input)) -> x == c) ->
  exists out m s,
    statistics_clip sqrt GAL_STATISTICS_CLIP_MAX_CONVERGE input multip param
      extrastats quiet sig1_mad0 = Ok out /\
    clip_median out = Fin m /\ m == c /\
    (if sig1_mad0 then clip_std out else clip_mad out) = Fin s /\ s == 0 /\
    clip_number_used out
    = of_Z (Z.of_nat (length (gal_blank_remove (darray input)))) /\
    clip_number_clips out = of_Z 0 /\
    clip_status out = Some 0%Z.
Proof.
  intros Hs Hf Hc Hmax Hlen Hall.
  pose proof (no_blank_sorted_perm input) as P.
  rewrite (Permutation_length P) in *.
  assert (Hall' : forall x,
             In x (varr (gal_statistics_no_blank_sorted input)) -> x == c).
  { intros x Hx. apply Hall. apply (Permutation_in _ (Permutation_sym P) Hx). }
  assert (Hft : is_float (vtype (gal_statistics_no_blank_sorted input)) = true).
  { exact (@nbs_float input Hf). }
  unfold statistics_clip, statistics_clip_run, statistics_clip_view. rewrite Hc.
  set (nbs := gal_statistics_no_blank_sorted input) in *.
  destruct (varr nbs) as [|x [|y l]] eqn:Hv; cbn [length] in Hlen; try lia.
  rewrite <- Hv in *.
  assert (Hne : varr nbs <> []) by (rewrite Hv; discriminate).
  destruct (Z.to_nat maxnum) as [|fuel] eqn:Ef; [lia|].
  cbn [clip_loop cs_size cs_start cs_num cs_oldspread].
  assert (E0 : (vsize nbs =? 0)%Z = false).
  { apply Z.eqb_neq. unfold vsize. rewrite Hv. cbn [length]. lia. }
  rewrite E0. unfold vsize at 1. rewrite subrange_whole.
  destruct (@median_between (vtype nbs) (varr nbs) c c Hft Hne)
    as [m [Em [M1 M2]]].
  { intros z Hz. rewrite (Hall' z Hz). split; lra. }
  assert (Hsp : exists s,
             clip_spread sqrt sig1_mad0 (vtype nbs) (vinc nbs) (varr nbs)
             = Fin s /\ s == 0).
  { unfold clip_spread. destruct sig1_mad0.
    - exists 0. split; [|reflexivity].
      now apply (@std_constant sqrt (varr nbs) c).
    - destruct (@mad_constant (vtype nbs) (vinc nbs) (varr nbs) c Hft Hne
                  Hall') as [v [Ev V0]].
      exists v. rewrite Ev. split; [reflexivity|exact V0]. }
  destruct Hsp as [s [Es S0]]. rewrite Es.
  assert (Hb : clip_break param 0 (Fin s) NaN = true).
  { apply clip_break_iff. left. cbn [Dbl.eqb]. now apply Qeq_bool_iff. }
  rewrite Hb. cbn [snd bind cs_nbs_start cs_nbs_size].
  unfold vsize at 1. rewrite subrange_whole. cbn [bind].
  unfold clip_center. rewrite Em. cbn [to_double].
  unfold clip_result. cbn [cs_size cs_num cs_center cs_spread].
  rewrite E0.
  assert (Hnm : (0 =? maxnum)%Z = false) by (apply Z.eqb_neq; lia).
  rewrite Hnm, andb_false_r. cbn [orb].
  eexists. exists m, s. split; [reflexivity|].
  unfold statistics_clip_stats_extra.
  cbn [clip_median clip_number_used clip_number_clips clip_status
       clip_std clip_mad].
  split; [reflexivity|]. split; [lra|].
  split.
  { destruct sig1_mad0; cbn [isnan andb]; reflexivity. }
  split; [exact S0|]. repeat split; reflexivity.
Qed.

Lemma clip_constant_data_witness :
  let input := mk_data GAL_TYPE_FLOAT32 [Some 4; None; Some 4; Some 4] in
  exists out m s,
    statistics_clip sqrt_example 50 input (Fin 3) (Fin (1 # 10))
      no_extra true false = Ok out /\
    clip_median out = Fin m /\ m == 4 /\
    clip_mad out = Fin s /\ s == 0 /\
    clip_number_used out
    = of_Z (Z.of_nat (length (gal_blank_remove (darray input)))) /\
    clip_number_clips out = of_Z 0 /\
    clip_status out = Some 0%Z.
Proof.
  assert (A : forall x,
             In x (gal_blank_remove
                     (darray (mk_data GAL_TYPE_FLOAT32
                                [Some 4; None; Some 4; Some 4]))) -> x == 4).
  { intros x [<-|[<-|[<-|[]]]]; reflexivity. }
  assert (M : (1 <= 50)%Z) by lia.
  assert (L : (2 <= 3)%nat) by lia.
  exact (@clip_constant_data sqrt_example 50
           (mk_data GAL_TYPE_FLOAT32 [Some 4; None; Some 4; Some 4])
           (Fin 3) (Fin (1 # 10)) no_extra true false 50 4
           eq_refl eq_refl eq_refl M L A).
Defined.

(** ** The median as a quantile *)

(** X17.  For an input with an odd number of non-blank elements, at most
    2^31, the quantile 0.5 returned by [gal_statistics_quantile] is the
    median returned by [gal_statistics_median], for every element type and
    whichever way the input is sorted. *)
Theorem median_is_middle_quantile (input : gal_data) :
  Nat.odd (length (gal_blank_remove (darray input))) = true ->
  (Z.of_nat (length (gal_blank_remove (darray input))) <= 2 ^ 31)%Z ->
  gal_statistics_quantile input (Fin (1 # 2))
  = Ok (scalar (gal_statistics_median input)).
Proof.
  intros Hodd Hn.
  rewrite (Permutation_length (no_blank_sorted_perm input)) in Hodd, Hn.
  unfold gal_statistics_quantile, gal_statistics_median, scalar, vsize.
  cbn [darray].
  set (nbs := gal_statistics_no_blank_sorted input) in *.
  apply Nat.odd_spec in Hodd. destruct Hodd as [k Hk].
  destruct (varr nbs) as [|a rest] eqn:Ea; [cbn in Hk; lia|].
  rewrite <- Ea in *.
  assert (Hq : (if vinc nbs then Fin (1 # 2) else (Fin 1 - Fin (1 # 2))%dbl)
               = Fin (1 # 2)) by (destruct (vinc nbs); reflexivity).
  rewrite Hq.
  assert (Hfi : inject_Z (Z.of_nat (length (varr nbs)) - 1) * (1 # 2)
                == inject_Z (Z.of_nat k)).
  { replace (Z.of_nat (length (varr nbs)) - 1)%Z with (2 * Z.of_nat k)%Z
      by lia.
    rewrite inject_Z_mult. change (inject_Z 2) with 2. field. }
  assert (Hlt : inject_Z (Z.of_nat (length (varr nbs)) - 1) * (1 # 2)
                < inject_Z (2 ^ 31)).
  { rewrite Hfi. rewrite <- Zlt_Qlt. lia. }
  assert (Q0 : 0 <= 1 # 2) by (unfold Qle; cbn; lia).
  assert (Q1 : 1 # 2 <= 1) by (unfold Qle; cbn; lia).
  rewrite (@quantile_index_within_int (Z.of_nat (length (varr nbs))) (1 # 2)
             ltac:(lia) Q0 Q1 Hlt).
  cbn zeta.
  assert (Hfl : Qfloor (inject_Z (Z.of_nat (length (varr nbs)) - 1) * (1 # 2))
                = Z.of_nat k).
  { rewrite Hfi. apply Qfloor_Z. }
  rewrite Hfl.
  assert (Hfr : Qltb (1 # 2)
                  (inject_Z (Z.of_nat (length (varr nbs)) - 1) * (1 # 2)
                   - inject_Z (Z.of_nat k)) = false).
  { apply Qltb_ge. rewrite Hfi. unfold Qle. cbn. lia. }
  rewrite Hfr. cbn [bind].
  rewrite rd_nat by lia. cbn [bind].
  unfold statistics_median_in_sorted_no_blank.
  assert (Ho : Nat.odd (length (varr nbs)) = true).
  { apply Nat.odd_spec. now exists k. }
  rewrite Ho.
  assert (Hd : (length (varr nbs) / 2)%nat = k).
  { rewrite Hk. rewrite Nat.add_comm, Nat.mul_comm.
    rewrite Nat.div_add by lia. reflexivity. }
  rewrite Hd.
  destruct (length (varr nbs)) eqn:El; [lia|]. reflexivity.
Qed.

Lemma median_is_middle_quantile_witness :
  gal_statistics_quantile
    (mk_data GAL_TYPE_UINT8 [Some 9; None; Some 2; Some 5]) (Fin (1 # 2))
  = Ok (scalar (gal_statistics_median
                  (mk_data GAL_TYPE_UINT8 [Some 9; None; Some 2; Some 5]))).
Proof.
  apply (@median_is_middle_quantile
           (mk_data GAL_TYPE_UINT8 [Some 9; None; Some 2; Some 5])).
  - reflexivity.
  - cbn. lia.
Defined.

(** ** The mirror distribution *)

Lemma sorted_nth (l : list Q) :
  StronglySorted Qle l ->
  forall i j, (i <= j)%nat -> (j < length l)%nat -> nth i l 0 <= nth j l 0.
Proof.
  induction 1 as [|x l Hl IH Hall]; intros i j Hij Hj; [cbn in Hj; lia|].
  destruct j as [|j].
  - replace i with 0%nat by lia. lra.
  - cbn [length] in Hj. destruct i as [|i]; cbn [nth].
    + rewrite Forall_forall in Hall. apply Hall, nth_In. lia.
    + apply IH; lia.
Qed.

(** X18.  In exact arithmetic (the reflections [2*zf - m[index-i]] neither
    rounded to the floating type nor overflowing): for a floating-point view
    sorted in increasing order and an index inside it,
    [statistics_make_mirror] returns the value at the index as the mirror
    value and an array of 2*index+1 elements that is symmetric about it (the
    elements at equal distances before and after position [index] add up to
    twice the mirror value) and sorted in increasing order. *)
Theorem make_mirror_symmetric (v : view) (index : nat) :
  is_float (vtype v) = true ->
  StronglySorted Qle (varr v) ->
  (index < length (varr v))%nat ->
  exists m,
    statistics_make_mirror v (Z.of_nat index)
    = Ok (m, Fin (nth index (varr v) 0)) /\
    length m = (2 * index + 1)%nat /\
    nth index m 0 = nth index (varr v) 0 /\
    (forall i, (i <= index)%nat ->
       nth (index - i) m 0 + nth (index + i) m 0
       == 2 * nth index (varr v) 0) /\
    (forall i j, (i <= j)%nat -> (j < length m)%nat ->
       nth i m 0 <= nth j m 0).
Proof.
  intros Hf Hs Hi.
  unfold statistics_make_mirror, vsize.
  destruct (Z.of_nat index >=? Z.of_nat (length (varr v)))%Z eqn:E1.
  { rewrite Z.geb_le in E1. lia. }
  destruct (Z.of_nat index <? 0)%Z eqn:E2; [apply Z.ltb_lt in E2; lia|].
  rewrite Nat2Z.id. cbn zeta.
  set (a := varr v) in *. set (t := vtype v) in *.
  set (zf := nth index a 0).
  set (left := firstn (S index) a).
  set (g := fun i => cast t (it_mirror t zf (nth (index - i) left 0))).
  assert (Ll : length left = S index).
  { unfold left. rewrite firstn_length_le; lia. }
  assert (N0 : forall k, (k <= index)%nat -> nth k left 0 = nth k a 0).
  { intros k Hk. unfold left. rewrite nth_firstn.
    destruct (k <? S index)%nat eqn:E; [reflexivity|].
    apply Nat.ltb_ge in E. lia. }
  assert (N1 : forall k, (k <= index)%nat ->
                 nth k (left ++ map g (seq 1 index)) 0 = nth k a 0).
  { intros k Hk. rewrite app_nth1 by lia. now apply N0. }
  assert (Hg : forall i, g i == 2 * zf - nth (index - i) a 0).
  { intro i. unfold g, cast, it_mirror, cast.
    rewrite (float_promote t Hf), Hf, !Qred_correct, N0 by lia.
    reflexivity. }
  assert (N2 : forall i, (1 <= i)%nat -> (i <= index)%nat ->
                 nth (index + i) (left ++ map g (seq 1 index)) 0 = g i).
  { intros i H1 H2. rewrite app_nth2 by lia. rewrite Ll.
    replace (index + i - S index)%nat with (i - 1)%nat by lia.
    rewrite (@nth_map_default _ _ g _ 0%nat) by (rewrite length_seq; lia).
    rewrite seq_nth by lia. f_equal. lia. }
  exists (left ++ map g (seq 1 index)).
  assert (Lm : length (left ++ map g (seq 1 index)) = (2 * index + 1)%nat).
  { rewrite length_app, length_map, length_seq, Ll. lia. }
  split; [reflexivity|]. split; [exact Lm|]. split; [now apply N1|]. split.
  - intros i Hi'. destruct i as [|i].
    + rewrite Nat.sub_0_r, Nat.add_0_r, N1 by lia. fold zf. ring.
    + rewrite N1 by lia. rewrite N2 by lia. rewrite Hg. fold zf. ring.
  - intros i j Hij Hj. rewrite Lm in Hj.
    assert (Hz : forall k, (k <= index)%nat -> nth k a 0 <= zf).
    { intros k Hk. unfold zf. apply sorted_nth; [assumption|lia|lia]. }
    destruct (Nat.le_gt_cases j index) as [Jl|Jg].
    + rewrite !N1 by lia. apply sorted_nth; [assumption|lia|lia].
    + replace j with (index + (j - index))%nat by lia.
      rewrite N2 by lia. rewrite Hg.
      destruct (Nat.le_gt_cases i index) as [Il|Ig].
      * rewrite N1 by lia.
        assert (A := Hz i Il).
        assert (B := Hz (index - (j - index))%nat ltac:(lia)). lra.
      * replace i with (index + (i - index))%nat at 1 by lia.
        rewrite N2 by lia. rewrite Hg.
        assert (A : nth (index - (j - index)) a 0
                    <= nth (index - (i - index)) a 0)
          by (apply sorted_nth; [assumption|lia|lia]).
        lra.
Qed.

Lemma make_mirror_symmetric_witness :
  let v := mk_view GAL_TYPE_FLOAT64 [1; 2; 4; 7; 9] true in
  exists m,
    statistics_make_mirror v (Z.of_nat 2)
    = Ok (m, Fin (nth 2 (varr v) 0)) /\
    length m = (2 * 2 + 1)%nat /\
    nth 2 m 0 = nth 2 (varr v) 0 /\
    (forall i, (i <= 2)%nat ->
       nth (2 - i) m 0 + nth (2 + i) m 0 == 2 * nth 2 (varr v) 0) /\
    (forall i j, (i <= j)%nat -> (j < length m)%nat ->
       nth i m 0 <= nth j m 0).
Proof.
  assert (S : StronglySorted Qle [1; 2; 4; 7; 9]).
  { repeat (constructor; [|repeat (constructor; [unfold Qle; cbn; lia|]);
                           constructor]). constructor. }
  assert (I : (2 < 5)%nat) by lia.
  exact (@make_mirror_symmetric (mk_view GAL_TYPE_FLOAT64 [1; 2; 4; 7; 9] true)
           2%nat eq_refl S I).
Defined.

(** ** Instances of the earlier lemmas *)

(* MAD-clipping [0, 10] by tolerance clips the range to nothing in its first
   turn. *)
Lemma clip_unconverged_all_nan_witness :
  statistics_clip sqrt_example 5 (data_of GAL_TYPE_FLOAT64 [0; 10]) (Fin 1)
    (Fin (1 # 2)) no_extra true false
  = Ok (clip_all_nan (Some 1%Z) []).
Proof.
  assert (H1 : clip_checks 5 (Fin 1) (Fin (1 # 2)) = Ok 5%Z) by reflexivity.
  assert (H2 : (1 < 2)%Z) by lia.
  assert (H3 : clip_loop sqrt_example (Z.to_nat 5)
                 (gal_statistics_no_blank_sorted
                    (data_of GAL_TYPE_FLOAT64 [0; 10]))
                 (Fin 1) (Fin (1 # 2)) false
                 (mk_cstate 0
                    (vsize (gal_statistics_no_blank_sorted
                              (data_of GAL_TYPE_FLOAT64 [0; 10])))
                    0 NaN NaN NaN 0
                    (vsize (gal_statistics_no_blank_sorted
                              (data_of GAL_TYPE_FLOAT64 [0; 10]))))
               = ([mk_round 0 2 (Fin 5) (Fin 5) NaN false],
                  Ok (mk_cstate 1 0 1 (Fin 5) (Fin 5) (Fin 5) 0 2)))
    by (vm_compute; reflexivity).
  assert (H4 : cs_size (mk_cstate 1 0 1 (Fin 5) (Fin 5) (Fin 5) 0 2) = 0%Z \/
               (bytolerance (Fin (1 # 2)) = true /\
                cs_num (mk_cstate 1 0 1 (Fin 5) (Fin 5) (Fin 5) 0 2) = 5%Z))
    by (left; reflexivity).
  exact (@clip_unconverged_all_nan sqrt_example 5
           (data_of GAL_TYPE_FLOAT64 [0; 10]) (Fin 1) (Fin (1 # 2)) true false
           5%Z [mk_round 0 2 (Fin 5) (Fin 5) NaN false]
           (mk_cstate 1 0 1 (Fin 5) (Fin 5) (Fin 5) 0 2) H1 H2 H3 H4).
Defined.

Lemma quantile_function_strictly_increasing_witness :
  gal_statistics_quantile_function (data_of GAL_TYPE_FLOAT64 [1; 2; 4; 8])
    (nth 2 [1; 2; 4; 8] 0)
  = Ok (if (3 <? length [1; 2; 4; 8])%nat
        then (of_Z (Z.of_nat 2) / of_Z (Z.of_nat (length [1; 2; 4; 8]) - 1))%dbl
        else PInf).
Proof.
  assert (H : strictly_increasing [1; 2; 4; 8]).
  { cbn. repeat split; reflexivity. }
  assert (H2 : (2 <= 4)%nat) by lia.
  assert (H3 : (2 < 4)%nat) by lia.
  exact (@quantile_function_strictly_increasing GAL_TYPE_FLOAT64 eq_refl
           [1; 2; 4; 8] 2%nat H H2 H3).
Defined.


(** ** What the sortedness check reports *)

Lemma sorted_scan_increasing (l : list Q) :
  StronglySorted Qle l -> scan_increasing l = true.
Proof.
  induction 1 as [|x l Hl IH Hall]; [reflexivity|].
  destruct l as [|y l]; [reflexivity|].
  change (scan_increasing (x :: y :: l))
    with (negb (Qltb y x) && scan_increasing (y :: l)).
  rewrite IH, andb_true_r.
  apply negb_true_iff, Qltb_ge.
  rewrite Forall_forall in Hall. apply Hall. now left.
Qed.

Lemma sorted_scan_decreasing (l : list Q) :
  StronglySorted (fun a b => b <= a) l -> scan_decreasing l = true.
Proof.
  induction 1 as [|x l Hl IH Hall]; [reflexivity|].
  destruct l as [|y l]; [reflexivity|].
  change (scan_decreasing (x :: y :: l))
    with (negb (Qltb x y) && scan_decreasing (y :: l)).
  rewrite IH, andb_true_r.
  apply negb_true_iff, Qltb_ge.
  rewrite Forall_forall in Hall. apply Hall. now left.
Qed.

(** X22.  [gal_statistics_is_sorted] reports an array as sorted increasing
    exactly when no element is smaller than the one before it (arrays of
    fewer than two elements included), and as sorted decreasing exactly
    when no element is larger than the one before it and the second element
    is strictly below the first.  So an array in non-increasing order that
    starts with two equal elements and then falls is reported as not
    sorted. *)
Theorem is_sorted_reports (l : list Q) :
  (gal_statistics_is_sorted l = STATISTICS_IS_SORTED_INCREASING <->
   StronglySorted Qle l) /\
  (gal_statistics_is_sorted l = STATISTICS_IS_SORTED_DECREASING <->
   StronglySorted (fun a b => b <= a) l /\ nth 1 l 0 < nth 0 l 0 /\
   (2 <= length l)%nat) /\
  (forall a b : Q, b < a ->
     gal_statistics_is_sorted [a; a; b] = STATISTICS_IS_SORTED_NOT).
Proof.
  split; [|split].
  - unfold gal_statistics_is_sorted.
    destruct l as [|a0 [|a1 tl]].
    + split; [constructor|reflexivity].
    + split; [repeat constructor|reflexivity].
    + destruct (Qle_bool a0 a1) eqn:E.
      * destruct (scan_increasing (a0 :: a1 :: tl)) eqn:S.
        { split; [intros _; now apply scan_increasing_sorted|reflexivity]. }
        { split; [discriminate|]. intro H.
          apply sorted_scan_increasing in H. congruence. }
      * apply Qle_bool_false in E.
        assert (N : ~ StronglySorted Qle (a0 :: a1 :: tl)).
        { intro H. inversion H as [|? ? _ Hall]; subst.
          rewrite Forall_forall in Hall.
          assert (a0 <= a1) by (apply Hall; now left). lra. }
        destruct (scan_decreasing (a0 :: a1 :: tl));
          (split; [discriminate|intro H; contradiction]).
  - unfold gal_statistics_is_sorted.
    destruct l as [|a0 [|a1 tl]].
    + split; [discriminate|]. intros [_ [_ H]]. cbn in H. lia.
    + split; [discriminate|]. intros [_ [_ H]]. cbn in H. lia.
    + cbn [nth length].
      destruct (Qle_bool a0 a1) eqn:E.
      * apply Qle_bool_iff in E.
        destruct (scan_increasing (a0 :: a1 :: tl));
          (split; [discriminate|intros [_ [H _]]; lra]).
      * apply Qle_bool_false in E.
        destruct (scan_decreasing (a0 :: a1 :: tl)) eqn:S.
        { split; [intros _|reflexivity].
          split; [now apply scan_decreasing_sorted|]. split; [exact E|lia]. }
        { split; [discriminate|]. intros [H _].
          apply sorted_scan_decreasing in H. congruence. }
  - intros a b Hab. unfold gal_statistics_is_sorted.
    assert (E : Qle_bool a a = true) by (apply Qle_bool_iff; lra).
    rewrite E. cbn [scan_increasing].
    assert (L1 : Qltb a a = false) by (apply Qltb_ge; lra).
    assert (L2 : Qltb b a = true) by (now apply Qltb_lt).
    now rewrite L1, L2.
Qed.

(** ** The standard deviation *)

Lemma fold_Qplus_acc (l : list Q) :
  forall a, fold_left Qplus l a == a + fold_left Qplus l 0.
Proof.
  induction l as [|x l IH]; intro a; cbn [fold_left]; [ring|].
  rewrite (IH (a + x)), (IH (0 + x)). ring.
Qed.

Lemma Qsum_cons (x : Q) (l : list Q) : Qsum (x :: l) == x + Qsum l.
Proof.
  unfold Qsum. cbn [fold_left]. rewrite fold_Qplus_acc. ring.
Qed.

(* The sum of the squared deviations from any [mu]. *)
Lemma sum_squared_deviations (mu : Q) (l : list Q) :
  Qsum (map (fun x => (x - mu) * (x - mu)) l)
  == Qsum (map (fun v => v * v) l) - 2 * mu * Qsum l
     + inject_Z (Z.of_nat (length l)) * (mu * mu).
Proof.
  induction l as [|x l IH]; cbn [map length].
  - unfold Qsum. cbn. ring.
  - rewrite !Qsum_cons, IH. rewrite Nat2Z.inj_succ. unfold Z.succ.
    rewrite inject_Z_plus. change (inject_Z 1) with 1. ring.
Qed.

Lemma Qsquare_nonneg (q : Q) : 0 <= q * q.
Proof.
  destruct (Qlt_le_dec q 0) as [N|P].
  - setoid_replace (q * q) with ((- q) * (- q)) by ring.
    apply Qmult_le_0_compat; lra.
  - now apply Qmult_le_0_compat.
Qed.

Lemma sum_squares_nonneg (mu : Q) (l : list Q) :
  0 <= Qsum (map (fun x => (x - mu) * (x - mu)) l).
Proof.
  induction l as [|x l IH]; cbn [map].
  - unfold Qsum. cbn. lra.
  - rewrite Qsum_cons.
    assert (S := Qsquare_nonneg (x - mu)). lra.
Qed.

(** X23.  In exact arithmetic (the sums and the one-pass formula not rounded
    to binary64): for a dataset of two or more elements, none of them blank,
    [gal_statistics_std] is the population standard deviation, the square
    root of the mean of the squared deviations from the mean (the sum is
    divided by the number of elements, not by one less), and the guard that
    returns 0 when the square of the sum exceeds the sum of the squares is
    never taken. *)
Theorem std_is_population_deviation (sqrt : double -> double) (l : list Q) :
  (2 <= length l)%nat ->
  let n := inject_Z (Z.of_nat (length l)) in
  let mu := Qsum l / n in
  exists v,
    gal_statistics_std sqrt l = sqrt (Fin v) /\
    v == Qsum (map (fun x => (x - mu) * (x - mu)) l) / n /\
    0 <= v.
Proof.
  intros Hlen n mu.
  assert (Hnp : 0 < n).
  { unfold n. change 0 with (inject_Z 0). rewrite <- Zlt_Qlt. lia. }
  assert (Hdev : Qsum (map (fun x => (x - mu) * (x - mu)) l)
                 == Qsum (map (fun v => v * v) l) - Qsum l * Qsum l / n).
  { rewrite sum_squared_deviations. fold n. unfold mu. field. lra. }
  assert (Hpos := sum_squares_nonneg mu l).
  unfold gal_statistics_std.
  destruct l as [|x [|y tl]]; try (cbn [length] in Hlen; lia).
  set (l := x :: y :: tl) in *.
  unfold gal_statistics_std_from_sums.
  destruct (Z.of_nat (length l) =? 0)%Z eqn:E0; [apply Z.eqb_eq in E0; lia|].
  destruct (Z.of_nat (length l) =? 1)%Z eqn:E1; [apply Z.eqb_eq in E1; lia|].
  assert (Q0 : Qeq_bool n 0 = false).
  { destruct (Qeq_bool n 0) eqn:Q0; [|reflexivity].
    apply Qeq_bool_iff in Q0. lra. }
  unfold of_Z. fold n. cbn [Dbl.mul Dbl.div]. rewrite Q0.
  rewrite gtb_Fin.
  set (ss := Qred (Qred (Qred (Qsum l) * Qred (Qsum l)) / n)).
  set (sp := Qred (Qsum (map (fun v => v * v) l))).
  assert (Hss : ss == Qsum l * Qsum l / n).
  { unfold ss. rewrite !Qred_correct. reflexivity. }
  assert (Hsp : sp == Qsum (map (fun v => v * v) l)).
  { unfold sp. now rewrite Qred_correct. }
  assert (L : Qltb sp ss = false) by (apply Qltb_ge; lra).
  rewrite L. unfold Dbl.sub. cbn [Dbl.neg Dbl.add Dbl.div]. rewrite Q0.
  eexists. split; [reflexivity|].
  assert (Hv : Qred (Qred (sp + Qred (- ss)) / n)
               == Qsum (map (fun x => (x - mu) * (x - mu)) l) / n).
  { rewrite !Qred_correct, Hss, Hsp, Hdev. reflexivity. }
  split; [exact Hv|]. rewrite Hv.
  apply Qle_shift_div_l; [exact Hnp|]. lra.
Qed.

Lemma std_is_population_deviation_witness :
  let l := [2; 4; 4; 4; 5; 5; 7; 9] in
  let n := inject_Z (Z.of_nat (length l)) in
  let mu := Qsum l / n in
  exists v,
    gal_statistics_std sqrt_example l = sqrt_example (Fin v) /\
    v == Qsum (map (fun x => (x - mu) * (x - mu)) l) / n /\
    0 <= v.
Proof.
  apply (@std_is_population_deviation sqrt_example [2; 4; 4; 4; 5; 5; 7; 9]).
  cbn. lia.
Defined.

(** ** Quantiles follow the order of the data *)

Lemma quantile_index_order (size : Z) (qa qb : Q) :
  (1 <= size <= 2 ^ 31)%Z -> 0 <= qa -> qa <= qb -> qb <= 1 ->
  exists ia ib : Z,
    gal_statistics_quantile_index size (Fin qa) = Ok (Some ia) /\
    gal_statistics_quantile_index size (Fin qb) = Ok (Some ib) /\
    (0 <= ia)%Z /\ (ia <= ib)%Z /\ (ib <= size - 1)%Z.
Proof.
  intros Hs H0 Hab H1.
  destruct (@quantile_index_rounds size qa Hs) as [ia [Ea [Ba [La Ua]]]];
    [lra|lra|].
  destruct (@quantile_index_rounds size qb Hs) as [ib [Eb [Bb [Lb Ub]]]];
    [lra|lra|].
  exists ia, ib. split; [exact Ea|]. split; [exact Eb|].
  split; [lia|]. split; [|lia].
  assert (M : inject_Z (size - 1) * qa <= inject_Z (size - 1) * qb).
  { rewrite !(Qmult_comm (inject_Z (size - 1))).
    apply Qmult_le_compat_r; [assumption|].
    change 0 with (inject_Z 0). rewrite <- Zle_Qle. lia. }
  assert (L : (ia - 1 < ib)%Z); [|lia].
  rewrite Zlt_Qlt. unfold Z.sub. rewrite inject_Z_plus.
  change (inject_Z (- (1))) with (- (1)). lra.
Qed.

Lemma rsorted_nth (l : list Q) :
  StronglySorted (fun a b => b <= a) l ->
  forall i j, (i <= j)%nat -> (j < length l)%nat -> nth j l 0 <= nth i l 0.
Proof.
  induction 1 as [|x l Hl IH Hall]; intros i j Hij Hj; [cbn in Hj; lia|].
  destruct j as [|j].
  - replace i with 0%nat by lia. lra.
  - cbn [length] in Hj. destruct i as [|i]; cbn [nth].
    + rewrite Forall_forall in Hall. apply Hall, nth_In. lia.
    + apply IH; lia.
Qed.

(** X24.  For an input with between 1 and 2^31 non-blank elements and two
    quantiles 0 <= q1 <= q2 <= 1 on which the code computes without rounding
    (each quantile [q], its complement [1-q] used on data found in
    decreasing order, their float indices and the successors of these are
    binary64 numbers), [gal_statistics_quantile] returns for each a
    non-blank element of the input, and the one returned for [q1] is not
    larger than the one returned for [q2], whichever way the input is
    sorted. *)
Theorem quantile_monotone (input : gal_data) (q1 q2 : Q) :
  let n := Z.of_nat (length (gal_blank_remove (darray input))) in
  (1 <= n <= 2 ^ 31)%Z ->
  0 <= q1 -> q1 <= q2 -> q2 <= 1 ->
  index_exact n q1 -> index_exact n (1 - q1) ->
  index_exact n q2 -> index_exact n (1 - q2) ->
  exists x1 x2 : Q,
    gal_statistics_quantile input (Fin q1) = Ok (Some x1) /\
    gal_statistics_quantile input (Fin q2) = Ok (Some x2) /\
    x1 <= x2 /\
    In x1 (gal_blank_remove (darray input)) /\
    In x2 (gal_blank_remove (darray input)).
Proof.
  intros n Hn H0 H12 H1 _ _ _ _. unfold n in Hn. clear n.
  pose proof (no_blank_sorted_perm input) as P.
  pose proof (no_blank_sorted_order input) as O. cbn zeta in O.
  unfold gal_statistics_quantile, vsize.
  set (nbs := gal_statistics_no_blank_sorted input) in *.
  rewrite (Permutation_length P) in Hn.
  assert (Hin : forall k, (k < length (varr nbs))%nat ->
                  In (nth k (varr nbs) 0) (gal_blank_remove (darray input))).
  { intros k Hk. apply (Permutation_in _ (Permutation_sym P)).
    now apply nth_In. }
  destruct (varr nbs) as [|a rest] eqn:Ea; [cbn in Hn; lia|].
  rewrite <- Ea in *.
  destruct (vinc nbs).
  - destruct (@quantile_index_order _ q1 q2 Hn H0 H12 H1)
      as [i1 [i2 [E1 [E2 [B0 [B1 B2]]]]]].
    rewrite E1, E2. cbn [bind].
    replace i1 with (Z.of_nat (Z.to_nat i1)) by lia.
    replace i2 with (Z.of_nat (Z.to_nat i2)) by lia.
    rewrite !rd_nat by lia. cbn [bind].
    do 2 eexists. split; [reflexivity|]. split; [reflexivity|].
    split; [apply sorted_nth; [assumption|lia|lia]|].
    split; apply Hin; lia.
  - assert (Ha : forall q, (Fin 1 - Fin q)%dbl = Fin (Qred (1 + Qred (- q))))
      by reflexivity.
    rewrite !Ha.
    assert (C1 : Qred (1 + Qred (- q1)) == 1 - q1)
      by (rewrite !Qred_correct; ring).
    assert (C2 : Qred (1 + Qred (- q2)) == 1 - q2)
      by (rewrite !Qred_correct; ring).
    destruct (@quantile_index_order _ (Qred (1 + Qred (- q2)))
                (Qred (1 + Qred (- q1))) Hn)
      as [i2 [i1 [E2 [E1 [B0 [B1 B2]]]]]]; try lra.
    rewrite E1, E2. cbn [bind].
    replace i1 with (Z.of_nat (Z.to_nat i1)) by lia.
    replace i2 with (Z.of_nat (Z.to_nat i2)) by lia.
    rewrite !rd_nat by lia. cbn [bind].
    do 2 eexists. split; [reflexivity|]. split; [reflexivity|].
    split; [apply rsorted_nth; [assumption|lia|lia]|].
    split; apply Hin; lia.
Qed.

Lemma quantile_monotone_witness :
  let input :=
    mk_data GAL_TYPE_FLOAT64 [Some 9; Some 7; None; Some 4; Some 1] in
  index_exact 4 (1 # 4) /\ index_exact 4 (1 - (1 # 4)) /\
  index_exact 4 (3 # 4) /\ index_exact 4 (1 - (3 # 4)) /\
  exists x1 x2 : Q,
    gal_statistics_quantile input (Fin (1 # 4)) = Ok (Some x1) /\
    gal_statistics_quantile input (Fin (3 # 4)) = Ok (Some x2) /\
    x1 <= x2 /\
    In x1 (gal_blank_remove (darray input)) /\
    In x2 (gal_blank_remove (darray input)).
Proof.
  assert (X1 : index_exact 4 (1 # 4))
    by (repeat split; vm_compute; reflexivity).
  assert (X2 : index_exact 4 (1 - (1 # 4)))
    by (repeat split; vm_compute; reflexivity).
  assert (X3 : index_exact 4 (3 # 4))
    by (repeat split; vm_compute; reflexivity).
  assert (X4 : index_exact 4 (1 - (3 # 4)))
    by (repeat split; vm_compute; reflexivity).
  split; [exact X1|]. split; [exact X2|]. split; [exact X3|].
  split; [exact X4|].
  apply (@quantile_monotone
           (mk_data GAL_TYPE_FLOAT64 [Some 9; Some 7; None; Some 4; Some 1])
           (1 # 4) (3 # 4)).
  - cbn. lia.
  - unfold Qle; cbn; lia.
  - unfold Qle; cbn; lia.
  - unfold Qle; cbn; lia.
  - exact X1.
  - exact X2.
  - exact X3.
  - exact X4.
Defined.

(** X25.  For data without blanks in non-decreasing order, of between 2 and
    2^31 elements, and a position [k] whose quantile [k/(n-1)] is a binary64
    number (so that it can be given to the function as it is), the quantile
    [k/(n-1)] returned by [gal_statistics_quantile] is the element at
    position [k]: the quantiles at such grid points are the data
    themselves. *)
Theorem quantile_at_grid_point (t : gal_type) (a : list Q) (k : nat) :
  StronglySorted Qle a ->
  (2 <= Z.of_nat (length a) <= 2 ^ 31)%Z ->
  (k < length a)%nat ->
  index_exact (Z.of_nat (length a))
    (inject_Z (Z.of_nat k) / inject_Z (Z.of_nat (length a) - 1)) ->
  gal_statistics_quantile (data_of t a)
    (of_Z (Z.of_nat k) / of_Z (Z.of_nat (length a) - 1))%dbl
  = Ok (Some (nth k a 0)).
Proof.
  intros Hs Hn Hk _.
  assert (Hv : gal_statistics_no_blank_sorted (data_of t a) = mk_view t a true).
  { unfold gal_statistics_no_blank_sorted, data_of. cbn [darray dtype].
    rewrite blank_remove_data_of.
    destruct a as [|a0 [|a1 tl]]; try (cbn [length] in Hn; lia).
    assert (Hi : gal_statistics_is_sorted (a0 :: a1 :: tl)
                 = STATISTICS_IS_SORTED_INCREASING).
    { unfold gal_statistics_is_sorted.
      rewrite (sorted_scan_increasing Hs).
      assert (A : a0 <= a1).
      { inversion Hs as [|? ? _ Hall]; subst.
        rewrite Forall_forall in Hall. apply Hall. now left. }
      apply Qle_bool_iff in A. now rewrite A. }
    now rewrite Hi. }
  unfold gal_statistics_quantile. rewrite Hv. cbn [varr vinc vsize].
  clear Hv. destruct a as [|a0 tl]; [cbn [length] in Hn; lia|].
  cbv beta iota. set (a := a0 :: tl) in *.
  change (vsize (mk_view t a true)) with (Z.of_nat (length a)).
  set (n1 := (Z.of_nat (length a) - 1)%Z) in *.
  assert (Hn1 : (0 < n1)%Z) by (unfold n1; lia).
  rewrite div_of_Z by assumption.
  set (q := Qred (inject_Z (Z.of_nat k) / inject_Z n1)).
  assert (Hnq : 0 < inject_Z n1).
  { change 0 with (inject_Z 0). rewrite <- Zlt_Qlt. assumption. }
  assert (Hq : q == inject_Z (Z.of_nat k) / inject_Z n1)
    by (unfold q; apply Qred_correct).
  assert (Hk0 : 0 <= inject_Z (Z.of_nat k)).
  { change 0 with (inject_Z 0). rewrite <- Zle_Qle. lia. }
  assert (Hk1 : inject_Z (Z.of_nat k) <= inject_Z n1).
  { rewrite <- Zle_Qle. unfold n1. lia. }
  assert (Q0 : 0 <= q).
  { rewrite Hq. apply Qle_shift_div_l; [assumption|]. lra. }
  assert (Q1 : q <= 1).
  { rewrite Hq. apply Qle_shift_div_r; [assumption|]. lra. }
  assert (Hfi : inject_Z n1 * q == inject_Z (Z.of_nat k)).
  { rewrite Hq. field. lra. }
  assert (Hlt : inject_Z n1 * q < inject_Z (2 ^ 31)).
  { rewrite Hfi. rewrite <- Zlt_Qlt. lia. }
  rewrite (@quantile_index_within_int (Z.of_nat (length a)) q ltac:(lia)
             Q0 Q1 Hlt).
  cbn zeta. fold n1.
  assert (Hfl : Qfloor (inject_Z n1 * q) = Z.of_nat k).
  { rewrite Hfi. apply Qfloor_Z. }
  rewrite Hfl.
  assert (Hfr : Qltb (1 # 2) (inject_Z n1 * q - inject_Z (Z.of_nat k))
                = false).
  { apply Qltb_ge. rewrite Hfi. unfold Qle. cbn. lia. }
  rewrite Hfr. cbn [bind]. rewrite rd_nat by assumption. reflexivity.
Qed.

Lemma quantile_at_grid_point_witness :
  index_exact 5 (inject_Z 2 / inject_Z (5 - 1)) /\
  gal_statistics_quantile (data_of GAL_TYPE_INT32 [1; 2; 2; 8; 9])
    (of_Z (Z.of_nat 2) / of_Z (Z.of_nat (length [1; 2; 2; 8; 9]) - 1))%dbl
  = Ok (Some (nth 2 [1; 2; 2; 8; 9] 0)).
Proof.
  assert (X : index_exact 5 (inject_Z 2 / inject_Z (5 - 1)))
    by (repeat split; vm_compute; reflexivity).
  assert (S : StronglySorted Qle [1; 2; 2; 8; 9]).
  { repeat (constructor; [|repeat (constructor; [unfold Qle; cbn; lia|]);
                           constructor]). constructor. }
  assert (N : (2 <= Z.of_nat 5 <= 2 ^ 31)%Z) by lia.
  assert (K : (2 < 5)%nat) by lia.
  split; [exact X|].
  exact (@quantile_at_grid_point GAL_TYPE_INT32 [1; 2; 2; 8; 9] 2%nat S N K X).
Defined.

(** ** The histogram on shifted bins *)

Lemma filter_length_lt {A : Type} (f : A -> bool) (l : list A) (x : A) :
  In x l -> f x = false -> (length (filter f l) < length l)%nat.
Proof.
  induction l as [|y l IH]; intros Hin Hf; [contradiction|].
  cbn [filter length]. destruct Hin as [<-|Hin].
  - rewrite Hf. assert (H := filter_length_le f l). lia.
  - specialize (IH Hin Hf). destruct (f y); cbn [length]; lia.
Qed.

(* Without integer blanks the cells within the range are the non-blank
   elements within it. *)
Lemma count_in_range_nonblank (blank_value : gal_type -> Q) (t : gal_type)
  (mn mx : Q) (cells : list (option Q)) :
  is_float t = true \/ ~ In None cells ->
  count_in_range blank_value t mn mx cells
  = Z.of_nat (length (filter (fun x => Qle_bool mn x && Qle_bool x mx)
                        (gal_blank_remove cells))).
Proof.
  intro NB. unfold count_in_range. f_equal.
  induction cells as [|[x|] cells IH]; [reflexivity| |].
  - cbn [filter gal_blank_remove]. unfold in_range at 1. cbn [cell_double].
    rewrite geb_Fin, leb_Fin.
    assert (IH' : length (filter (in_range blank_value t mn mx) cells)
                  = length (filter (fun x => Qle_bool mn x && Qle_bool x mx)
                              (gal_blank_remove cells))).
    { apply IH. destruct NB as [NB|NB]; [now left|right].
      intro H. apply NB. now right. }
    destruct (Qle_bool mn x && Qle_bool x mx); cbn [length]; now rewrite IH'.
  - cbn [filter gal_blank_remove].
    destruct NB as [NB|NB]; [|exfalso; apply NB; now left].
    unfold in_range at 1. cbn [cell_double]. rewrite NB. cbn.
    apply IH. now left.
Qed.

(** X26.  In exact arithmetic (the centers, the shift and the edges not
    rounded to binary64): when [gal_statistics_regular_bins] shifts the bins
    so that one of them starts at [onebinstart], the bins start above the
    smallest element of the data: the histogram made on them counts only the
    elements at or above the new first edge, [min + (onebinstart - edge)],
    and so fewer than all the non-blank elements. *)
Theorem histogram_on_shifted_bins_misses_low_end
  (type_max type_min blank_value : gal_type -> Q)
  (input : gal_data) (lo hi : Q) (numbins : Z) (obs : Q) (k : nat) :
  In lo (gal_blank_remove (darray input)) ->
  In hi (gal_blank_remove (darray input)) ->
  (forall x, In x (gal_blank_remove (darray input)) -> lo <= x /\ x <= hi) ->
  (forall x, In x (gal_blank_remove (darray input)) ->
     type_min (dtype input) <= x /\ x <= type_max (dtype input)) ->
  (1 <= numbins < 2 ^ 64)%Z -> lo < hi ->
  is_float (dtype input) = true \/ ~ In None (darray input) ->
  let w := (hi - lo) / inject_Z numbins in
  (S k < Z.to_nat numbins)%nat ->
  lo + inject_Z (Z.of_nat k) * w < obs ->
  obs < lo + inject_Z (Z.of_nat (S k)) * w ->
  let first_edge := lo + (obs - (lo + inject_Z (Z.of_nat k) * w)) in
  exists d h,
    gal_statistics_regular_bins type_max type_min input [] numbins (Fin obs)
    = Ok (Some (map Fin d)) /\
    gal_statistics_histogram blank_value input (Some (mk_bins d true)) false
      false = Ok (HistCounts h) /\
    Zsum h = Z.of_nat (length (filter (fun x => Qle_bool first_edge x)
                                 (gal_blank_remove (darray input)))) /\
    (Zsum h < Z.of_nat (length (gal_blank_remove (darray input))))%Z.
Proof.
  intros lo_in hi_in lo_hi in_type Hn Hlh NB w Hk H1 H2 first_edge.
  destruct (regular_bins_unfold type_max type_min input lo_in hi_in lo_hi
              in_type (proj1 Hn)) as [m [w' [hb [Hm [Hw [Hhb U]]]]]].
  fold w in Hw, Hhb.
  rewrite U. cbn zeta. cbn [isnan].
  rewrite (@onebin_search_found lo hi numbins (proj1 Hn) Hlh m w' hb obs Hm Hw
             k H1 H2 (Z.to_nat numbins) 0%nat) by lia.
  set (diff := Qred (obs + Qred (- Qred (center_value m w' hb k
                                         + Qred (- hb))))).
  set (c := fun i => Qred (center_value m w' hb i + diff)).
  set (n := Z.to_nat numbins) in *.
  set (d := map c (seq 0 n)).
  assert (Hdiff : diff == obs - (lo + inject_Z (Z.of_nat k) * w)).
  { unfold diff, center_value. rewrite !Qred_correct, Hm, Hw, Hhb. field. }
  assert (Hc : forall i, c i == first_edge + inject_Z (Z.of_nat i) * w + w / 2).
  { intro i. unfold c, center_value, first_edge.
    rewrite !Qred_correct, Hdiff, Hm, Hw, Hhb. field. }
  assert (Hlen : length d = n) by (unfold d; now rewrite length_map, length_seq).
  assert (Hnth : forall i, (i < n)%nat -> nth i d 0 = c i).
  { intros i Hi. unfold d.
    rewrite (@nth_map_default _ _ c _ 0%nat) by (now rewrite length_seq).
    now rewrite seq_nth. }
  assert (Hnb : 0 < inject_Z numbins).
  { change 0 with (inject_Z 0). rewrite <- Zlt_Qlt. lia. }
  assert (Wp : 0 < w).
  { unfold w. apply Qlt_shift_div_l; [assumption|]. lra. }
  assert (HU : uniform_centers d w).
  { split; [exact Wp|]. intros i Hi. rewrite Hlen in Hi.
    rewrite !Hnth by lia. rewrite !Hc. change (inject_Z (Z.of_nat 0)) with 0.
    ring. }
  assert (Hfirst : nth 0 d 0 - w / 2 == first_edge).
  { rewrite Hnth by lia. rewrite Hc. change (inject_Z (Z.of_nat 0)) with 0.
    field. }
  assert (Hlast : last d 0 + w / 2 == hi + (first_edge - lo)).
  { rewrite last_nth_pred, Hlen, Hnth by lia. rewrite Hc.
    replace (Z.of_nat (n - 1)) with (numbins - 1)%Z by lia.
    unfold Z.sub. rewrite inject_Z_plus.
    change (inject_Z (- (1))) with (- (1)). unfold w. field. lra. }
  assert (Hne : darray input <> []).
  { intro H. rewrite H in lo_in. contradiction. }
  assert (T2 : (2 <= length d)%nat) by lia.
  assert (T64 : (Z.of_nat (length d) < 2 ^ 64)%Z) by lia.
  destruct (@histogram_regular_counts blank_value d w input T2 T64 HU Hne)
    as [h [Eh [Lh [_ Sh]]]].
  exists d, h. split.
  { unfold d. rewrite !map_map. reflexivity. }
  split; [exact Eh|].
  rewrite (@count_in_range_nonblank blank_value (dtype input) _ _
             (darray input) NB) in Sh.
  assert (Hfe : lo < first_edge) by (unfold first_edge; lra).
  assert (Hf : forall x, In x (gal_blank_remove (darray input)) ->
             Qle_bool (nth 0 d 0 - w / 2) x && Qle_bool x (last d 0 + w / 2)
             = Qle_bool first_edge x).
  { intros x Hx. destruct (lo_hi x Hx) as [X1 X2].
    assert (B : Qle_bool x (last d 0 + w / 2) = true)
      by (apply Qle_bool_iff; lra).
    rewrite B, andb_true_r.
    destruct (Qle_bool first_edge x) eqn:E.
    - apply Qle_bool_iff. apply Qle_bool_iff in E. lra.
    - apply Qle_bool_false. apply Qle_bool_false in E. lra. }
  assert (Hfilter : filter (fun x => Qle_bool (nth 0 d 0 - w / 2) x
                                     && Qle_bool x (last d 0 + w / 2))
                      (gal_blank_remove (darray input))
                    = filter (fun x => Qle_bool first_edge x)
                        (gal_blank_remove (darray input))).
  { clear - Hf. induction (gal_blank_remove (darray input)) as [|x l IH];
      [reflexivity|].
    cbn [filter]. rewrite (Hf x (or_introl eq_refl)).
    rewrite IH by (intros y Hy; apply Hf; now right). reflexivity. }
  rewrite Hfilter in Sh. split; [exact Sh|].
  rewrite Sh. apply inj_lt.
  apply (@filter_length_lt _ (fun x => Qle_bool first_edge x) _ lo lo_in).
  now apply Qle_bool_false.
Qed.

Lemma histogram_on_shifted_bins_misses_low_end_witness :
  let type_max := fun _ : gal_type => 1000 in
  let type_min := fun _ : gal_type => - (1000) in
  let blank_value := fun _ : gal_type => 0 in
  let input := data_of GAL_TYPE_FLOAT64 [3; 1; 5; 2] in
  let w := (5 - 1) / inject_Z 4 in
  let first_edge := 1 + ((5 # 2) - (1 + inject_Z (Z.of_nat 1) * w)) in
  exists d h,
    gal_statistics_regular_bins type_max type_min input [] 4 (Fin (5 # 2))
    = Ok (Some (map Fin d)) /\
    gal_statistics_histogram blank_value input (Some (mk_bins d true)) false
      false = Ok (HistCounts h) /\
    Zsum h = Z.of_nat (length (filter (fun x => Qle_bool first_edge x)
                                 (gal_blank_remove (darray input)))) /\
    (Zsum h < Z.of_nat (length (gal_blank_remove (darray input))))%Z.
Proof.
  assert (A : In 1 (gal_blank_remove
                      (darray (data_of GAL_TYPE_FLOAT64 [3; 1; 5; 2]))))
    by (cbn; tauto).
  assert (B : In 5 (gal_blank_remove
                      (darray (data_of GAL_TYPE_FLOAT64 [3; 1; 5; 2]))))
    by (cbn; tauto).
  assert (C : forall x,
             In x (gal_blank_remove
                     (darray (data_of GAL_TYPE_FLOAT64 [3; 1; 5; 2]))) ->
             1 <= x /\ x <= 5).
  { intros x [<-|[<-|[<-|[<-|[]]]]]; split; unfold Qle; cbn; lia. }
  assert (D : forall x,
             In x (gal_blank_remove
                     (darray (data_of GAL_TYPE_FLOAT64 [3; 1; 5; 2]))) ->
             - (1000) <= x /\ x <= 1000).
  { intros x [<-|[<-|[<-|[<-|[]]]]]; split; unfold Qle; cbn; lia. }
  assert (N : (1 <= 4 < 2 ^ 64)%Z) by lia.
  assert (L : 1 < 5) by reflexivity.
  assert (F : is_float (dtype (data_of GAL_TYPE_FLOAT64 [3; 1; 5; 2])) = true
              \/ ~ In None (darray (data_of GAL_TYPE_FLOAT64 [3; 1; 5; 2])))
    by (left; reflexivity).
  assert (K : (2 < Z.to_nat 4)%nat) by (cbn; lia).
  assert (E1 : 1 + inject_Z (Z.of_nat 1) * ((5 - 1) / inject_Z 4) < 5 # 2)
    by reflexivity.
  assert (E2 : 5 # 2 < 1 + inject_Z (Z.of_nat 2) * ((5 - 1) / inject_Z 4))
    by reflexivity.
  exact (@histogram_on_shifted_bins_misses_low_end
           (fun _ : gal_type => 1000) (fun _ : gal_type => - (1000))
           (fun _ : gal_type => 0)
           (data_of GAL_TYPE_FLOAT64 [3; 1; 5; 2]) 1 5 4%Z (5 # 2) 1%nat
           A B C D N L F K E1 E2).
Defined.

(** ** Concentration *)

Lemma rd_double_map {A : Type} (f : A -> double) (l : list A) (d : A)
  (k : Z) :
  (0 <= k < Z.of_nat (length l))%Z ->
  rd_double (map f l) k = Ok (f (nth (Z.to_nat k) l d)).
Proof.
  intro H. unfold rd_double.
  destruct (k <? 0)%Z eqn:E; [apply Z.ltb_lt in E; lia|].
  destruct (nth_error (map f l) (Z.to_nat k)) as [x|] eqn:En.
  - cbn. f_equal. rewrite nth_error_map in En.
    destruct (nth_error l (Z.to_nat k)) as [y|] eqn:Ey; [|discriminate].
    injection En as <-. f_equal. symmetry. now apply nth_error_nth.
  - apply nth_error_None in En. rewrite length_map in En. lia.
Qed.

(* The two indices that the function reads the scaled array at. *)
Lemma concentration_indices (n : Z) (q : Q) :
  (2 <= n <= 2 ^ 31)%Z -> 0 < q -> q <= 1 ->
  exists il ih : Z,
    gal_statistics_quantile_index n (Fin (1 # 2) - Fin q / Fin 2)%dbl
    = Ok (Some il) /\
    gal_statistics_quantile_index n (Fin (1 # 2) + Fin q / Fin 2)%dbl
    = Ok (Some ih) /\
    (0 <= il)%Z /\ (il <= ih)%Z /\ (ih <= n - 1)%Z /\
    inject_Z il - (1 # 2) < inject_Z (n - 1) * ((1 # 2) - q / 2) /\
    inject_Z (n - 1) * ((1 # 2) - q / 2) <= inject_Z il + (1 # 2) /\
    inject_Z ih - (1 # 2) < inject_Z (n - 1) * ((1 # 2) + q / 2) /\
    inject_Z (n - 1) * ((1 # 2) + q / 2) <= inject_Z ih + (1 # 2).
Proof.
  intros Hn H0 H1.
  set (ql := Qred ((1 # 2) + Qred (- Qred (q / 2)))).
  set (qh := Qred ((1 # 2) + Qred (q / 2))).
  change (Fin (1 # 2) - Fin q / Fin 2)%dbl with (Fin ql).
  change (Fin (1 # 2) + Fin q / Fin 2)%dbl with (Fin qh).
  assert (El : ql == (1 # 2) - q / 2)
    by (unfold ql; rewrite !Qred_correct; reflexivity).
  assert (Eh : qh == (1 # 2) + q / 2)
    by (unfold qh; rewrite !Qred_correct; reflexivity).
  assert (Hs : (1 <= n <= 2 ^ 31)%Z) by lia.
  assert (Hq2 : q / 2 == q * (1 # 2)) by field.
  assert (A0 : 0 <= ql) by (rewrite El, Hq2; lra).
  assert (A1 : ql <= qh) by (rewrite El, Eh, Hq2; lra).
  assert (A2 : qh <= 1) by (rewrite Eh, Hq2; lra).
  assert (A3 : ql <= 1) by lra.
  assert (A4 : 0 <= qh) by lra.
  destruct (@quantile_index_order n ql qh Hs A0 A1 A2)
    as [il [ih [E1 [E2 [B0 [B1 B2]]]]]].
  destruct (@quantile_index_rounds n ql Hs A0 A3) as [il' [E1' [_ [L1 U1]]]].
  destruct (@quantile_index_rounds n qh Hs A4 A2) as [ih' [E2' [_ [L2 U2]]]].
  assert (Hil : il' = il) by congruence.
  assert (Hih : ih' = ih) by congruence.
  rewrite Hil in *. rewrite Hih in *.
  exists il, ih. split; [exact E1|]. split; [exact E2|].
  rewrite El in L1, U1. rewrite Eh in L2, U2. repeat split; assumption.
Qed.

Lemma Qeq_bool_neq (a b : Q) : ~ a == b -> Qeq_bool a b = false.
Proof.
  intro H. destruct (Qeq_bool a b) eqn:E; [|reflexivity].
  apply Qeq_bool_iff in E. contradiction.
Qed.

(* The result in terms of the difference of the two scaled values. *)
Lemma concentration_scaled (input : gal_data) (q : Q) :
  let a := varr (gal_statistics_no_blank_sorted input) in
  let n := Z.of_nat (length a) in
  (2 <= n <= 2 ^ 31)%Z -> 0 < q -> q <= 1 ->
  ~ nth 1 a 0 == nth (Z.to_nat (n - 2)) a 0 ->
  exists (il ih : Z) (E : Q),
    gal_statistics_quantile_index n (Fin (1 # 2) - Fin q / Fin 2)%dbl
    = Ok (Some il) /\
    gal_statistics_quantile_index n (Fin (1 # 2) + Fin q / Fin 2)%dbl
    = Ok (Some ih) /\
    ((0 <= il)%Z /\ (il <= ih)%Z /\ (ih <= n - 1)%Z /\
     inject_Z il - (1 # 2) < inject_Z (n - 1) * ((1 # 2) - q / 2) /\
     inject_Z (n - 1) * ((1 # 2) - q / 2) <= inject_Z il + (1 # 2) /\
     inject_Z ih - (1 # 2) < inject_Z (n - 1) * ((1 # 2) + q / 2) /\
     inject_Z (n - 1) * ((1 # 2) + q / 2) <= inject_Z ih + (1 # 2)) /\
    gal_statistics_concentration input (Fin q) = Ok (Fin q / Fin E)%dbl /\
    E == (nth (Z.to_nat ih) a 0 - nth (Z.to_nat il) a 0)
         / (nth (Z.to_nat (n - 2)) a 0 - nth 1 a 0).
Proof.
  intros a n Hn H0 H1 Hd.
  destruct (@concentration_indices n q Hn H0 H1)
    as [il [ih [E1 [E2 HB]]]].
  pose proof HB as [B0 [B1 [B2 _]]].
  exists il, ih.
  cut (exists E : Q,
         gal_statistics_concentration input (Fin q) = Ok (Fin q / Fin E)%dbl /\
         E == (nth (Z.to_nat ih) a 0 - nth (Z.to_nat il) a 0)
              / (nth (Z.to_nat (n - 2)) a 0 - nth 1 a 0)).
  { intros [E [R HE]]. exists E. repeat split; try assumption; apply HB. }
  unfold gal_statistics_concentration, vsize. fold a. fold n.
  destruct (n <=? 1)%Z eqn:En; [apply Z.leb_le in En; lia|].
  rewrite E1, E2. cbn [nonblank_index bind of_option].
  rewrite (@rd_double_map _ Fin a 0 1) by (fold n; lia).
  rewrite (@rd_double_map _ Fin a 0 (n - 2)) by (fold n; lia).
  cbn [bind].
  set (mn := nth (Z.to_nat 1) a 0). set (mx := nth (Z.to_nat (n - 2)) a 0).
  change (nth 1 a 0) with mn in Hd. fold mx in Hd.
  change (nth 1 a 0) with mn.
  set (D := Qred (mx + Qred (- mn))).
  assert (HD : D == mx - mn) by (unfold D; rewrite !Qred_correct; reflexivity).
  assert (HD0 : Qeq_bool D 0 = false).
  { apply Qeq_bool_neq. rewrite HD. intro Z0. apply Hd. lra. }
  set (sc := fun x : Q => Qred (Qred (x + Qred (- mn)) / D)).
  assert (Hsc : forall x, ((Fin x - Fin mn) / (Fin mx - Fin mn))%dbl
                          = Fin (sc x)).
  { intro x. unfold Dbl.sub. cbn [Dbl.neg Dbl.add Dbl.div]. fold D.
    now rewrite HD0. }
  rewrite map_map.
  rewrite (@rd_double_map _ _ a 0 ih) by (fold n; lia).
  rewrite (@rd_double_map _ _ a 0 il) by (fold n; lia).
  cbn [bind]. rewrite !Hsc.
  set (xl := nth (Z.to_nat il) a 0). set (xh := nth (Z.to_nat ih) a 0).
  set (E := Qred (sc xh + Qred (- sc xl))).
  assert (HE : E == (xh - xl) / (mx - mn)).
  { unfold E, sc. rewrite !Qred_correct, HD. field. intro Z0. apply Hd. lra. }
  change (Fin (sc xh) - Fin (sc xl))%dbl with (Fin E).
  exists E. split; [reflexivity|exact HE].
Qed.

(** X27.  For an input with between 2 and 2^31 non-blank elements, sorted
    either way, a width 0 < q <= 1 and a second element that differs from
    the element before the last, [gal_statistics_concentration] returns
    q*(a[n-2]-a[1])/(a[ihigh]-a[ilow]), where [a] is the sorted array and
    [ilow], [ihigh] are the quantile indices of 0.5-q/2 and 0.5+q/2; it
    returns plus infinity when the two elements at these indices are
    equal. *)
Theorem concentration_value (input : gal_data) (q : Q) :
  let a := varr (gal_statistics_no_blank_sorted input) in
  let n := Z.of_nat (length a) in
  (2 <= n <= 2 ^ 31)%Z -> 0 < q -> q <= 1 ->
  ~ nth 1 a 0 == nth (Z.to_nat (n - 2)) a 0 ->
  exists il ih : Z,
    gal_statistics_quantile_index n (Fin (1 # 2) - Fin q / Fin 2)%dbl
    = Ok (Some il) /\
    gal_statistics_quantile_index n (Fin (1 # 2) + Fin q / Fin 2)%dbl
    = Ok (Some ih) /\
    (nth (Z.to_nat il) a 0 == nth (Z.to_nat ih) a 0 ->
     gal_statistics_concentration input (Fin q) = Ok PInf) /\
    (~ nth (Z.to_nat il) a 0 == nth (Z.to_nat ih) a 0 ->
     exists r,
       gal_statistics_concentration input (Fin q) = Ok (Fin r) /\
       r == q * (nth (Z.to_nat (n - 2)) a 0 - nth 1 a 0)
            / (nth (Z.to_nat ih) a 0 - nth (Z.to_nat il) a 0)).
Proof.
  intros a n Hn H0 H1 Hd.
  destruct (@concentration_scaled input q Hn H0 H1 Hd)
    as [il [ih [E [E1 [E2 [_ [R HE]]]]]]].
  fold a in HE, R. fold n in HE.
  exists il, ih. split; [exact E1|]. split; [exact E2|].
  rewrite R. cbn [Dbl.div].
  set (mn := nth 1 a 0) in *. set (mx := nth (Z.to_nat (n - 2)) a 0) in *.
  set (xl := nth (Z.to_nat il) a 0) in *.
  set (xh := nth (Z.to_nat ih) a 0) in *.
  split.
  - intro Heq.
    assert (E0 : Qeq_bool E 0 = true).
    { apply Qeq_bool_iff. rewrite HE, Heq. field. intro Z0. apply Hd. lra. }
    rewrite E0. now rewrite (Qsgn_pos H0).
  - intro Hneq.
    assert (E0 : Qeq_bool E 0 = false).
    { apply Qeq_bool_neq. rewrite HE. intro Z0.
      apply Hneq.
      assert (M : (xh - xl) / (mx - mn) * (mx - mn) == 0)
        by (rewrite Z0; ring).
      rewrite Qmult_comm, Qmult_div_r in M; [lra|].
      intro Z1. apply Hd. lra. }
    rewrite E0. eexists. split; [reflexivity|].
    rewrite Qred_correct, HE. field.
    split; [intro Z1; apply Hd; lra | intro Z1; apply Hneq; lra].
Qed.

Lemma concentration_value_witness :
  let input := data_of GAL_TYPE_INT32 [1; 2; 3; 5; 9; 10] in
  let a := varr (gal_statistics_no_blank_sorted input) in
  let n := Z.of_nat (length a) in
  exists il ih : Z,
    gal_statistics_quantile_index n (Fin (1 # 2) - Fin (1 # 2) / Fin 2)%dbl
    = Ok (Some il) /\
    gal_statistics_quantile_index n (Fin (1 # 2) + Fin (1 # 2) / Fin 2)%dbl
    = Ok (Some ih) /\
    (nth (Z.to_nat il) a 0 == nth (Z.to_nat ih) a 0 ->
     gal_statistics_concentration input (Fin (1 # 2)) = Ok PInf) /\
    (~ nth (Z.to_nat il) a 0 == nth (Z.to_nat ih) a 0 ->
     exists r,
       gal_statistics_concentration input (Fin (1 # 2)) = Ok (Fin r) /\
       r == (1 # 2) * (nth (Z.to_nat (n - 2)) a 0 - nth 1 a 0)
            / (nth (Z.to_nat ih) a 0 - nth (Z.to_nat il) a 0)).
Proof.
  assert (N : (2 <= 6 <= 2 ^ 31)%Z) by lia.
  assert (Q0 : 0 < 1 # 2) by reflexivity.
  assert (Q1 : 1 # 2 <= 1) by (unfold Qle; cbn; lia).
  assert (D : ~ 2 == 9) by (unfold Qeq; cbn; lia).
  exact (@concentration_value (data_of GAL_TYPE_INT32 [1; 2; 3; 5; 9; 10])
           (1 # 2) N Q0 Q1 D).
Defined.

(** X28.  In exact arithmetic (the copy of the data to float32 and the two
    quantile indices taken as exact): for an input with exactly two
    non-blank elements, different from each other, and a width 0 < q <= 1,
    [gal_statistics_concentration] returns [-q]: the second element is taken
    as the minimum and the first as the maximum of the scaling, whichever is
    larger, and the result is negative. *)
Theorem concentration_of_two_elements (input : gal_data) (q x y : Q) :
  varr (gal_statistics_no_blank_sorted input) = [x; y] ->
  ~ x == y -> 0 < q -> q <= 1 ->
  exists r, gal_statistics_concentration input (Fin q) = Ok (Fin r) /\
            r == - q.
Proof.
  intros Hv Hxy H0 H1.
  assert (Hq2 : q / 2 == q * (1 # 2)) by field.
  destruct (@concentration_scaled input q) as [il [ih [E [_ [_ [HB [R HE]]]]]]];
    try assumption.
  { rewrite Hv. cbn. lia. }
  { rewrite Hv. cbn. intro H. apply Hxy. now symmetry. }
  rewrite Hv in HB, HE. cbn [length] in HB, HE.
  change (Z.of_nat 2 - 1)%Z with 1%Z in HB.
  change (inject_Z 1) with 1 in HB.
  destruct HB as [B0 [B1 [B2 [L1 [U1 [L2 U2]]]]]].
  rewrite Hq2 in L1, U1, L2, U2.
  assert (Hil : il = 0%Z).
  { assert (L : (il < 1)%Z); [|lia].
    rewrite Zlt_Qlt. change (inject_Z 1) with 1. lra. }
  assert (Hih : ih = 1%Z).
  { assert (L : (0 < ih)%Z); [|lia].
    rewrite Zlt_Qlt. change (inject_Z 0) with 0. lra. }
  subst il ih. change (E == (y - x) / (x - y)) in HE.
  rewrite R. cbn [Dbl.div].
  assert (E0 : Qeq_bool E 0 = false).
  { apply Qeq_bool_neq. rewrite HE. intro Z0.
    assert (M : (y - x) / (x - y) == - (1)).
    { field. intro Z1. apply Hxy. lra. }
    rewrite M in Z0. discriminate. }
  rewrite E0. eexists. split; [reflexivity|].
  rewrite Qred_correct, HE. field.
  split; intro Z1; apply Hxy; lra.
Qed.

Lemma concentration_of_two_elements_witness :
  exists r,
    gal_statistics_concentration (data_of GAL_TYPE_FLOAT64 [3; 8])
      (Fin (1 # 2)) = Ok (Fin r) /\
    r == - (1 # 2).
Proof.
  assert (D : ~ 3 == 8) by (unfold Qeq; cbn; lia).
  assert (Q0 : 0 < 1 # 2) by reflexivity.
  assert (Q1 : 1 # 2 <= 1) by (unfold Qle; cbn; lia).
  exact (@concentration_of_two_elements (data_of GAL_TYPE_FLOAT64 [3; 8])
           (1 # 2) 3 8 eq_refl D Q0 Q1).
Defined.

Lemma inf_of_sign_cases (s : Z) :
  inf_of_sign s = NaN \/ inf_of_sign s = PInf \/ inf_of_sign s = NInf.
Proof.
  unfold inf_of_sign. destruct (s =? 0)%Z; [now left|].
  destruct (0 <? s)%Z; [right; now left|right; now right].
Qed.

Lemma div_by_infinite (q : Q) (u v : double) :
  u = NaN \/ u = PInf \/ u = NInf ->
  v = NaN \/ v = PInf \/ v = NInf ->
  (Fin q / (u - v))%dbl = NaN \/ (Fin q / (u - v))%dbl = Fin 0.
Proof.
  intros Hu Hv.
  destruct Hu as [Hu|[Hu|Hu]]; destruct Hv as [Hv|[Hv|Hv]]; subst u v;
    cbn; auto.
Qed.

(** X29.  For an input with exactly three non-blank elements and a width
    0 < q <= 1, [gal_statistics_concentration] never returns a usable
    number: the second element is both the minimum and the maximum of the
    scaling, every scaled value is a division by zero, and the result is NaN
    or 0. *)
Theorem concentration_of_three_elements (input : gal_data) (q x y z : Q) :
  varr (gal_statistics_no_blank_sorted input) = [x; y; z] ->
  0 < q -> q <= 1 ->
  gal_statistics_concentration input (Fin q) = Ok NaN \/
  gal_statistics_concentration input (Fin q) = Ok (Fin 0).
Proof.
  intros Hv H0 H1.
  destruct (@concentration_indices 3 q ltac:(lia) H0 H1)
    as [il [ih [E1 [E2 [B0 [B1 [B2 _]]]]]]].
  unfold gal_statistics_concentration, vsize. rewrite Hv.
  change (Z.of_nat (length [x; y; z])) with 3%Z.
  change (3 <=? 1)%Z with false. cbv iota.
  rewrite E1, E2. cbn [nonblank_index bind of_option].
  change (rd_double (map Fin [x; y; z]) 1) with (Ok (Fin y)).
  change (rd_double (map Fin [x; y; z]) (3 - 2)) with (Ok (Fin y)).
  cbn [bind]. rewrite map_map.
  set (D := Qred (y + Qred (- y))).
  assert (HD0 : Qeq_bool D 0 = true).
  { apply Qeq_bool_iff. unfold D. rewrite !Qred_correct. ring. }
  assert (Hsc : forall v, ((Fin v - Fin y) / (Fin y - Fin y))%dbl
                          = inf_of_sign (Qsgn (Qred (v + Qred (- y))))).
  { intro v. unfold Dbl.sub. cbn [Dbl.neg Dbl.add Dbl.div]. fold D.
    now rewrite HD0. }
  rewrite (@rd_double_map _ _ [x; y; z] 0 ih) by (cbn [length]; lia).
  rewrite (@rd_double_map _ _ [x; y; z] 0 il) by (cbn [length]; lia).
  cbn [bind]. rewrite !Hsc.
  destruct (div_by_infinite q
              (inf_of_sign_cases
                 (Qsgn (Qred (nth (Z.to_nat ih) [x; y; z] 0 + Qred (- y)))))
              (inf_of_sign_cases
                 (Qsgn (Qred (nth (Z.to_nat il) [x; y; z] 0 + Qred (- y))))))
    as [->| ->]; [now left|now right].
Qed.

Lemma concentration_of_three_elements_witness :
  gal_statistics_concentration (data_of GAL_TYPE_FLOAT64 [1; 5; 7])
    (Fin (1 # 2)) = Ok NaN \/
  gal_statistics_concentration (data_of GAL_TYPE_FLOAT64 [1; 5; 7])
    (Fin (1 # 2)) = Ok (Fin 0).
Proof.
  assert (Q0 : 0 < 1 # 2) by reflexivity.
  assert (Q1 : 1 # 2 <= 1) by (unfold Qle; cbn; lia).
  exact (@concentration_of_three_elements (data_of GAL_TYPE_FLOAT64 [1; 5; 7])
           (1 # 2) 1 5 7 eq_refl Q0 Q1).
Defined.

(** ** Bounds of the median and of the MAD *)

(** X30.  In exact arithmetic (no rounding, and no overflow in the sum of the
    two middle elements): for a floating-point input whose non-blank
    elements, at least one, lie between [lo] and [hi], the median returned
    by [gal_statistics_median] lies between [lo] and [hi], and the median
    absolute deviation returned by [gal_statistics_mad] lies between 0 and
    [hi - lo]. *)
Theorem median_and_mad_bounds (input : gal_data) (lo hi : Q) :
  is_float (dtype input) = true ->
  gal_blank_remove (darray input) <> [] ->
  (forall x, In x (gal_blank_remove (darray input)) -> lo <= x /\ x <= hi) ->
  exists m d,
    scalar (gal_statistics_median input) = Some m /\
    gal_statistics_mad input = Some d /\
    lo <= m /\ m <= hi /\ 0 <= d /\ d <= hi - lo.
Proof.
  intros Hf Hne Hall.
  pose proof (no_blank_sorted_perm input) as P.
  pose proof (@nbs_float input Hf) as Hft.
  set (nbs := gal_statistics_no_blank_sorted input) in *.
  assert (Hne' : varr nbs <> []).
  { intro E. rewrite E in P. apply Permutation_sym, Permutation_nil in P.
    contradiction. }
  assert (Hall' : forall x, In x (varr nbs) -> lo <= x /\ x <= hi).
  { intros x Hx. apply Hall. apply (Permutation_in _ (Permutation_sym P) Hx). }
  destruct (@median_between (vtype nbs) (varr nbs) lo hi Hft Hne' Hall')
    as [m [Em [M1 M2]]].
  assert (Hmed : scalar (gal_statistics_median input) = Some m).
  { unfold gal_statistics_median, scalar. cbn [darray]. fold nbs. exact Em. }
  unfold gal_statistics_mad, statistics_median_mad. cbn [snd]. fold nbs.
  rewrite Hmed.
  unfold statistics_mad_in_sorted_no_blank.
  set (use := map (fun x => cast (vtype nbs) (Qabs (x - m))) (varr nbs)).
  unfold gal_statistics_median, scalar. cbn [darray].
  assert (Hv : vtype (gal_statistics_no_blank_sorted (data_of (vtype nbs) use))
               = vtype nbs).
  { unfold gal_statistics_no_blank_sorted. cbn [data_of darray dtype].
    destruct (gal_blank_remove (map (@Some Q) use)); [reflexivity|].
    destruct (gal_statistics_is_sorted (q :: l)); reflexivity. }
  rewrite Hv.
  pose proof (no_blank_sorted_perm (data_of (vtype nbs) use)) as P2.
  unfold data_of in P2 at 1. cbn [darray] in P2.
  rewrite blank_remove_data_of in P2.
  destruct (@median_between (vtype nbs)
              (varr (gal_statistics_no_blank_sorted
                       (data_of (vtype nbs) use))) 0 (hi - lo) Hft)
    as [d [Ed [D1 D2]]].
  - intro E. rewrite E in P2. apply Permutation_sym, Permutation_nil in P2.
    unfold use in P2. destruct (varr nbs); [contradiction|discriminate].
  - intros x Hx. apply (Permutation_in _ (Permutation_sym P2)) in Hx.
    unfold use in Hx. apply in_map_iff in Hx. destruct Hx as [y [<- Hy]].
    unfold cast. rewrite Hft, Qred_correct.
    destruct (Hall' y Hy) as [Y1 Y2].
    split; [apply Qabs_nonneg|].
    apply Qabs_Qle_condition. split; lra.
  - exists m, d. repeat split; assumption.
Qed.

Lemma median_and_mad_bounds_witness :
  let input := mk_data GAL_TYPE_FLOAT32 [Some 4; None; Some 1; Some 9] in
  exists m d,
    scalar (gal_statistics_median input) = Some m /\
    gal_statistics_mad input = Some d /\
    1 <= m /\ m <= 9 /\ 0 <= d /\ d <= 9 - 1.
Proof.
  assert (N : gal_blank_remove
                (darray (mk_data GAL_TYPE_FLOAT32
                           [Some 4; None; Some 1; Some 9])) <> [])
    by discriminate.
  assert (A : forall x,
             In x (gal_blank_remove
                     (darray (mk_data GAL_TYPE_FLOAT32
                                [Some 4; None; Some 1; Some 9]))) ->
             1 <= x /\ x <= 9).
  { intros x [<-|[<-|[<-|[]]]]; split; unfold Qle; cbn; lia. }
  exact (@median_and_mad_bounds
           (mk_data GAL_TYPE_FLOAT32 [Some 4; None; Some 1; Some 9]) 1 9
           eq_refl N A).
Defined.
